(** * SAP datasheet filter: the sequential hierarchy processor

    A shallow embedding of [sequential_processor.py] (extraction of the
    level records, construction of the parent/child links, ordered write
    of the BOM rows), of the level parser of [simple_excel_processor.py]
    and of the link pass of [optimized_processor.py], followed by the
    properties of the hierarchy reconstruction and of the flattened row
    order.

    Conventions of the model.
    - A spreadsheet cell is a [cell]: blank ([NaN]), a Python [int], a
      finite float (its value [m * 2^e] and the text [str()] gives for it)
      or a text. Text is ASCII.
    - The list [items] of dicts is a store [list item]; a reference to a
      dict is its position in the store, so that two references are the
      same object exactly when they are the same position.
    - A raised exception is a value of [res]; [RecursionError] is what the
      interpreter raises when [write_deeper_levels] nests deeper than the
      recursion limit, which the model takes as a parameter [limit].
    - The worksheet rows are returned in the order in which they are
      written, each with its [origin]: the dicts it was written from. *)

From Stdlib Require Import ZArith String Ascii Decimal DecimalString DecimalZ Lia.
From stdpp Require Import base tactics option list sorting.

(** ** Exceptions *)

Inductive exn := ValueError | RecursionError | DanglingReference.

Inductive res (A : Type) : Type :=
| Ok (a : A)
| Raise (e : exn).
Arguments Ok {A} a.
Arguments Raise {A} e.

#[global] Instance res_ret : MRet res := fun A a => Ok a.
#[global] Instance res_bind : MBind res := fun A B f m =>
  match m with
  | Ok a => f a
  | Raise e => Raise e
  end.

(** A reference that points outside the store cannot be followed; the
    stores built by the program never contain one (see
    [process_records_total]). *)
Definition deref {A} (store : list A) (ref : nat) : res A :=
  match store !! ref with
  | Some a => Ok a
  | None => Raise DanglingReference
  end.

(** ** The Python built-ins the program uses *)

Module Py.

Local Open Scope string_scope.

Inductive cell :=
| NaN
| CInt (z : Z)
| CFloat (m e : Z) (repr : string)
| CStr (s : string).

(** [pd.isna] *)
Definition isna (c : cell) : bool :=
  match c with
  | NaN => true
  | _ => false
  end.

Definition is_digit (c : ascii) : bool :=
  match c with
  | "0" | "1" | "2" | "3" | "4" | "5" | "6" | "7" | "8" | "9" => true
  | _ => false
  end%char.

(** [str.isspace] on ASCII: TAB, LF, VT, FF, CR, FS, GS, RS, US, SPACE. *)
Definition is_space (c : ascii) : bool :=
  let n := N_of_ascii c in
  ((9 <=? n) && (n <=? 13) || (28 <=? n) && (n <=? 32))%N.

(** [str(z)] for an [int]. *)
Definition str_of_int (z : Z) : string := NilZero.string_of_int (Z.to_int z).

(** [str(c)] *)
Definition str (c : cell) : string :=
  match c with
  | NaN => "nan"
  | CInt z => str_of_int z
  | CFloat _ _ repr => repr
  | CStr s => s
  end.

Fixpoint lstrip (s : string) : string :=
  match s with
  | String c s' => if is_space c then lstrip s' else s
  | EmptyString => EmptyString
  end.

Fixpoint rstrip (s : string) : string :=
  match s with
  | String c s' =>
      match rstrip s' with
      | EmptyString => if is_space c then EmptyString else String c EmptyString
      | r => String c r
      end
  | EmptyString => EmptyString
  end.

(** [s.strip()] *)
Definition strip (s : string) : string := rstrip (lstrip s).

(** The value of a string of decimal digits, [None] when some character
    is not a digit. *)
Definition digits_value (s : string) : option Z :=
  Z.of_uint <$> NilEmpty.uint_of_string s.

(** [int(s)] for a text: surrounding white space, an optional sign, then
    decimal digits, single underscores allowed between digits. *)
Fixpoint int_body (prev_digit : bool) (acc : string) (s : string) : option string :=
  match s with
  | EmptyString => if prev_digit then Some acc else None
  | String c s' =>
      if is_digit c then int_body true (acc ++ String c EmptyString) s'
      else if (Ascii.eqb c "_" && prev_digit)%bool then int_body false acc s'
      else None
  end.

Definition int_of_str (s : string) : res Z :=
  let body_value b :=
    match int_body false EmptyString b ≫= digits_value with
    | Some z => Ok z
    | None => Raise ValueError
    end in
  match strip s with
  | String "-" b => z ← body_value b; Ok (- z)%Z
  | String "+" b => body_value b
  | b => body_value b
  end.

(** [int(c)]: a float is truncated towards zero. *)
Definition int (c : cell) : res Z :=
  match c with
  | NaN => Raise ValueError
  | CInt z => Ok z
  | CFloat m e _ => Ok (if (0 <=? e)%Z then m * 2 ^ e else m ÷ 2 ^ (- e))%Z
  | CStr s => int_of_str s
  end.

Definition upper_char (c : ascii) : ascii :=
  let n := N_of_ascii c in
  if ((97 <=? n) && (n <=? 122))%N then ascii_of_N (n - 32) else c.

(** [s.upper()] *)
Fixpoint upper (s : string) : string :=
  match s with
  | String c s' => String (upper_char c) (upper s')
  | EmptyString => EmptyString
  end.

Fixpoint zeros (n : nat) : string :=
  match n with
  | O => EmptyString
  | S n' => String "0" (zeros n')
  end.

(** [f"{n:04d}"]: the sign, then the digits padded with zeros to a total
    width of at least four. *)
Definition format_04d (n : Z) : string :=
  let digits := str_of_int (Z.abs n) in
  if (n <? 0)%Z
  then String "-" (zeros (3 - String.length digits) ++ digits)
  else zeros (4 - String.length digits) ++ digits.



End Py.

Import Py.

(** ** Data model *)

(** One row of the data frame: the cells of columns A, B, D and E
    ([row.iloc[0]], [row.iloc[1]], [row.iloc[3]], [row.iloc[4]]). *)
Record raw_row := { cellA : cell; cellB : cell; cellD : cell; cellE : cell }.

(** The values extracted from one row. *)
Record level_record :=
  { r_level : Z; r_art_nr : string; r_unit : string; r_quantity : cell }.

(** The dict appended to [items]; [children] holds references. *)
Record item :=
  { level : Z; art_nr : string; unit : string; quantity : cell;
    children : list nat }.

Definition new_item (r : level_record) : item :=
  {| level := r_level r; art_nr := r_art_nr r; unit := r_unit r;
     quantity := r_quantity r; children := [] |}.

Definition append_children (it : item) (refs : list nat) : item :=
  {| level := level it; art_nr := art_nr it; unit := unit it;
     quantity := quantity it; children := children it ++ refs |}.

(** The cells written in one worksheet row: columns E (material), L (item
    number), N (component), O (quantity) and P (unit). *)
Record Row :=
  { colE : string; colL : string; colN : string; colO : cell; colP : string }.

(** Which dicts a row was written from: a material (header) row of [p], or
    the component row of child [c] under [p]. *)
Inductive origin :=
| Material (p : nat)
| Component (p c : nat).

Definition written : Type := origin * Row.

Definition is_component_of (p : nat) (w : written) : bool :=
  match fst w with
  | Component q _ => Nat.eqb q p
  | Material _ => false
  end.

Definition is_material_of (p : nat) (w : written) : bool :=
  match fst w with
  | Material q => Nat.eqb q p
  | Component _ _ => false
  end.

Definition is_component_for (c : nat) (w : written) : bool :=
  match fst w with
  | Component _ d => Nat.eqb d c
  | Material _ => false
  end.

(** ** sequential_processor.py *)

Module Sequential.

(** The body of the first loop of [build_hierarchy_structure]: [None]
    is [continue]. *)
Definition extract_row (row : raw_row) : res (option level_record) :=
  if isna (cellA row) then Ok None
  else
    lvl ← Py.int (cellA row);
    art ← (if isna (cellB row) then Ok EmptyString
           else z ← Py.int (cellB row); Ok (str_of_int z));
    let unit := if isna (cellD row) then EmptyString else upper (str (cellD row)) in
    let quantity := if isna (cellE row) then CStr EmptyString else cellE row in
    Ok (Some {| r_level := lvl; r_art_nr := art; r_unit := unit;
                r_quantity := quantity |}).

(** The first loop: the records of the rows that are not skipped, in
    order; the first exception ends it. *)
Fixpoint extract_rows (rows : list raw_row) : res (list level_record) :=
  match rows with
  | [] => Ok []
  | row :: rows' =>
      r ← extract_row row;
      rs ← extract_rows rows';
      Ok (match r with Some r => r :: rs | None => rs end)
  end.

(** [for i in range(1, len(df))]: row 0 is skipped. *)
Definition extract (df : list raw_row) : res (list level_record) :=
  extract_rows (tail df).

(** The [while j < len(items)] loop for one item: [rest] is [items[j:]],
    the result is the list of references appended to its children. *)
Fixpoint find_children (current_level : Z) (j : nat) (rest : list item) : list nat :=
  match rest with
  | [] => []
  | it :: rest' =>
      if (level it =? current_level + 1)%Z
      then j :: find_children current_level (S j) rest'
      else if (level it <=? current_level)%Z then []
      else find_children current_level (S j) rest'
  end.

(** One turn of [for i, item in enumerate(items)]. *)
Definition link_item (items : list item) (i : nat) : list item :=
  match items !! i with
  | Some it =>
      <[i := append_children it
               (find_children (level it) (S i) (drop (S i) items))]> items
  | None => items
  end.

(** The second loop of [build_hierarchy_structure]. *)
Definition link (items : list item) : list item :=
  foldl link_item items (seq 0 (length items)).

(** [[item for item in items if item['level'] == 1]], as references. *)
Fixpoint level1_refs (j : nat) (items : list item) : list nat :=
  match items with
  | [] => []
  | it :: items' =>
      if (level it =? 1)%Z then j :: level1_refs (S j) items'
      else level1_refs (S j) items'
  end.

(** The builder on extracted records: the store of linked dicts and the
    references to the roots. *)
Definition build (records : list level_record) : list item * list nat :=
  let items := link (new_item <$> records) in
  (items, level1_refs 0 items).

Definition build_hierarchy_structure (df : list raw_row)
  : res (list item * list nat) :=
  records ← extract df; Ok (build records).

(** The cells of a material row: the worksheet writes of columns 5, 12,
    14, 15 and 16 for a material. *)
Definition material_row (p : item) : Row :=
  {| colE := art_nr p; colL := EmptyString; colN := EmptyString;
     colO := CStr EmptyString; colP := EmptyString |}.

(** The cells of the row of component [c] under material [p]. *)
Definition component_row (p c : item) (item_number : Z) : Row :=
  {| colE := art_nr p; colL := format_04d item_number; colN := art_nr c;
     colO := quantity c; colP := unit c |}.

Section Writer.
Variable items : list item.

(** Writing one row, [current_row += 1] being the position in the list
    of rows. *)
Definition write_material (p : nat) : res written :=
  pi ← deref items p; Ok (Material p, material_row pi).

Definition write_component (p c : nat) (item_number : Z) : res written :=
  pi ← deref items p; ci ← deref items c;
  Ok (Component p c, component_row pi ci item_number).

(** [p['children']] *)
Definition children_of (p : nat) : res (list nat) :=
  pi ← deref items p; Ok (children pi).

(** A loop that writes one component row per child and adds 10 to
    [item_number] each time. *)
Fixpoint write_components (p : nat) (cs : list nat) (item_number : Z)
  : res (list written) :=
  match cs with
  | [] => Ok []
  | c :: cs' =>
      w ← write_component p c item_number;
      ws ← write_components p cs' (item_number + 10);
      Ok (w :: ws)
  end.

(** [for x in xs: body(x)], the rows written by the bodies in order. *)
Fixpoint for_each (body : nat → res (list written)) (xs : list nat)
  : res (list written) :=
  match xs with
  | [] => Ok []
  | x :: xs' =>
      ws ← body x;
      ws' ← for_each body xs';
      Ok (ws ++ ws')
  end.

(** [write_deeper_levels]; [limit] is the number of nested calls the
    interpreter still allows. *)
Fixpoint write_deeper_levels (limit : nat) (parent_item : nat)
  : res (list written) :=
  match limit with
  | O => Raise RecursionError
  | S limit' =>
      cs ← children_of parent_item;
      match cs with
      | [] => Ok []
      | _ =>
          m ← write_material parent_item;
          comps ← write_components parent_item cs 10;
          deeper ← for_each (write_deeper_levels limit') cs;
          Ok (m :: comps ++ deeper)
      end
  end.

(** The loop over [level4_items]: the call of [write_deeper_levels] is
    in the body of the loop that writes the component rows. *)
Fixpoint write_level4 (limit : nat) (level3_item : nat) (cs : list nat)
  (item_number : Z) : res (list written) :=
  match cs with
  | [] => Ok []
  | level4_item :: cs' =>
      w ← write_component level3_item level4_item item_number;
      deeper ← write_deeper_levels limit level4_item;
      ws ← write_level4 limit level3_item cs' (item_number + 10);
      Ok (w :: deeper ++ ws)
  end.

(** The body of [for level3_item in level3_items] (second loop). *)
Definition write_level3 (limit : nat) (level3_item : nat) : res (list written) :=
  level4_items ← children_of level3_item;
  match level4_items with
  | [] => Ok []
  | _ =>
      m ← write_material level3_item;
      ws ← write_level4 limit level3_item level4_items 10;
      Ok (m :: ws)
  end.

(** The body of [for level2_item in level2_items] (second loop). *)
Definition write_level2 (limit : nat) (level2_item : nat) : res (list written) :=
  level3_items ← children_of level2_item;
  match level3_items with
  | [] => Ok []
  | _ =>
      m ← write_material level2_item;
      comps ← write_components level2_item level3_items 10;
      deeper ← for_each (write_level3 limit) level3_items;
      Ok (m :: comps ++ deeper)
  end.

(** The body of [for level1_item in hierarchy]: the material row of a
    level-1 item is written whether it has children or not. *)
Definition write_level1 (limit : nat) (level1_item : nat) : res (list written) :=
  m ← write_material level1_item;
  level2_items ← children_of level1_item;
  comps ← write_components level1_item level2_items 10;
  deeper ← for_each (write_level2 limit) level2_items;
  Ok (m :: comps ++ deeper).

(** The rows in the order written and the returned [current_row]; the
    k-th row written goes to worksheet row [start_row + k]. *)
Definition write_hierarchy_ordered (limit : nat) (hierarchy : list nat)
  (start_row : Z) : res (list written * Z) :=
  ws ← for_each (write_level1 limit) hierarchy;
  Ok (ws, (start_row + Z.of_nat (length ws))%Z).

End Writer.

(** [process_sequential_hierarchy], on the extracted records. *)
Definition process_records (limit : nat) (records : list level_record)
  (start_row : Z) : res (list written * Z) :=
  let '(items, hierarchy) := build records in
  write_hierarchy_ordered items limit hierarchy start_row.


(** The rows handed to the worksheet, without their origins. *)
Definition output_rows (r : res (list written * Z)) : res (list Row) :=
  match r with
  | Ok (ws, _) => Ok (map snd ws)
  | Raise e => Raise e
  end.

End Sequential.

(** ** simple_excel_processor.py *)

Module Simple.


(** [str(cell)], or the empty text when [pd.isna(cell)]. *)
Definition col_text (c : cell) : string :=
  if isna c then EmptyString else str c.

End Simple.

(** ** The rest of [process_aptive_to_bom] *)

Module SimpleBom.

(** The dict appended to [level_data[level]]. *)
Record level_item :=
  { s_level : Z; level_text : string; col_b : string; col_d : string;
    col_e : string }.



(** [level_data], a dict from levels to lists: its entries in insertion
    order. *)
Definition level_dict : Type := list (Z * list level_item).


(** [if level not in level_data: level_data[level] = []] and
    [level_data[level].append(item)]: a new key goes to the end. *)
Fixpoint store_item (level_data : level_dict) (it : level_item) : level_dict :=
  match level_data with
  | [] => [(s_level it, [it])]
  | (k, v) :: level_data' =>
      if (k =? s_level it)%Z then (k, v ++ [it]) :: level_data'
      else (k, v) :: store_item level_data' it
  end.



(** The cells written for one item: columns E, N, O and P. *)
Record cells := { cE : string; cN : string; cO : string; cP : string }.

Definition cells_of (it : level_item) : cells :=
  if (s_level it =? 1)%Z
  then {| cE := col_b it; cN := EmptyString; cO := col_d it; cP := col_e it |}
  else {| cE := EmptyString; cN := col_b it; cO := col_d it; cP := col_e it |}.




End SimpleBom.

(** ** optimized_processor.py *)

Module Optimized.

(** First pass of [build_hierarchy_map]: [items[i] = {...}] for each row
    [i >= 1] whose level cell is not blank. The dict is the list of its
    entries in insertion order; the key is the data-frame index. *)
Fixpoint collect (i : nat) (rows : list raw_row) : res (list (nat * item)) :=
  match rows with
  | [] => Ok []
  | row :: rows' =>
      r ← Sequential.extract_row row;
      rest ← collect (S i) rows';
      Ok (match r with Some r => (i, new_item r) :: rest | None => rest end)
  end.

Definition first_pass (df : list raw_row) : res (list (nat * item)) :=
  collect 1 (tail df).

(** The [for j in range(i + 1, len(item_indices))] loop for one item:
    [rest] is the entries after it, the result the keys appended. *)
Fixpoint find_children (current_level : Z) (rest : list (nat * item)) : list nat :=
  match rest with
  | [] => []
  | (child_idx, child_item) :: rest' =>
      if (level child_item =? current_level + 1)%Z
      then child_idx :: find_children current_level rest'
      else if (level child_item <=? current_level)%Z then []
      else find_children current_level rest'
  end.

(** One turn of [for i, idx in enumerate(item_indices)]. *)
Definition link_item (items : list (nat * item)) (i : nat) : list (nat * item) :=
  match items !! i with
  | Some (idx, it) =>
      <[i := (idx, append_children it
                     (find_children (level it) (drop (S i) items)))]> items
  | None => items
  end.

(** The second pass of [build_hierarchy_map]. *)
Definition second_pass (items : list (nat * item)) : list (nat * item) :=
  foldl link_item items (seq 0 (length items)).

(** [items[idx]] *)
Fixpoint get (items : list (nat * item)) (idx : nat) : res item :=
  match items with
  | [] => Raise DanglingReference
  | (k, it) :: items' => if Nat.eqb k idx then Ok it else get items' idx
  end.

(** The dict returned by [build_complete_hierarchy]: the copy of the
    item with its ['index'] and its ['complete_children']. *)
#[warnings="-register-all"]
Inductive hierarchy :=
| Node (index : nat) (node : item) (complete_children : list hierarchy).

Definition index (h : hierarchy) : nat :=
  match h with Node idx _ _ => idx end.

Definition node (h : hierarchy) : item :=
  match h with Node _ it _ => it end.

Definition complete_children (h : hierarchy) : list hierarchy :=
  match h with Node _ _ cs => cs end.

(** A loop that appends the result of [f] for each element. *)
Fixpoint for_all {A B} (f : A → res B) (xs : list A) : res (list B) :=
  match xs with
  | [] => Ok []
  | x :: xs' => y ← f x; ys ← for_all f xs'; Ok (y :: ys)
  end.

(** [build_complete_hierarchy]; [limit] is the number of nested calls
    the interpreter still allows. *)
Fixpoint build_complete_hierarchy (limit : nat) (items : list (nat * item))
  (root_idx : nat) : res hierarchy :=
  match limit with
  | O => Raise RecursionError
  | S limit' =>
      root_item ← get items root_idx;
      complete_children ←
        for_all (build_complete_hierarchy limit' items) (children root_item);
      Ok (Node root_idx root_item complete_children)
  end.

(** The third pass of [build_hierarchy_map]: the hierarchies of the
    level-1 items, in the order of the dict. *)
Definition third_pass (limit : nat) (items : list (nat * item))
  : res (list (nat * hierarchy)) :=
  for_all (λ e, h ← build_complete_hierarchy limit items (fst e); Ok (fst e, h))
          (filter (λ e, level (snd e) = 1%Z) items).

Definition build_hierarchy_map (limit : nat) (df : list raw_row)
  : res (list (nat * hierarchy)) :=
  items ← first_pass df;
  third_pass limit (second_pass items).

(** The cells [write_hierarchy_to_bom] writes in one worksheet row:
    columns E, N, O and P; column L is not written. *)
Record bom_cells :=
  { bE : string; bN : string; bO : cell; bP : string }.

(** A written row with the keys of the dicts it was written from. *)
Definition bom_row : Type := origin * bom_cells.

Definition material_cells (p : item) : bom_cells :=
  {| bE := art_nr p; bN := EmptyString; bO := CStr EmptyString;
     bP := EmptyString |}.

Definition component_cells (p c : item) : bom_cells :=
  {| bE := art_nr p; bN := art_nr c; bO := quantity c; bP := unit c |}.

(** [write_hierarchy_to_bom]: the rows in the order written. It nests
    no deeper than [build_complete_hierarchy] did for the same
    hierarchy. *)
Fixpoint write_hierarchy_to_bom (h : hierarchy) : list bom_row :=
  match h with
  | Node idx it cs =>
      (Material idx, material_cells it) ::
      map (λ child, (Component idx (index child),
                     component_cells it (node child))) cs ++
      flat_map (λ child,
                  match child with
                  | Node _ _ [] => []
                  | Node _ _ (_ :: _) => write_hierarchy_to_bom child
                  end) cs
  end.

(** The loop that analyses the level distribution before the hierarchy
    map is built: it reads every level cell that is not blank. *)
Fixpoint levels_found (rows : list raw_row) : res (list Z) :=
  match rows with
  | [] => Ok []
  | row :: rows' =>
      if isna (cellA row) then levels_found rows'
      else l ← Py.int (cellA row); ls ← levels_found rows'; Ok (l :: ls)
  end.

(** [process_aptive_to_bom_optimized] on the data frame: the rows
    written, the k-th to worksheet row [start_row + k], and the final
    [current_row]. *)
Definition process_aptive_to_bom_optimized (limit : nat) (df : list raw_row)
  (start_row : Z) : res (list bom_row * Z) :=
  _ ← levels_found (tail df);
  hierarchy_map ← build_hierarchy_map limit df;
  let ws := flat_map (λ e, write_hierarchy_to_bom (snd e)) hierarchy_map in
  Ok (ws, (start_row + Z.of_nat (length ws))%Z).

End Optimized.

(** ** universal_processor.py *)

Module Universal.

(** [str(int(row.iloc[1])) if not pd.isna(row.iloc[1]) else ""] *)
Definition art_nr_of (row : raw_row) : res string :=
  if isna (cellB row) then Ok EmptyString
  else z ← Py.int (cellB row); Ok (str_of_int z).

(** [str(row.iloc[3]).upper() if not pd.isna(row.iloc[3]) else ""] *)
Definition unit_of (row : raw_row) : string :=
  if isna (cellD row) then EmptyString else upper (str (cellD row)).

(** [row.iloc[4] if not pd.isna(row.iloc[4]) else ""] *)
Definition quantity_of (row : raw_row) : cell :=
  if isna (cellE row) then CStr EmptyString else cellE row.

(** The first loop of [process_child_levels], from index [i] on: [rest]
    is [df[i:]]; a blank level cell ends the loop. *)
Fixpoint find_children (parent_level : Z) (i : nat) (rest : list raw_row)
  : res (list nat) :=
  match rest with
  | [] => Ok []
  | row :: rest' =>
      if isna (cellA row) then Ok []
      else
        row_level ← Py.int (cellA row);
        if (row_level =? parent_level + 1)%Z
        then child_items ← find_children parent_level (S i) rest'; Ok (i :: child_items)
        else if (row_level <=? parent_level)%Z then Ok []
        else find_children parent_level (S i) rest'
  end.

(** The loop that sets [has_grandchildren]: [rest] is
    [df[child_index + 1:]]. *)
Fixpoint has_grandchildren (child_level : Z) (rest : list raw_row) : res bool :=
  match rest with
  | [] => Ok false
  | row :: rest' =>
      if isna (cellA row) then Ok false
      else
        l ← Py.int (cellA row);
        if (l =? child_level + 1)%Z then Ok true
        else if (l <=? child_level)%Z then Ok false
        else has_grandchildren child_level rest'
  end.

(** The last loop of [process_child_levels]: [rest] is
    [df[next_index:]]. *)
Fixpoint find_next_index (parent_level : Z) (next_index : nat) (rest : list raw_row)
  : res nat :=
  match rest with
  | [] => Ok next_index
  | row :: rest' =>
      if isna (cellA row) then Ok next_index
      else
        l ← Py.int (cellA row);
        if (l <=? parent_level)%Z then Ok next_index
        else find_next_index parent_level (S next_index) rest'
  end.

Definition material_cells (art_nr : string) : Optimized.bom_cells :=
  {| Optimized.bE := art_nr; Optimized.bN := EmptyString;
     Optimized.bO := CStr EmptyString; Optimized.bP := EmptyString |}.

(** The body of the first [for child_index in child_items]. *)
Definition write_child (df : list raw_row) (parent_index : nat)
  (parent_art_nr : string) (child_index : nat) : res Optimized.bom_row :=
  child_row ← deref df child_index;
  child_art_nr ← art_nr_of child_row;
  Ok (Component parent_index child_index,
      {| Optimized.bE := parent_art_nr; Optimized.bN := child_art_nr;
         Optimized.bO := quantity_of child_row; Optimized.bP := unit_of child_row |}).

(** [process_child_levels]: the rows written, in order, and
    [next_index]; [limit] is the number of nested calls the interpreter
    still allows. *)
Fixpoint process_child_levels (limit : nat) (df : list raw_row)
  (parent_index : nat) (parent_level : Z) (parent_art_nr : string)
  : res (list Optimized.bom_row * nat) :=
  match limit with
  | O => Raise RecursionError
  | S limit' =>
      child_items ←
        find_children parent_level (S parent_index) (drop (S parent_index) df);
      comps ← Optimized.for_all (write_child df parent_index parent_art_nr) child_items;
      deeper ←
        Optimized.for_all
          (λ child_index,
             child_row ← deref df child_index;
             child_art_nr ← art_nr_of child_row;
             grandchildren ←
               has_grandchildren (parent_level + 1) (drop (S child_index) df);
             if grandchildren : bool
             then
               r ← process_child_levels limit' df child_index (parent_level + 1)
                     child_art_nr;
               Ok ((Material child_index, material_cells child_art_nr) :: fst r)
             else Ok [])
          child_items;
      next_index ←
        find_next_index parent_level (S parent_index) (drop (S parent_index) df);
      Ok (comps ++ concat deeper, next_index)
  end.

(** The loop of [process_hierarchy_recursive] at index [i], [rest] being
    [df[i:]]: [i = next_index] moves [i] forward, the rows before
    [next_index] are passed over. The result is the rows written and
    [processed_groups]. *)
Fixpoint main_loop (limit : nat) (df : list raw_row) (i : nat)
  (rest : list raw_row) (next_index : nat) : res (list Optimized.bom_row * nat) :=
  match rest with
  | [] => Ok ([], 0)
  | row :: rest' =>
      if i <? next_index then main_loop limit df (S i) rest' next_index
      else if isna (cellA row) then main_loop limit df (S i) rest' next_index
      else
        level ← Py.int (cellA row);
        if (level =? 1)%Z
        then
          art_nr1 ← art_nr_of row;
          r ← process_child_levels limit df i level art_nr1;
          rs ← main_loop limit df (S i) rest' (snd r);
          Ok ((Material i, material_cells art_nr1) :: fst r ++ fst rs, S (snd rs))
        else main_loop limit df (S i) rest' next_index
  end.

(** [process_hierarchy_recursive]: the rows written, the k-th to
    worksheet row [start_row + k], and the returned [processed_groups]. *)
Definition process_hierarchy_recursive (limit : nat) (df : list raw_row)
  : res (list Optimized.bom_row * nat) :=
  main_loop limit df 1 (drop 1 df) 0.

End Universal.

(** ** final_processor.py *)

Module Final.

(** The dict appended to [group_items] by [process_level_group]. *)
Record group_item :=
  { g_index : nat; g_level : Z; g_art_nr : string; g_unit : string;
    g_quantity : cell }.

(** [parent_mapping], a [defaultdict(list)] keyed by the material: its
    entries in insertion order. *)
Definition parent_dict : Type := list (string * list group_item).

(** [parent_mapping[parent_material].append(child_item)]: a new key goes
    to the end. *)
Fixpoint append_to (parent_mapping : parent_dict) (parent_material : string)
  (child_item : group_item) : parent_dict :=
  match parent_mapping with
  | [] => [(parent_material, [child_item])]
  | (k, v) :: rest =>
      if String.eqb k parent_material then (k, v ++ [child_item]) :: rest
      else (k, v) :: append_to rest parent_material child_item
  end.

(** The loop [for i, child_item in enumerate(child_items)], from
    position [i] on. *)
Fixpoint assign_loop (parent_materials : list string) (items_per_parent : nat)
  (i : nat) (child_items : list group_item) (current_parent_idx : nat)
  (parent_mapping : parent_dict) : parent_dict :=
  match child_items with
  | [] => parent_mapping
  | child_item :: rest =>
      let current_parent_idx :=
        if ((0 <? i) && (i mod items_per_parent =? 0) &&
            (Z.of_nat current_parent_idx <? Z.of_nat (length parent_materials) - 1)%Z)%bool
        then S current_parent_idx else current_parent_idx in
      let parent_mapping :=
        match parent_materials !! current_parent_idx with
        | Some parent_material => append_to parent_mapping parent_material child_item
        | None => parent_mapping
        end in
      assign_loop parent_materials items_per_parent (S i) rest current_parent_idx
        parent_mapping
  end.

(** [assign_items_to_parents] *)
Definition assign_items_to_parents (all_items child_items : list group_item)
  (parent_materials : list string) : parent_dict :=
  let items_per_parent :=
    Nat.max 1 (length child_items / Nat.max 1 (length parent_materials)) in
  let parent_mapping :=
    assign_loop parent_materials items_per_parent 0 child_items 0 [] in
  match parent_mapping, parent_materials with
  | [], first :: _ =>
      foldl (λ m child_item, append_to m first child_item) parent_mapping child_items
  | _, _ => parent_mapping
  end.

End Final.

(** ** Vocabulary of the statements *)

(** One turn of a loop that replaces the [i]-th element of a list by
    [upd i x rest], where [x] is that element and [rest] the elements
    after it. Both link loops are of this form. *)
Definition update_at {A} (upd : nat → A → list A → A) (cur : list A) (i : nat)
  : list A :=
  match cur !! i with
  | Some x => <[i := upd i x (drop (S i) cur)]> cur
  | None => cur
  end.

(** What such a loop over all positions ends with, written in one piece. *)
Definition updated {A} (upd : nat → A → list A → A) (items : list A) : list A :=
  imap (λ i x, upd i x (drop (S i) items)) items.

(** The update of [Sequential.link_item]. *)
Definition seq_upd (i : nat) (it : item) (rest : list item) : item :=
  append_children it (Sequential.find_children (level it) (S i) rest).

(** The update of [Optimized.link_item]. *)
Definition opt_upd (i : nat) (e : nat * item) (rest : list (nat * item))
  : nat * item :=
  (fst e, append_children (snd e) (Optimized.find_children (level (snd e)) rest)).

(** The store the link loop of [build_hierarchy_structure] ends with. *)
Definition linked (items : list item) : list item := updated seq_upd items.

(** Level and children of the dict behind a reference. *)
Definition lev (items : list item) (i : nat) : Z :=
  default 0%Z (level <$> items !! i).

Definition kids (items : list item) (i : nat) : list nat :=
  default [] (children <$> items !! i).

(** [open_parent items p c]: [p] is the record before [c] that is one level
    above it with only deeper records in between. *)
Definition open_parent (items : list item) (p c : nat) : Prop :=
  p < c ∧ c < length items ∧ lev items c = (lev items p + 1)%Z ∧
  ∀ k, p < k → k < c → (lev items p < lev items k)%Z.

(** The store built from a record sequence. *)
Definition store_of (records : list level_record) : list item :=
  fst (Sequential.build records).

Definition roots_of (records : list level_record) : list nat :=
  snd (Sequential.build records).

(** [desc items p q]: [q] is [p] or is reached from [p] through children. *)
Inductive desc (items : list item) : nat → nat → Prop :=
| desc_refl p : desc items p p
| desc_child p c q : c ∈ kids items p → desc items c q → desc items p q.

(** The dict a row is written for: the material of the row. *)
Definition parent_ref (w : written) : nat :=
  match fst w with
  | Material p => p
  | Component p _ => p
  end.

(** The rows of one material: its header and its component rows. *)
Definition block (items : list item) (q : nat) : res (list written) :=
  m ← Sequential.write_material items q;
  comps ← Sequential.write_components items q (kids items q) 10;
  Ok (m :: comps).

(** [emits items always p q]: in the rows written for [p], the dict [q]
    gets a block: it has children, or it is [p] and the header of [p] is
    written unconditionally ([always]). *)
Definition emits (items : list item) (always : bool) (p q : nat) : Prop :=
  (always = true ∧ q = p) ∨ kids items q ≠ [].

(** [covers items always p ws]: the rows [ws] are those of the materials
    below [p]: every descendant of [p] that [emits] has its block in
    [ws], in order, and nothing else is there. *)
Definition covers (items : list item) (always : bool) (p : nat)
  (ws : list written) : Prop :=
  (∀ w, w ∈ ws → desc items p (parent_ref w) ∧ emits items always p (parent_ref w)) ∧
  (∀ q, desc items p q → emits items always p q →
        block items q = Ok (filter (λ w, parent_ref w = q) ws)).

(** [in_forest records q]: the dict [q] is a root or below a root. *)
Definition in_forest (records : list level_record) (q : nat) : Prop :=
  ∃ r, r ∈ roots_of records ∧ desc (store_of records) r q.

(** Records for the scenarios. *)

Definition with_level (l : Z) (r : level_record) : level_record :=
  {| r_level := l; r_art_nr := r_art_nr r; r_unit := r_unit r;
     r_quantity := r_quantity r |}.

Definition levelled (levels : list Z) (rs : list level_record) : list level_record :=
  zip_with with_level levels rs.

(** The header row of [p] and the row of the component [c] of [p]. *)
Definition Header (p : level_record) : Row :=
  {| colE := r_art_nr p; colL := EmptyString; colN := EmptyString;
     colO := CStr EmptyString; colP := EmptyString |}.

Definition Comp (p c : level_record) (item_number : string) : Row :=
  {| colE := r_art_nr p; colL := item_number; colN := r_art_nr c;
     colO := r_quantity c; colP := r_unit c |}.

Definition plain (name : string) : level_record :=
  {| r_level := 0; r_art_nr := name; r_unit := "PC"; r_quantity := CInt 1 |}.

(** The ordering contract: a component row of [p] is written before every
    row whose material is a child of [p]. *)
Definition siblings_first (items : list item) (ws : list written) : Prop :=
  ∀ i j wi wj p c,
    ws !! i = Some wi → ws !! j = Some wj →
    fst wi = Component p c → parent_ref wj ∈ kids items p → i < j.

(** Text predicates. *)

Fixpoint all_digits (s : string) : bool :=
  match s with
  | EmptyString => true
  | String c s' => is_digit c && all_digits s'
  end.









(** ** Vocabulary of the further properties *)

(** A level progression as the builder expects it: it starts at level 1,
    no level is below 1 and no level is more than one above the level
    before it. *)
Fixpoint steps_ok (prev : Z) (levels : list Z) : bool :=
  match levels with
  | [] => true
  | l :: levels' => (1 <=? l)%Z && (l <=? prev + 1)%Z && steps_ok l levels'
  end.

Definition well_formed (levels : list Z) : bool :=
  match levels with
  | [] => true
  | l :: levels' => (l =? 1)%Z && steps_ok 1 levels'
  end.

(** A record sequence with a branch restart, a chain down to level 5, a
    second level-2 branch and a second root, and the rows written for
    it. *)
Definition demo_records : list level_record :=
  levelled [1; 2; 3; 4; 5; 4; 2; 1]%Z
    [plain "A"; plain "B"; plain "C"; plain "D"; plain "E"; plain "F";
     plain "G"; plain "H"].

Definition demo_rows : list written :=
  Eval vm_compute in
    match Sequential.process_records 8 demo_records 9 with
    | Ok (ws, _) => ws
    | Raise _ => []
    end.

(** [child_first items p ws]: in [ws] no row whose material is a child of
    [p] is followed by a component row of [p]. *)
Fixpoint child_first (items : list item) (p : nat) (ws : list written) : Prop :=
  match ws with
  | [] => True
  | w :: ws' =>
      (parent_ref w ∈ kids items p →
       ∀ w', w' ∈ ws' → is_component_of p w' = false) ∧
      child_first items p ws'
  end.

(** A record sequence that stays within four levels: the level-3 record
    has two children and none of them has a child. *)
Definition shallow_records : list level_record :=
  levelled [1; 2; 3; 4; 4; 2; 1]%Z
    [plain "A"; plain "B"; plain "C"; plain "D"; plain "E"; plain "F";
     plain "G"].

Definition shallow_rows : list written :=
  Eval vm_compute in
    match Sequential.process_records 7 shallow_records 9 with
    | Ok (ws, _) => ws
    | Raise _ => []
    end.

(** The data-frame index under which [build_hierarchy_map] keeps the
    record at position [p] of its dict. *)
Definition key_of (ents : list (nat * item)) (p : nat) : nat :=
  default 0 (fst <$> ents !! p).

(** A dict of [build_hierarchy_structure] with the references in its
    children list replaced by the keys of [build_hierarchy_map]. *)
Definition rekey (ents : list (nat * item)) (it : item) : item :=
  {| level := level it; art_nr := art_nr it; unit := unit it;
     quantity := quantity it; children := key_of ents <$> children it |}.







(** The cells of a row of [write_hierarchy_ordered] that
    [write_hierarchy_to_bom] writes too: all but the item number. *)
Definition cells_ENOP (r : Row) : Optimized.bom_cells :=
  {| Optimized.bE := colE r; Optimized.bN := colN r; Optimized.bO := colO r;
     Optimized.bP := colP r |}.

(** A row of [write_hierarchy_ordered] as [write_hierarchy_to_bom] writes
    it: under the keys of the dicts, without the item number. *)
Definition retag (ents : list (nat * item)) (w : written) : Optimized.bom_row :=
  (match fst w with
   | Material p => Material (key_of ents p)
   | Component p c => Component (key_of ents p) (key_of ents c)
   end, cells_ENOP (snd w)).

(** The key of the material of a row of [write_hierarchy_to_bom]. *)
Definition material_key (w : Optimized.bom_row) : nat :=
  match fst w with
  | Material p => p
  | Component p _ => p
  end.

(** The hierarchy dict of the dict at position [p] of the store, down
    to depth [fuel]. *)
Fixpoint tree_at (items : list item) (ents : list (nat * item)) (fuel : nat)
  (p : nat) : Optimized.hierarchy :=
  let it := rekey ents (default (new_item (Build_level_record 0 EmptyString EmptyString NaN))
                                (items !! p)) in
  match fuel with
  | O => Optimized.Node (key_of ents p) it []
  | S fuel' =>
      Optimized.Node (key_of ents p) it (tree_at items ents fuel' <$> kids items p)
  end.

(** [ordered_group items limit r g]: [g] is the header row of [r], the
    component rows of its children, and then what [write_deeper_levels]
    writes for each child. *)
Definition ordered_group (items : list item) (limit : nat) (r : nat)
  (g : list written) : Prop :=
  ∃ m comps deeper,
    g = m :: comps ++ deeper ∧
    Sequential.write_material items r = Ok m ∧
    Sequential.write_components items r (kids items r) 10 = Ok comps ∧
    Sequential.for_each (Sequential.write_deeper_levels items limit) (kids items r)
      = Ok deeper.

(** A data frame with the levels of [demo_records], and one that stays
    within four levels. *)
Definition data_row (l art : Z) : raw_row :=
  {| cellA := CInt l; cellB := CInt art; cellD := CStr "pc"; cellE := CInt 1 |}.

Definition head_row : raw_row :=
  {| cellA := CStr "Szint"; cellB := CStr "Art"; cellD := CStr "ME"; cellE := CStr "Menny" |}.

Definition demo_df : list raw_row :=
  head_row :: zip_with data_row [1; 2; 3; 4; 5; 4; 2; 1]%Z
                [100; 200; 300; 400; 500; 410; 210; 110]%Z.


Definition demo_ents : list (nat * item) :=
  Eval vm_compute in
    match Optimized.first_pass demo_df with
    | Ok ents => ents
    | Raise _ => []
    end.





(** The children kept under a material in [parent_mapping]. *)
Fixpoint mapping_get (parent_mapping : Final.parent_dict) (key : string)
  : list Final.group_item :=
  match parent_mapping with
  | [] => []
  | (k, v) :: rest => if String.eqb k key then v else mapping_get rest key
  end.

(** The position, among [n] parents, of the parent of the child at
    position [i] when each parent gets [per_parent] children and the last
    parent the rest. *)
Definition parent_position (n per_parent i : nat) : nat :=
  Nat.min (i / per_parent) (n - 1).

(** Whether [key] is the material at position [pos] of
    [parent_materials]. *)
Definition parent_is (parent_materials : list string) (pos : nat) (key : string)
  : bool :=
  match parent_materials !! pos with
  | Some k => String.eqb k key
  | None => false
  end.

(** The children, from position [i] on, whose parent by position is the
    material [key]. *)
Definition assigned_to (parent_materials : list string) (per_parent : nat)
  (key : string) (i : nat) (child_items : list Final.group_item)
  : list Final.group_item :=
  snd <$> filter (λ ic, parent_is parent_materials
                          (parent_position (length parent_materials) per_parent (fst ic))
                          key = true)
                 (imap (λ j c, (i + j, c)) child_items).

(** * Properties *)

(** ** The link loops *)

Section UpdateLoop.
Context {A : Type} (upd : nat → A → list A → A).
Variable items : list A.

Lemma length_updated : length (updated upd items) = length items.
Proof. unfold updated. apply length_imap. Qed.

Lemma updated_lookup i :
  updated upd items !! i = (λ x, upd i x (drop (S i) items)) <$> items !! i.
Proof. unfold updated. apply list_lookup_imap. Qed.

Lemma update_at_step a x :
  items !! a = Some x →
  update_at upd (take a (updated upd items) ++ drop a items) a =
  take (S a) (updated upd items) ++ drop (S a) items.
Proof.
  intros Ha.
  assert (Hlt : a < length items) by (eapply lookup_lt_Some; eauto).
  assert (Hlen : length (take a (updated upd items)) = a).
  { rewrite length_take, length_updated. lia. }
  unfold update_at.
  rewrite lookup_app_r by lia.
  rewrite Hlen, Nat.sub_diag, lookup_drop, Nat.add_0_r, Ha.
  rewrite drop_app_ge by lia.
  rewrite Hlen, drop_drop.
  replace (a + (S a - a)) with (S a) by lia.
  rewrite insert_app_r_alt by lia.
  rewrite Hlen, Nat.sub_diag.
  rewrite (drop_S items x a Ha). simpl.
  erewrite (take_S_r (updated upd items) a);
    [ | rewrite updated_lookup, Ha; reflexivity ].
  rewrite <- app_assoc. reflexivity.
Qed.

Lemma update_loop_from k : ∀ a,
  a + k = length items →
  foldl (update_at upd) (take a (updated upd items) ++ drop a items) (seq a k) =
  updated upd items.
Proof.
  induction k as [ | k IH ]; intros a Hak; simpl.
  - rewrite drop_ge, app_nil_r by lia.
    apply take_ge. rewrite length_updated. lia.
  - destruct (lookup_lt_is_Some_2 items a) as [x Hx]; [ lia | ].
    rewrite (update_at_step a x Hx).
    apply IH. lia.
Qed.

Lemma update_loop :
  foldl (update_at upd) items (seq 0 (length items)) = updated upd items.
Proof. rewrite <- (update_loop_from (length items) 0) by lia. reflexivity. Qed.
End UpdateLoop.

Section LinkLoop.
Variable items : list item.

Lemma length_linked : length (linked items) = length items.
Proof. apply length_updated. Qed.

Lemma linked_lookup i :
  linked items !! i =
  (λ it, append_children it
           (Sequential.find_children (level it) (S i) (drop (S i) items)))
    <$> items !! i.
Proof. exact (updated_lookup seq_upd items i). Qed.

(** The loop computes [linked]. *)
Lemma link_linked : Sequential.link items = linked items.
Proof. exact (update_loop seq_upd items). Qed.
End LinkLoop.

Section FindChildren.

Lemma find_children_spec L rest : ∀ j c,
  c ∈ Sequential.find_children L j rest ↔
  j ≤ c ∧ (∃ it, rest !! (c - j) = Some it ∧ level it = (L + 1)%Z) ∧
  ∀ k it, k < c - j → rest !! k = Some it → (L < level it)%Z.
Proof.
  induction rest as [ | it0 rest IH ]; intros j c; simpl.
  - split; [ intros H; inversion H | intros (_ & (it & H & _) & _); discriminate ].
  - destruct (Z.eqb_spec (level it0) (L + 1)) as [Heq | Hne].
    + rewrite elem_of_cons, IH. split.
      * intros [-> | (Hle & (it & Hit & Hlv) & Hbelow)].
        -- split; [ lia | ]. rewrite Nat.sub_diag. split; [ eauto | ].
           intros k it Hk. lia.
        -- split; [ lia | ].
           replace (c - j) with (S (c - S j)) by lia. split; [ eauto | ].
           intros [ | k ] it' Hk Hit'; simpl in Hit'.
           ++ inversion Hit'; subst. lia.
           ++ eapply Hbelow; [ | eauto ]. lia.
      * intros (Hle & (it & Hit & Hlv) & Hbelow).
        destruct (decide (c = j)) as [-> | Hcj]; [ by left | right ].
        split; [ lia | ].
        replace (c - j) with (S (c - S j)) in * by lia. simpl in Hit.
        split; [ eauto | ].
        intros k it' Hk Hit'. apply (Hbelow (S k)); [ lia | done ].
    + destruct (Z.leb_spec (level it0) L) as [Hle0 | Hgt0].
      * split; [ intros H; inversion H | ].
        intros (Hle & (it & Hit & Hlv) & Hbelow).
        destruct (decide (c = j)) as [-> | Hcj].
        -- rewrite Nat.sub_diag in Hit. simpl in Hit. inversion Hit; subst. lia.
        -- specialize (Hbelow 0 it0). simpl in Hbelow.
           assert (L < level it0)%Z by (apply Hbelow; [ lia | done ]). lia.
      * rewrite IH. split.
        -- intros (Hle & (it & Hit & Hlv) & Hbelow).
           split; [ lia | ].
           replace (c - j) with (S (c - S j)) by lia. split; [ eauto | ].
           intros [ | k ] it' Hk Hit'; simpl in Hit'.
           ++ inversion Hit'; subst. lia.
           ++ eapply Hbelow; [ | eauto ]. lia.
        -- intros (Hle & (it & Hit & Hlv) & Hbelow).
           destruct (decide (c = j)) as [-> | Hcj].
           { rewrite Nat.sub_diag in Hit. simpl in Hit. inversion Hit; subst. lia. }
           split; [ lia | ].
           replace (c - j) with (S (c - S j)) in * by lia. simpl in Hit.
           split; [ eauto | ].
           intros k it' Hk Hit'. apply (Hbelow (S k)); [ lia | done ].
Qed.

Lemma find_children_lb L rest : ∀ j,
  Forall (λ c, j ≤ c) (Sequential.find_children L j rest).
Proof.
  intros j. apply Forall_forall. intros c Hc.
  apply find_children_spec in Hc. lia.
Qed.

Lemma find_children_NoDup L rest : ∀ j,
  NoDup (Sequential.find_children L j rest).
Proof.
  induction rest as [ | it0 rest IH ]; intros j; simpl.
  - constructor.
  - destruct (level it0 =? L + 1)%Z.
    + constructor; [ | apply IH ].
      intros Hin.
      pose proof (find_children_lb L rest (S j)) as Hlb.
      rewrite Forall_forall in Hlb. apply Hlb in Hin. lia.
    + destruct (level it0 <=? L)%Z; [ constructor | apply IH ].
Qed.

End FindChildren.

Section Store.
Variable records : list level_record.
Local Abbreviation items := (store_of records).

Lemma store_of_linked : items = linked (new_item <$> records).
Proof. unfold items, store_of, Sequential.build. simpl. apply link_linked. Qed.

Lemma store_length : length items = length records.
Proof. rewrite store_of_linked, length_linked. apply length_fmap. Qed.

Lemma store_lookup i :
  items !! i =
  (λ r, append_children (new_item r)
          (Sequential.find_children (r_level r) (S i)
             (drop (S i) (new_item <$> records)))) <$> records !! i.
Proof.
  rewrite store_of_linked, linked_lookup, list_lookup_fmap.
  destruct (records !! i); reflexivity.
Qed.

Lemma lev_store i : lev items i = default 0%Z (r_level <$> records !! i).
Proof. unfold lev. rewrite store_lookup. destruct (records !! i); reflexivity. Qed.

(** The children of a dict are exactly the records it is the open parent
    of. *)
Lemma kids_open_parent p c : c ∈ kids items p ↔ open_parent items p c.
Proof.
  unfold kids, open_parent. rewrite store_lookup, store_length.
  destruct (records !! p) as [r | ] eqn:Hp; simpl.
  - rewrite find_children_spec.
    assert (Hlp : lev items p = r_level r) by (rewrite lev_store, Hp; done).
    rewrite Hlp.
    assert (Hk : ∀ k, drop (S p) (new_item <$> records) !! k
                      = new_item <$> records !! (S p + k)).
    { intros k. rewrite lookup_drop, list_lookup_fmap. done. }
    split.
    + intros (Hle & (it & Hit & Hlv) & Hbelow).
      rewrite Hk in Hit. replace (S p + (c - S p)) with c in Hit by lia.
      destruct (records !! c) as [rc | ] eqn:Hc; [ | discriminate ].
      simpl in Hit. inversion Hit; subst it. simpl in Hlv.
      split; [ lia | ]. split; [ eapply lookup_lt_Some; eauto | ].
      split; [ rewrite lev_store, Hc; done | ].
      intros k Hpk Hkc.
      destruct (lookup_lt_is_Some_2 records k) as [rk Hrk].
      { apply lookup_lt_Some in Hc. lia. }
      rewrite lev_store, Hrk. simpl.
      apply (Hbelow (k - S p) (new_item rk)); [ lia | ].
      rewrite Hk. replace (S p + (k - S p)) with k by lia. rewrite Hrk. done.
    + intros (Hpc & Hcn & Hlv & Hbelow).
      destruct (lookup_lt_is_Some_2 records c Hcn) as [rc Hc].
      rewrite lev_store, Hc in Hlv. simpl in Hlv.
      split; [ lia | ]. split.
      * exists (new_item rc). rewrite Hk.
        replace (S p + (c - S p)) with c by lia. rewrite Hc. done.
      * intros k it Hkc Hit. rewrite Hk in Hit.
        destruct (records !! (S p + k)) as [rk | ] eqn:Hrk; [ | discriminate ].
        simpl in Hit. inversion Hit; subst it. simpl.
        specialize (Hbelow (S p + k)). rewrite lev_store, Hrk in Hbelow.
        simpl in Hbelow. apply Hbelow; lia.
  - split; [ intros H; inversion H | ].
    intros (Hpc & Hcn & _). apply lookup_ge_None in Hp. lia.
Qed.

Lemma kids_NoDup p : NoDup (kids items p).
Proof.
  unfold kids. rewrite store_lookup.
  destruct (records !! p) as [r | ]; simpl; [ | constructor ].
  apply find_children_NoDup.
Qed.

End Store.

Section Descendants.
Variable records : list level_record.
Local Abbreviation items := (store_of records).

Lemma kid_gt p c : c ∈ kids items p → p < c.
Proof. intros H. apply kids_open_parent in H. destruct H. lia. Qed.

Lemma kid_lt_length p c : c ∈ kids items p → c < length items.
Proof.
  intros H. apply kids_open_parent in H. destruct H as (_ & H & _). exact H.
Qed.

Lemma kid_level p c : c ∈ kids items p → lev items c = (lev items p + 1)%Z.
Proof. intros H. apply kids_open_parent in H. destruct H as (_ & _ & H & _). exact H. Qed.

Lemma desc_between p q :
  desc items p q →
  p ≤ q ∧ ∀ k, p < k → k ≤ q → (lev items p < lev items k)%Z.
Proof.
  induction 1 as [ p | p c q Hc Hd [IHle IHlv] ].
  - split; [ lia | intros; lia ].
  - pose proof (kid_gt _ _ Hc) as Hpc.
    pose proof (kid_level _ _ Hc) as Hlc.
    apply kids_open_parent in Hc. destruct Hc as (_ & _ & _ & Hb).
    split; [ lia | ].
    intros k Hpk Hkq.
    destruct (decide (k < c)) as [Hkc | Hkc]; [ by apply Hb | ].
    destruct (decide (k = c)) as [-> | Hne]; [ lia | ].
    assert (lev items c < lev items k)%Z by (apply IHlv; lia). lia.
Qed.

(** Two records of the same level have no common descendant. *)
Lemma desc_same_level r r' q :
  desc items r q → desc items r' q → lev items r = lev items r' → r = r'.
Proof.
  intros H1 H2 Hl.
  apply desc_between in H1. apply desc_between in H2.
  destruct H1 as [Hle1 Hb1]. destruct H2 as [Hle2 Hb2].
  destruct (Nat.lt_trichotomy r r') as [Hlt | [Heq | Hgt]]; [ | done | ].
  - specialize (Hb1 r' Hlt Hle2). lia.
  - specialize (Hb2 r Hgt Hle1). lia.
Qed.

Lemma desc_inv p q :
  desc items p q → q = p ∨ ∃ c, c ∈ kids items p ∧ desc items c q.
Proof. destruct 1; [ by left | right; eauto ]. Qed.

Lemma desc_kid_ne p c q : c ∈ kids items p → desc items c q → q ≠ p.
Proof.
  intros Hc Hd. apply kid_gt in Hc. apply desc_between in Hd. lia.
Qed.

Lemma kids_same_level p c c' :
  c ∈ kids items p → c' ∈ kids items p → lev items c = lev items c'.
Proof. intros H H'. rewrite (kid_level _ _ H), (kid_level _ _ H'). done. Qed.

(** No dict is the child of two dicts. *)
Lemma kid_unique_parent p p' c :
  c ∈ kids items p → c ∈ kids items p' → p = p'.
Proof.
  intros H H'.
  pose proof (kid_level _ _ H) as Hl. pose proof (kid_level _ _ H') as Hl'.
  apply (desc_same_level p p' c).
  - eapply desc_child; [ exact H | constructor ].
  - eapply desc_child; [ exact H' | constructor ].
  - lia.
Qed.

End Descendants.

(** ** The writer, loop by loop *)

Lemma bind_Ok {A B} (m : res A) (f : A → res B) b :
  m ≫= f = Ok b → ∃ a, m = Ok a ∧ f a = Ok b.
Proof. destruct m as [a | e]; simpl; [ eauto | discriminate ]. Qed.

Ltac bind_inv H :=
  let a := fresh "a" in
  let Ha := fresh "Ha" in
  apply bind_Ok in H; destruct H as (a & Ha & H).

Lemma filter_all {A} (P : A → Prop) `{∀ x, Decision (P x)} (l : list A) :
  (∀ x, x ∈ l → P x) → filter P l = l.
Proof.
  induction l as [ | x l IH ]; intros Hall; [ done | ].
  rewrite filter_cons_True by (apply Hall; left).
  f_equal. apply IH. intros y Hy. apply Hall. by right.
Qed.

Lemma filter_none {A} (P : A → Prop) `{∀ x, Decision (P x)} (l : list A) :
  (∀ x, x ∈ l → ¬ P x) → filter P l = [].
Proof.
  induction l as [ | x l IH ]; intros Hall; [ done | ].
  rewrite filter_cons_False by (apply Hall; left).
  apply IH. intros y Hy. apply Hall. by right.
Qed.

Lemma filter_concat_none {A} (P : A → Prop) `{∀ x, Decision (P x)}
  (R : nat → list A → Prop) (cs : list nat) (blocks : list (list A)) :
  Forall2 R cs blocks →
  (∀ c b, c ∈ cs → R c b → filter P b = []) →
  filter P (concat blocks) = [].
Proof.
  induction 1 as [ | c0 b0 cs blocks HR HF IH ]; intros Hnone; [ done | ].
  simpl. rewrite filter_app.
  rewrite (Hnone c0 b0) by (done || by left).
  rewrite IH; [ done | ].
  intros c b Hc. apply Hnone. by right.
Qed.

(** Filtering the concatenation of the blocks of distinct references, when
    only the block of [c] can pass the filter. *)
Lemma filter_concat_one {A} (P : A → Prop) `{∀ x, Decision (P x)}
  (R : nat → list A → Prop) (cs : list nat) (blocks : list (list A)) (c : nat) :
  Forall2 R cs blocks → NoDup cs → c ∈ cs →
  (∀ c' b, c' ∈ cs → c' ≠ c → R c' b → filter P b = []) →
  ∃ b, R c b ∧ filter P (concat blocks) = filter P b.
Proof.
  induction 1 as [ | c0 b0 cs blocks HR HF IH ]; intros Hnd Hin Hother.
  - inversion Hin.
  - apply NoDup_cons in Hnd. destruct Hnd as [Hnotin Hnd].
    simpl. rewrite filter_app.
    destruct (decide (c0 = c)) as [-> | Hne].
    + exists b0. split; [ done | ].
      rewrite (filter_concat_none P R cs blocks HF), app_nil_r; [ done | ].
      intros c' b Hc' HR'. apply (Hother c' b); [ by right | | done ].
      intros ->. done.
    + apply elem_of_cons in Hin. destruct Hin as [-> | Hin]; [ done | ].
      destruct IH as (b & HRb & Hb); [ done | done | | ].
      { intros c' b Hc' Hne' HR'. eapply Hother; eauto. by right. }
      exists b. split; [ done | ].
      rewrite (Hother c0 b0) by (done || by left). done.
Qed.

Lemma elem_of_concat_Forall2 {A} (R : nat → list A → Prop) cs blocks w :
  Forall2 R cs blocks → w ∈ concat blocks → ∃ c b, c ∈ cs ∧ R c b ∧ w ∈ b.
Proof.
  induction 1 as [ | c0 b0 cs blocks HR HF IH ]; simpl; intros Hw.
  - inversion Hw.
  - apply elem_of_app in Hw. destruct Hw as [Hw | Hw].
    + exists c0, b0. split; [ by left | done ].
    + destruct (IH Hw) as (c & b & Hc & HRc & Hwb).
      exists c, b. split; [ by right | done ].
Qed.

Section Loops.
Variable items : list item.

Lemma for_each_Ok body xs ws :
  Sequential.for_each body xs = Ok ws →
  ∃ blocks, Forall2 (λ x b, body x = Ok b) xs blocks ∧ ws = concat blocks.
Proof.
  revert ws. induction xs as [ | x xs IH ]; simpl; intros ws H.
  - inversion H. exists []. split; [ constructor | done ].
  - bind_inv H. bind_inv H. inversion H; subst ws.
    destruct (IH _ Ha0) as (blocks & HF & ->).
    exists (a :: blocks). split; [ by constructor | done ].
Qed.

Lemma for_each_total body xs :
  Forall (λ x, ∃ b, body x = Ok b) xs → ∃ ws, Sequential.for_each body xs = Ok ws.
Proof.
  induction 1 as [ | x xs [b Hb] HF [ws IH] ]; simpl; [ eauto | ].
  rewrite Hb. simpl. rewrite IH. simpl. eauto.
Qed.

Lemma deref_Ok (p : nat) (it : item) : deref items p = Ok it ↔ items !! p = Some it.
Proof.
  unfold deref. destruct (items !! p); split; intros H; inversion H; done.
Qed.

Lemma write_material_Ok p m :
  Sequential.write_material items p = Ok m →
  ∃ pi, items !! p = Some pi ∧ m = (Material p, Sequential.material_row pi).
Proof.
  unfold Sequential.write_material. intros H. bind_inv H.
  apply deref_Ok in Ha. inversion H. eauto.
Qed.

Lemma children_of_Ok p cs :
  Sequential.children_of items p = Ok cs → p < length items ∧ cs = kids items p.
Proof.
  unfold Sequential.children_of, kids. intros H. bind_inv H.
  apply deref_Ok in Ha. inversion H. rewrite Ha. split; [ | done ].
  eapply lookup_lt_Some; eauto.
Qed.

(** Each component row is written from the parent and one child, with
    the running item number. *)
Lemma write_components_Ok p cs : ∀ n comps,
  Sequential.write_components items p cs n = Ok comps →
  length comps = length cs ∧
  ∀ k w, comps !! k = Some w →
    ∃ c pi ci, cs !! k = Some c ∧ items !! p = Some pi ∧ items !! c = Some ci ∧
      w = (Component p c,
           Sequential.component_row pi ci (n + 10 * Z.of_nat k)).
Proof.
  induction cs as [ | c cs IH ]; simpl; intros n comps H.
  - inversion H. split; [ done | ]. intros k w Hk. discriminate.
  - bind_inv H. bind_inv H. inversion H; subst comps.
    unfold Sequential.write_component in Ha. bind_inv Ha. bind_inv Ha.
    apply deref_Ok in Ha1, Ha2. inversion Ha; subst a.
    destruct (IH _ _ Ha0) as [Hlen Hrows].
    split; [ simpl; lia | ].
    intros [ | k ] w Hk; simpl in Hk.
    + inversion Hk; subst w. exists c, a1, a2.
      rewrite Z.mul_0_r, Z.add_0_r. done.
    + destruct (Hrows k w Hk) as (c' & pi & ci & Hc' & Hp & Hci & ->).
      exists c', pi, ci.
      replace (n + 10 * Z.of_nat (S k))%Z with (n + 10 + 10 * Z.of_nat k)%Z by lia.
      done.
Qed.

Lemma write_components_parent p cs n comps :
  Sequential.write_components items p cs n = Ok comps →
  ∀ w, w ∈ comps → parent_ref w = p.
Proof.
  intros H w Hw. apply write_components_Ok in H. destruct H as [_ H].
  apply list_elem_of_lookup in Hw. destruct Hw as [i Hi].
  destruct (H i w Hi) as (c & pi & ci & _ & _ & _ & ->). done.
Qed.

Lemma write_components_total p pi cs n :
  items !! p = Some pi → Forall (λ c, c < length items) cs →
  ∃ comps, Sequential.write_components items p cs n = Ok comps.
Proof.
  intros Hp HF. revert n.
  induction HF as [ | c cs Hc HF IH ]; intros n; simpl; [ eauto | ].
  destruct (lookup_lt_is_Some_2 items c Hc) as [ci Hci].
  unfold Sequential.write_component, deref. rewrite Hp, Hci. simpl.
  destruct (IH (n + 10)%Z) as [comps ->]. simpl. eauto.
Qed.

End Loops.

Section Covers.
Variable records : list level_record.
Local Abbreviation items := (store_of records).

Lemma covers_leaf p : kids items p = [] → covers items false p [].
Proof.
  intros Hk. split.
  - intros w Hw. inversion Hw.
  - intros q Hd He. exfalso.
    destruct He as [[Hf _] | He]; [ discriminate | ].
    apply desc_inv in Hd. destruct Hd as [-> | (c & Hc & _)]; [ done | ].
    rewrite Hk in Hc. inversion Hc.
Qed.

(** A material whose children's rows follow its own header and component
    rows. *)
Lemma covers_node always p m comps blocks :
  always = true ∨ kids items p ≠ [] →
  Sequential.write_material items p = Ok m →
  Sequential.write_components items p (kids items p) 10 = Ok comps →
  Forall2 (λ c b, covers items false c b) (kids items p) blocks →
  covers items always p (m :: comps ++ concat blocks).
Proof.
  intros Hal Hm Hcomps HF.
  assert (Hpm : parent_ref m = p).
  { apply write_material_Ok in Hm. destruct Hm as (pi & _ & ->). done. }
  pose proof (write_components_parent _ _ _ _ _ Hcomps) as Hpc.
  assert (Hself : emits items always p p).
  { destruct Hal as [-> | Hk]; [ by left | by right ]. }
  assert (Hblocks : ∀ c b w, c ∈ kids items p → covers items false c b → w ∈ b →
            desc items c (parent_ref w) ∧ kids items (parent_ref w) ≠ []).
  { intros c b w Hc [Ha _] Hw. destruct (Ha w Hw) as [Hd He].
    split; [ done | ]. destruct He as [[Hf _] | He]; [ discriminate | done ]. }
  split.
  - intros w Hw. apply elem_of_cons in Hw. destruct Hw as [-> | Hw].
    { rewrite Hpm. split; [ constructor | done ]. }
    apply elem_of_app in Hw. destruct Hw as [Hw | Hw].
    { rewrite (Hpc w Hw). split; [ constructor | done ]. }
    destruct (elem_of_concat_Forall2 _ _ _ _ HF Hw) as (c & b & Hc & Hcov & Hwb).
    destruct (Hblocks c b w Hc Hcov Hwb) as [Hd Hk].
    split; [ eapply desc_child; eauto | by right ].
  - intros q Hd He. apply desc_inv in Hd. destruct Hd as [-> | (c & Hc & Hd)].
    + rewrite filter_cons_True by done. rewrite filter_app.
      rewrite (filter_all _ comps) by done.
      rewrite (filter_concat_none _ _ _ _ HF), app_nil_r.
      * unfold block. rewrite Hm. simpl. rewrite Hcomps. done.
      * intros c b Hc Hcov. apply filter_none. intros w Hw Hq.
        destruct (Hblocks c b w Hc Hcov Hw) as [Hdw _].
        rewrite Hq in Hdw. eapply desc_kid_ne; eauto.
    + assert (Hqp : q ≠ p) by (eapply desc_kid_ne; eauto).
      assert (Hkq : kids items q ≠ []).
      { destruct He as [[_ ->] | He]; done. }
      rewrite filter_cons_False by (rewrite Hpm; done).
      rewrite filter_app.
      rewrite (filter_none _ comps) by (intros w Hw; rewrite (Hpc w Hw); done).
      simpl.
      destruct (filter_concat_one (λ w, parent_ref w = q) _ _ _ c HF)
        as (b & [_ Hb] & ->); [ apply kids_NoDup | done | | ].
      * intros c' b' Hc' Hne Hcov. apply filter_none. intros w Hw Hq.
        destruct (Hblocks c' b' w Hc' Hcov Hw) as [Hdw _].
        rewrite Hq in Hdw. apply Hne.
        eapply desc_same_level; eauto. eapply kids_same_level; eauto.
      * apply Hb; [ done | by right ].
Qed.

(** [covers] only looks at which rows are there and at the order of the
    rows of each material. *)
Lemma covers_rearranged always p ws ws' :
  covers items always p ws →
  (∀ w, w ∈ ws' ↔ w ∈ ws) →
  (∀ q, filter (λ w, parent_ref w = q) ws' = filter (λ w, parent_ref w = q) ws) →
  covers items always p ws'.
Proof.
  intros [Ha Hb] Hin Hf. split.
  - intros w Hw. apply Ha, Hin, Hw.
  - intros q Hd He. rewrite Hf. by apply Hb.
Qed.

Lemma write_deeper_levels_covers limit : ∀ p ws,
  Sequential.write_deeper_levels items limit p = Ok ws →
  covers items false p ws.
Proof.
  induction limit as [ | limit IH ]; intros p ws H; simpl in H; [ discriminate | ].
  bind_inv H. apply children_of_Ok in Ha. destruct Ha as [Hp ->].
  destruct (kids items p) as [ | c cs ] eqn:Hk.
  - inversion H. by apply covers_leaf.
  - bind_inv H. bind_inv H. bind_inv H. inversion H; subst ws.
    apply for_each_Ok in Ha1. destruct Ha1 as (blocks & HF & ->).
    rewrite <- Hk in *.
    apply covers_node; try done.
    + right. rewrite Hk. done.
    + eapply Forall2_impl; [ exact HF | ]. intros c' b Hb. by apply IH.
Qed.

(** The loop over the level-4 items writes the rows of
    [write_components] and of the [write_deeper_levels] calls, the
    latter between the former. *)
Lemma write_level4_rows limit p cs : ∀ n ws,
  Sequential.write_level4 items limit p cs n = Ok ws →
  ∃ comps blocks,
    Sequential.write_components items p cs n = Ok comps ∧
    Forall2 (λ c b, Sequential.write_deeper_levels items limit c = Ok b) cs blocks ∧
    (∀ w, w ∈ ws ↔ w ∈ comps ++ concat blocks) ∧
    ∀ q, (∀ w, w ∈ concat blocks → parent_ref w ≠ p) →
         filter (λ w, parent_ref w = q) ws =
         filter (λ w, parent_ref w = q) (comps ++ concat blocks).
Proof.
  induction cs as [ | c cs IH ]; simpl; intros n ws H.
  - inversion H. exists [], []. split; [ done | ]. split; [ constructor | done ].
  - bind_inv H. bind_inv H. bind_inv H. inversion H; subst ws.
    destruct (IH _ _ Ha1) as (comps & blocks & Hcomps & HF & Hin & Hfil).
    exists (a :: comps), (a0 :: blocks). rewrite Ha. simpl. rewrite Hcomps. simpl.
    split; [ done | ]. split; [ by constructor | ].
    assert (Hpa : parent_ref a = p).
    { unfold Sequential.write_component in Ha. bind_inv Ha. bind_inv Ha.
      inversion Ha. done. }
    pose proof (write_components_parent _ _ _ _ _ Hcomps) as Hpc.
    split.
    + intros w. rewrite !elem_of_cons, !elem_of_app, Hin, !elem_of_app. tauto.
    + intros q Hnp.
      rewrite !filter_cons, !filter_app, Hfil, filter_app.
      2:{ intros w Hw. apply Hnp. apply elem_of_app. by right. }
      destruct (decide (q = p)) as [-> | Hqp].
      * rewrite (filter_none _ a0); [ done | ].
        intros w Hw. apply Hnp. apply elem_of_app. by left.
      * rewrite (filter_none _ comps); [ done | ].
        intros w Hw. rewrite (Hpc w Hw). done.
Qed.

Lemma write_level3_covers limit p ws :
  Sequential.write_level3 items limit p = Ok ws → covers items false p ws.
Proof.
  unfold Sequential.write_level3. intros H.
  bind_inv H. apply children_of_Ok in Ha. destruct Ha as [Hp ->].
  destruct (kids items p) as [ | c cs ] eqn:Hk.
  - inversion H. by apply covers_leaf.
  - bind_inv H. bind_inv H. inversion H; subst ws.
    rewrite <- Hk in *.
    destruct (write_level4_rows _ _ _ _ _ Ha0)
      as (comps & blocks & Hcomps & HF & Hin & Hfil).
    assert (HF' : Forall2 (λ c b, covers items false c b) (kids items p) blocks).
    { eapply Forall2_impl; [ exact HF | ].
      intros c' b Hb. apply (write_deeper_levels_covers limit). exact Hb. }
    assert (Hnp : ∀ w, w ∈ concat blocks → parent_ref w ≠ p).
    { intros w Hw.
      destruct (elem_of_concat_Forall2 _ _ _ _ HF' Hw) as (c' & b & Hc' & [Hcov _] & Hwb).
      destruct (Hcov w Hwb) as [Hd _]. eapply desc_kid_ne; eauto. }
    eapply covers_rearranged.
    + apply (covers_node false p a comps blocks); try done.
      right. rewrite Hk. done.
    + intros w. rewrite !elem_of_cons, Hin. done.
    + intros q. rewrite !filter_cons, (Hfil q Hnp). done.
Qed.

Lemma write_level2_covers limit p ws :
  Sequential.write_level2 items limit p = Ok ws → covers items false p ws.
Proof.
  unfold Sequential.write_level2. intros H.
  bind_inv H. apply children_of_Ok in Ha. destruct Ha as [Hp ->].
  destruct (kids items p) as [ | c cs ] eqn:Hk.
  - inversion H. by apply covers_leaf.
  - bind_inv H. bind_inv H. bind_inv H. inversion H; subst ws.
    apply for_each_Ok in Ha1. destruct Ha1 as (blocks & HF & ->).
    rewrite <- Hk in *.
    apply covers_node; try done.
    + right. rewrite Hk. done.
    + eapply Forall2_impl; [ exact HF | ].
      intros c' b Hb. apply (write_level3_covers limit). exact Hb.
Qed.

Lemma write_level1_covers limit p ws :
  Sequential.write_level1 items limit p = Ok ws → covers items true p ws.
Proof.
  unfold Sequential.write_level1. intros H.
  bind_inv H. bind_inv H. apply children_of_Ok in Ha0. destruct Ha0 as [Hp ->].
  bind_inv H. bind_inv H. inversion H; subst ws.
  apply for_each_Ok in Ha1. destruct Ha1 as (blocks & HF & ->).
  apply covers_node; try done; [ by left | ].
  eapply Forall2_impl; [ exact HF | ].
  intros c' b Hb. apply (write_level2_covers limit). exact Hb.
Qed.

End Covers.

Lemma level1_refs_spec items : ∀ j r,
  r ∈ Sequential.level1_refs j items ↔
  j ≤ r ∧ ∃ it, items !! (r - j) = Some it ∧ level it = 1%Z.
Proof.
  induction items as [ | it0 items IH ]; intros j r; simpl.
  - split; [ intros H; inversion H | intros (_ & it & H & _); discriminate ].
  - assert (Hstep : r ∈ Sequential.level1_refs (S j) items ↔
                    j ≤ r ∧ r ≠ j ∧ ∃ it, (it0 :: items) !! (r - j) = Some it ∧ level it = 1%Z).
    { rewrite IH. split.
      - intros (Hle & it & Hit & Hl). split; [ lia | ]. split; [ lia | ].
        exists it. replace (r - j) with (S (r - S j)) by lia. done.
      - intros (Hle & Hne & it & Hit & Hl). split; [ lia | ].
        exists it. replace (r - j) with (S (r - S j)) in Hit by lia. done. }
    destruct (Z.eqb_spec (level it0) 1) as [Heq | Hne].
    + rewrite elem_of_cons, Hstep. split.
      * intros [-> | (Hle & _ & Hit)]; [ | done ].
        split; [ lia | ]. exists it0. rewrite Nat.sub_diag. done.
      * intros (Hle & Hit). destruct (decide (r = j)); [ by left | right; done ].
    + rewrite Hstep. split; [ intros (? & ? & ?); done | ].
      intros (Hle & it & Hit & Hl). split; [ done | ]. split; [ | eauto ].
      intros ->. rewrite Nat.sub_diag in Hit. simpl in Hit.
      inversion Hit; subst. done.
Qed.

Lemma level1_refs_NoDup items : ∀ j, NoDup (Sequential.level1_refs j items).
Proof.
  induction items as [ | it0 items IH ]; intros j; simpl; [ constructor | ].
  destruct (level it0 =? 1)%Z; [ | apply IH ].
  constructor; [ | apply IH ].
  intros Hin. apply level1_refs_spec in Hin. lia.
Qed.

Section Output.
Variable records : list level_record.
Local Abbreviation items := (store_of records).

Lemma roots_level1 r :
  r ∈ roots_of records ↔ r < length records ∧ lev items r = 1%Z.
Proof.
  unfold roots_of, Sequential.build. simpl.
  fold (store_of records). change (Sequential.link (new_item <$> records)) with items.
  rewrite level1_refs_spec, Nat.sub_0_r. unfold lev. split.
  - intros (_ & it & Hit & Hl). rewrite Hit. simpl.
    split; [ | done ]. rewrite <- store_length. eapply lookup_lt_Some; eauto.
  - intros [Hr Hl]. split; [ lia | ].
    destruct (lookup_lt_is_Some_2 items r) as [it Hit].
    { rewrite store_length. done. }
    rewrite Hit in Hl. eauto.
Qed.

Lemma roots_NoDup : NoDup (roots_of records).
Proof. apply level1_refs_NoDup. Qed.

(** What [write_hierarchy_ordered] writes: one block per root and per
    dict of the forest that has children, nothing else. *)
Lemma write_hierarchy_ordered_covers limit start ws cur :
  Sequential.write_hierarchy_ordered items limit (roots_of records) start
    = Ok (ws, cur) →
  cur = (start + Z.of_nat (length ws))%Z ∧
  (∀ w, w ∈ ws →
     ∃ r, r ∈ roots_of records ∧ desc items r (parent_ref w) ∧
          (parent_ref w = r ∨ kids items (parent_ref w) ≠ [])) ∧
  (∀ r q, r ∈ roots_of records → desc items r q → q = r ∨ kids items q ≠ [] →
     block items q = Ok (filter (λ w, parent_ref w = q) ws)).
Proof.
  unfold Sequential.write_hierarchy_ordered. intros H. bind_inv H.
  inversion H; subst a cur. split; [ done | ].
  apply for_each_Ok in Ha. destruct Ha as (blocks & HF & ->).
  assert (HF' : Forall2 (λ r b, covers items true r b) (roots_of records) blocks).
  { eapply Forall2_impl; [ exact HF | ].
    intros r b Hb. apply (write_level1_covers records limit). exact Hb. }
  assert (Hem : ∀ r q, emits items true r q ↔ q = r ∨ kids items q ≠ []).
  { intros r q. unfold emits. intuition. }
  split.
  - intros w Hw.
    destruct (elem_of_concat_Forall2 _ _ _ _ HF' Hw) as (r & b & Hr & [Hcov _] & Hwb).
    destruct (Hcov w Hwb) as [Hd He]. exists r. rewrite <- Hem. done.
  - intros r q Hr Hd Hq.
    destruct (filter_concat_one (λ w, parent_ref w = q) _ _ _ r HF')
      as (b & [_ Hb] & ->); [ apply roots_NoDup | done | | ].
    + intros r' b' Hr' Hne [Hcov _]. apply filter_none. intros w Hw Hpq.
      destruct (Hcov w Hw) as [Hdw _]. rewrite Hpq in Hdw. apply Hne.
      apply (desc_same_level records r' r q); [ done | done | ].
      apply roots_level1 in Hr, Hr'. destruct Hr as [_ ->]. tauto.
    + apply Hb; [ done | ]. by apply Hem.
Qed.

Lemma write_deeper_levels_total limit : ∀ p,
  p < length items → length items ≤ limit + p →
  ∃ ws, Sequential.write_deeper_levels items limit p = Ok ws.
Proof.
  induction limit as [ | limit IH ]; intros p Hp Hl; [ lia | ].
  simpl. destruct (lookup_lt_is_Some_2 items p Hp) as [pi Hpi].
  unfold Sequential.children_of, deref. rewrite Hpi. simpl.
  assert (Hk : children pi = kids items p) by (unfold kids; rewrite Hpi; done).
  rewrite Hk.
  destruct (kids items p) as [ | c cs ] eqn:Hkp; [ eauto | ].
  rewrite <- Hkp.
  unfold Sequential.write_material, deref. rewrite Hpi. simpl.
  destruct (write_components_total items p pi (kids items p) 10 Hpi) as [comps ->].
  { apply Forall_forall. intros c' Hc'. eapply kid_lt_length; eauto. }
  simpl.
  destruct (for_each_total (Sequential.write_deeper_levels items limit) (kids items p))
    as [deeper ->]; [ | simpl; eauto ].
  apply Forall_forall. intros c' Hc'. apply IH.
  - eapply kid_lt_length; eauto.
  - apply kid_gt in Hc'. lia.
Qed.

End Output.

Section Totality.
Variable records : list level_record.
Local Abbreviation items := (store_of records).

Lemma write_level4_total limit p pi cs : ∀ n,
  items !! p = Some pi →
  Forall (λ c, c < length items ∧ length items ≤ limit + c) cs →
  ∃ ws, Sequential.write_level4 items limit p cs n = Ok ws.
Proof.
  intros n Hp HF. revert n.
  induction HF as [ | c cs [Hc Hl] HF IH ]; intros n; simpl; [ eauto | ].
  destruct (lookup_lt_is_Some_2 items c Hc) as [ci Hci].
  unfold Sequential.write_component, deref. rewrite Hp, Hci. simpl.
  destruct (write_deeper_levels_total records limit c Hc Hl) as [deeper ->]. simpl.
  destruct (IH (n + 10)%Z) as [ws ->]. simpl. eauto.
Qed.

Lemma kids_in_range limit p :
  length items ≤ limit + p →
  Forall (λ c, c < length items ∧ length items ≤ limit + c) (kids items p).
Proof.
  intros Hl. apply Forall_forall. intros c Hc. split.
  - eapply kid_lt_length; eauto.
  - apply kid_gt in Hc. lia.
Qed.

Lemma write_level3_total limit p :
  p < length items → length items ≤ limit + p →
  ∃ ws, Sequential.write_level3 items limit p = Ok ws.
Proof.
  intros Hp Hl. destruct (lookup_lt_is_Some_2 items p Hp) as [pi Hpi].
  unfold Sequential.write_level3, Sequential.children_of, deref. rewrite Hpi. simpl.
  assert (Hk : children pi = kids items p) by (unfold kids; rewrite Hpi; done).
  rewrite Hk.
  destruct (kids items p) as [ | c cs ] eqn:Hkp; [ eauto | ].
  rewrite <- Hkp.
  unfold Sequential.write_material, deref. rewrite Hpi. simpl.
  destruct (write_level4_total limit p pi (kids items p) 10 Hpi) as [ws ->].
  { by apply kids_in_range. }
  simpl. eauto.
Qed.

Lemma write_level2_total limit p :
  p < length items → length items ≤ limit + p →
  ∃ ws, Sequential.write_level2 items limit p = Ok ws.
Proof.
  intros Hp Hl. destruct (lookup_lt_is_Some_2 items p Hp) as [pi Hpi].
  unfold Sequential.write_level2, Sequential.children_of, deref. rewrite Hpi. simpl.
  assert (Hk : children pi = kids items p) by (unfold kids; rewrite Hpi; done).
  rewrite Hk.
  pose proof (kids_in_range limit p Hl) as Hr.
  destruct (kids items p) as [ | c cs ] eqn:Hkp; [ eauto | ].
  rewrite <- Hkp in *.
  unfold Sequential.write_material, deref. rewrite Hpi. simpl.
  destruct (write_components_total items p pi (kids items p) 10 Hpi) as [comps ->].
  { eapply Forall_impl; [ exact Hr | ]. intros c' [Hc' _]. exact Hc'. }
  simpl.
  destruct (for_each_total (Sequential.write_level3 items limit) (kids items p))
    as [deeper ->]; [ | simpl; eauto ].
  eapply Forall_impl; [ exact Hr | ].
  intros c' [Hc' Hl']. by apply write_level3_total.
Qed.

Lemma write_level1_total limit p :
  p < length items → length items ≤ limit + p →
  ∃ ws, Sequential.write_level1 items limit p = Ok ws.
Proof.
  intros Hp Hl. destruct (lookup_lt_is_Some_2 items p Hp) as [pi Hpi].
  unfold Sequential.write_level1, Sequential.write_material,
    Sequential.children_of, deref.
  rewrite Hpi. simpl.
  assert (Hk : children pi = kids items p) by (unfold kids; rewrite Hpi; done).
  rewrite Hk.
  pose proof (kids_in_range limit p Hl) as Hr.
  destruct (write_components_total items p pi (kids items p) 10 Hpi) as [comps ->].
  { eapply Forall_impl; [ exact Hr | ]. intros c' [Hc' _]. exact Hc'. }
  simpl.
  destruct (for_each_total (Sequential.write_level2 items limit) (kids items p))
    as [deeper ->]; [ | simpl; eauto ].
  eapply Forall_impl; [ exact Hr | ].
  intros c' [Hc' Hl']. by apply write_level2_total.
Qed.

Lemma process_records_unfold limit start :
  Sequential.process_records limit records start =
  Sequential.write_hierarchy_ordered items limit (roots_of records) start.
Proof.
  unfold Sequential.process_records, store_of, roots_of.
  destruct (Sequential.build records). reflexivity.
Qed.

(** With a recursion limit of at least the number of records the write
    returns. *)
Lemma process_records_total limit start :
  length records ≤ limit →
  ∃ ws, Sequential.process_records limit records start
        = Ok (ws, (start + Z.of_nat (length ws))%Z).
Proof.
  intros Hl. rewrite process_records_unfold.
  unfold Sequential.write_hierarchy_ordered.
  destruct (for_each_total (Sequential.write_level1 items limit) (roots_of records))
    as [ws ->]; [ | simpl; eauto ].
  apply Forall_forall. intros r Hr. apply roots_level1 in Hr.
  destruct Hr as [Hr _]. apply write_level1_total; rewrite store_length; lia.
Qed.

End Totality.

(** ** The recursion limit *)

Lemma ret_bind {A B} (a : A) (f : A → res B) : Ok a ≫= f = f a.
Proof. reflexivity. Qed.

Section Limit.
Variable items : list item.

Lemma for_each_mono (f g : nat → res (list written)) xs : ∀ ws,
  (∀ x b, f x = Ok b → g x = Ok b) →
  Sequential.for_each f xs = Ok ws → Sequential.for_each g xs = Ok ws.
Proof.
  induction xs as [ | x xs IH ]; simpl; intros ws Hfg H; [ done | ].
  bind_inv H. bind_inv H. rewrite (Hfg _ _ Ha). simpl.
  rewrite (IH _ Hfg Ha0). done.
Qed.

(** A run that returns under some recursion limit returns the same rows
    under every greater one. *)
Lemma write_deeper_levels_mono limit : ∀ limit' p ws,
  limit ≤ limit' →
  Sequential.write_deeper_levels items limit p = Ok ws →
  Sequential.write_deeper_levels items limit' p = Ok ws.
Proof.
  induction limit as [ | limit IH ]; intros limit' p ws Hle H; [ discriminate | ].
  destruct limit' as [ | limit' ]; [ lia | ].
  simpl in *. bind_inv H. rewrite Ha, ret_bind.
  destruct a as [ | c cs ]; [ done | ].
  bind_inv H. bind_inv H. bind_inv H. rewrite Ha0, ret_bind, Ha1, ret_bind.
  rewrite (for_each_mono _ (Sequential.write_deeper_levels items limit') _ _
             (λ x b, IH limit' x b ltac:(lia)) Ha2).
  done.
Qed.

Lemma write_level4_mono limit limit' p cs : ∀ n ws,
  limit ≤ limit' →
  Sequential.write_level4 items limit p cs n = Ok ws →
  Sequential.write_level4 items limit' p cs n = Ok ws.
Proof.
  induction cs as [ | c cs IH ]; simpl; intros n ws Hle H; [ done | ].
  bind_inv H. bind_inv H. bind_inv H. rewrite Ha, ret_bind.
  rewrite (write_deeper_levels_mono _ _ _ _ Hle Ha0), ret_bind.
  rewrite (IH _ _ Hle Ha1). done.
Qed.

Lemma write_level3_mono limit limit' p ws :
  limit ≤ limit' →
  Sequential.write_level3 items limit p = Ok ws →
  Sequential.write_level3 items limit' p = Ok ws.
Proof.
  unfold Sequential.write_level3. intros Hle H.
  bind_inv H. rewrite Ha, ret_bind. destruct a as [ | c cs ]; [ done | ].
  bind_inv H. bind_inv H. rewrite Ha0, ret_bind.
  rewrite (write_level4_mono _ _ _ _ _ _ Hle Ha1). done.
Qed.

Lemma write_level2_mono limit limit' p ws :
  limit ≤ limit' →
  Sequential.write_level2 items limit p = Ok ws →
  Sequential.write_level2 items limit' p = Ok ws.
Proof.
  unfold Sequential.write_level2. intros Hle H.
  bind_inv H. rewrite Ha, ret_bind. destruct a as [ | c cs ]; [ done | ].
  bind_inv H. bind_inv H. bind_inv H. rewrite Ha0, ret_bind, Ha1, ret_bind.
  rewrite (for_each_mono _ (Sequential.write_level3 items limit') _ _
             (λ x b, write_level3_mono limit limit' x b Hle) Ha2).
  done.
Qed.

Lemma write_level1_mono limit limit' p ws :
  limit ≤ limit' →
  Sequential.write_level1 items limit p = Ok ws →
  Sequential.write_level1 items limit' p = Ok ws.
Proof.
  unfold Sequential.write_level1. intros Hle H.
  bind_inv H. bind_inv H. bind_inv H. bind_inv H.
  rewrite Ha, ret_bind, Ha0, ret_bind, Ha1, ret_bind.
  rewrite (for_each_mono _ (Sequential.write_level2 items limit') _ _
             (λ x b, write_level2_mono limit limit' x b Hle) Ha2).
  done.
Qed.

End Limit.

(** Every recursion limit of at least the number of records gives the
    rows that the limit used in the statements below gives. *)
Lemma process_records_limit (records : list level_record) (limit : nat) (start : Z) :
  length records ≤ limit →
  Sequential.process_records limit records start =
  Sequential.process_records (length records) records start.
Proof.
  intros Hle.
  destruct (process_records_total records (length records) start) as [ws Hrun]; [ lia | ].
  rewrite Hrun. rewrite process_records_unfold in *.
  unfold Sequential.write_hierarchy_ordered in *. bind_inv Hrun.
  rewrite (for_each_mono _ (Sequential.write_level1 (store_of records) limit) _ _
             (λ x b, write_level1_mono (store_of records) (length records) limit x b Hle) Ha).
  exact Hrun.
Qed.

(** ** The rows of a run *)

Lemma block_Ok items q rows :
  block items q = Ok rows →
  ∃ pi comps,
    items !! q = Some pi ∧
    Sequential.write_components items q (kids items q) 10 = Ok comps ∧
    rows = (Material q, Sequential.material_row pi) :: comps.
Proof.
  unfold block. intros H. bind_inv H. bind_inv H. inversion H; subst rows.
  apply write_material_Ok in Ha. destruct Ha as (pi & Hpi & ->). eauto.
Qed.

Lemma desc_last records r q :
  desc (store_of records) r q → q = r ∨ ∃ p, q ∈ kids (store_of records) p.
Proof.
  induction 1 as [ p | p c q Hc Hd IH ]; [ by left | right ].
  destruct IH as [-> | IH]; eauto.
Qed.

Section Run.
Variables (records : list level_record) (limit : nat) (start cur : Z).
Variable ws : list written.
Hypothesis Hrun : Sequential.process_records limit records start = Ok (ws, cur).
Local Abbreviation items := (store_of records).

Lemma run_covers :
  cur = (start + Z.of_nat (length ws))%Z ∧
  (∀ w, w ∈ ws →
     ∃ r, r ∈ roots_of records ∧ desc items r (parent_ref w) ∧
          (parent_ref w = r ∨ kids items (parent_ref w) ≠ [])) ∧
  (∀ r q, r ∈ roots_of records → desc items r q → q = r ∨ kids items q ≠ [] →
     block items q = Ok (filter (λ w, parent_ref w = q) ws)).
Proof.
  rewrite process_records_unfold in Hrun.
  by apply (write_hierarchy_ordered_covers records limit start).
Qed.

(** The rows of the material of a written row are its block. *)
Lemma run_block w :
  w ∈ ws →
  block items (parent_ref w) = Ok (filter (λ w', parent_ref w' = parent_ref w) ws).
Proof.
  intros Hw. destruct run_covers as (_ & HA & HB).
  destruct (HA w Hw) as (r & Hr & Hd & He). by apply (HB r).
Qed.

Lemma run_material w q :
  w ∈ ws → fst w = Material q →
  ∃ qi, items !! q = Some qi ∧ w = (Material q, Sequential.material_row qi).
Proof.
  intros Hw Hq.
  assert (Hp : parent_ref w = q) by (unfold parent_ref; rewrite Hq; done).
  pose proof (run_block w Hw) as Hb. rewrite Hp in Hb.
  apply block_Ok in Hb. destruct Hb as (qi & comps & Hqi & Hcomps & Hf).
  assert (Hin : w ∈ filter (λ w', parent_ref w' = q) ws).
  { apply list_elem_of_filter. done. }
  rewrite Hf in Hin. apply elem_of_cons in Hin. destruct Hin as [-> | Hin]; [ eauto | ].
  exfalso. apply write_components_Ok in Hcomps. destruct Hcomps as [_ Hrows].
  apply list_elem_of_lookup in Hin. destruct Hin as [k Hk].
  destruct (Hrows k w Hk) as (c & pi & ci & _ & _ & _ & ->). discriminate.
Qed.

(** A component row is written for a child of its material, from the
    two dicts, with the item number of the child's position. *)
Lemma run_component w p c :
  w ∈ ws → fst w = Component p c →
  ∃ k pi ci, kids items p !! k = Some c ∧ items !! p = Some pi ∧
    items !! c = Some ci ∧
    w = (Component p c,
         Sequential.component_row pi ci (10 + 10 * Z.of_nat k)).
Proof.
  intros Hw Hq.
  assert (Hp : parent_ref w = p) by (unfold parent_ref; rewrite Hq; done).
  pose proof (run_block w Hw) as Hb. rewrite Hp in Hb.
  apply block_Ok in Hb. destruct Hb as (qi & comps & Hqi & Hcomps & Hf).
  assert (Hin : w ∈ filter (λ w', parent_ref w' = p) ws).
  { apply list_elem_of_filter. done. }
  rewrite Hf in Hin. apply elem_of_cons in Hin. destruct Hin as [-> | Hin]; [ discriminate | ].
  apply write_components_Ok in Hcomps. destruct Hcomps as [_ Hrows].
  apply list_elem_of_lookup in Hin. destruct Hin as [k Hk].
  destruct (Hrows k w Hk) as (c' & pi & ci & Hc' & Hpi & Hci & ->).
  simpl in Hq. inversion Hq; subst c'. exists k, pi, ci. done.
Qed.

Lemma run_in_forest w : w ∈ ws → in_forest records (parent_ref w).
Proof.
  intros Hw. destruct run_covers as (_ & HA & _).
  destruct (HA w Hw) as (r & Hr & Hd & _). exists r. done.
Qed.

(** The block of every root, and of every dict of the forest that has
    children, is written. *)
Lemma run_block_written q :
  in_forest records q → q ∈ roots_of records ∨ kids items q ≠ [] →
  block items q = Ok (filter (λ w, parent_ref w = q) ws).
Proof.
  intros (r & Hr & Hd) Hq. destruct run_covers as (_ & _ & HB).
  destruct Hq as [Hq | Hq].
  - apply (HB q); [ done | constructor | by left ].
  - apply (HB r); [ done | done | by right ].
Qed.

End Run.

(** ** Scenario B *)

(** C1. For the level sequence 1, 2, 3, 4, 3, 4, 4, whatever the other
    fields of the seven records, both level-3 records are children of the
    one level-2 record, and the rows written are, in this order:
    Header(1); Component(1,2,"0010"); Header(2); Component(2,3a,"0010");
    Component(2,3b,"0020"); Header(3a); Component(3a,4a,"0010"); Header(3b);
    Component(3b,4b,"0010"); Component(3b,4c,"0020"). *)
Theorem scenario_B_rows (r1 r2 r3a r4a r3b r4b r4c : level_record)
  (limit : nat) (start : Z) :
  let records := levelled [1; 2; 3; 4; 3; 4; 4]%Z [r1; r2; r3a; r4a; r3b; r4b; r4c] in
  roots_of records = [0] ∧
  kids (store_of records) 0 = [1] ∧
  kids (store_of records) 1 = [2; 4] ∧
  kids (store_of records) 2 = [3] ∧
  kids (store_of records) 4 = [5; 6] ∧
  Sequential.output_rows (Sequential.process_records (S limit) records start) =
  Ok [ Header r1; Comp r1 r2 "0010";
       Header r2; Comp r2 r3a "0010"; Comp r2 r3b "0020";
       Header r3a; Comp r3a r4a "0010";
       Header r3b; Comp r3b r4b "0010"; Comp r3b r4c "0020" ].
Proof. repeat split. Qed.

(** ** Siblings before grandchildren *)

(** Where the contract holds: a level-1 item, a level-2 item and every
    item handled by [write_deeper_levels] (level 4 and deeper) gets its
    header, then the component rows of all its children, and only then
    the rows of the children as materials. *)
Lemma write_deeper_levels_siblings_first items limit p ws :
  Sequential.write_deeper_levels items (S limit) p = Ok ws →
  kids items p ≠ [] →
  ∃ m comps deeper,
    ws = m :: comps ++ deeper ∧
    Sequential.write_material items p = Ok m ∧
    Sequential.write_components items p (kids items p) 10 = Ok comps ∧
    Sequential.for_each (Sequential.write_deeper_levels items limit) (kids items p)
      = Ok deeper.
Proof.
  simpl. intros H Hk. bind_inv H.
  apply children_of_Ok in Ha. destruct Ha as [_ ->].
  destruct (kids items p) as [ | c cs ]; [ done | ].
  bind_inv H. bind_inv H. bind_inv H. inversion H; subst ws.
  eexists _, _, _. eauto.
Qed.

Lemma write_level2_siblings_first items limit p ws :
  Sequential.write_level2 items limit p = Ok ws →
  kids items p ≠ [] →
  ∃ m comps deeper,
    ws = m :: comps ++ deeper ∧
    Sequential.write_material items p = Ok m ∧
    Sequential.write_components items p (kids items p) 10 = Ok comps ∧
    Sequential.for_each (Sequential.write_level3 items limit) (kids items p)
      = Ok deeper.
Proof.
  unfold Sequential.write_level2. intros H Hk. bind_inv H.
  apply children_of_Ok in Ha. destruct Ha as [_ ->].
  destruct (kids items p) as [ | c cs ]; [ done | ].
  bind_inv H. bind_inv H. bind_inv H. inversion H; subst ws.
  eexists _, _, _. eauto.
Qed.

Lemma write_level1_siblings_first items limit p ws :
  Sequential.write_level1 items limit p = Ok ws →
  ∃ m comps deeper,
    ws = m :: comps ++ deeper ∧
    Sequential.write_material items p = Ok m ∧
    Sequential.write_components items p (kids items p) 10 = Ok comps ∧
    Sequential.for_each (Sequential.write_level2 items limit) (kids items p)
      = Ok deeper.
Proof.
  unfold Sequential.write_level1. intros H. bind_inv H. bind_inv H.
  apply children_of_Ok in Ha0. destruct Ha0 as [_ ->].
  bind_inv H. bind_inv H. inversion H; subst ws.
  eexists _, _, _. eauto.
Qed.

(** C2, at the input on which the code departs from it. For the level
    sequence 1, 2, 3, 4, 5, 4 the level-3 record has two children 4a and 4b
    and 4a has the child 5; the rows of 4a (its header and its component
    5) are written between the two component rows of the level-3 record,
    so the component rows of the level-3 record are not contiguous and a
    grandchild row comes before the row of its second child. *)
Theorem level4_loop_interleaves (r1 r2 r3 r4a r5 r4b : level_record)
  (limit : nat) (start : Z) :
  let records := levelled [1; 2; 3; 4; 5; 4]%Z [r1; r2; r3; r4a; r5; r4b] in
  kids (store_of records) 2 = [3; 5] ∧
  kids (store_of records) 3 = [4] ∧
  Sequential.output_rows (Sequential.process_records (S (S limit)) records start) =
  Ok [ Header r1; Comp r1 r2 "0010";
       Header r2; Comp r2 r3 "0010";
       Header r3; Comp r3 r4a "0010";
       Header r4a; Comp r4a r5 "0010";
       Comp r3 r4b "0020" ] ∧
  ∃ ws cur,
    Sequential.process_records (S (S limit)) records start = Ok (ws, cur) ∧
    ¬ siblings_first (store_of records) ws.
Proof.
  repeat split.
  eexists _, _. split; [ vm_compute; reflexivity | ].
  intros Hsf. unfold siblings_first in Hsf.
  match type of Hsf with
  | context [ @lookup _ _ _ _ _ ?l ] =>
      specialize (Hsf 8 6 _ _ 2 5 (eq_refl : l !! 8 = Some _) (eq_refl : l !! 6 = Some _))
  end.
  simpl in Hsf.
  assert (8 < 6); [ apply Hsf; [ reflexivity | ] | lia ].
  vm_compute. apply list_elem_of_In. simpl. tauto.
Qed.

(** ** Item numbers *)




(** ** Material rows *)

(** C4 fails for a root without children: the single level-1 record still
    gets its header row. *)
Lemma childless_root_has_header :
  let records := levelled [1%Z] [plain "R"] in
  roots_of records = [0] ∧
  kids (store_of records) 0 = [] ∧
  Sequential.output_rows (Sequential.process_records 1 records 9) =
    Ok [Header (plain "R")] ∧
  [Header (plain "R")] ≠ [].
Proof. repeat split. discriminate. Qed.

(** C4, amended. The write returns, and the header rows are these: exactly
    one for every root, with or without children, exactly one for every
    other dict of the forest that has at least one child, and none for
    any other dict. *)
Theorem material_rows (records : list level_record) (start : Z) :
  ∃ ws,
    Sequential.process_records (length records) records start
      = Ok (ws, (start + Z.of_nat (length ws))%Z) ∧
    (∀ q, in_forest records q →
          q ∈ roots_of records ∨ kids (store_of records) q ≠ [] →
          length (filter (λ w, is_material_of q w = true) ws) = 1) ∧
    (∀ w q, w ∈ ws → fst w = Material q →
          in_forest records q ∧
          (q ∈ roots_of records ∨ kids (store_of records) q ≠ [])).
Proof.
  destruct (process_records_total records (length records) start) as [ws Hrun]; [ lia | ].
  exists ws. split; [ exact Hrun | ]. split.
  - intros q Hf Hq.
    pose proof (run_block_written _ _ _ _ _ Hrun q Hf Hq) as Hb.
    apply block_Ok in Hb. destruct Hb as (qi & comps & Hqi & Hcomps & Heq).
    assert (Hff : filter (λ w, is_material_of q w = true) ws =
                  filter (λ w, is_material_of q w = true)
                    (filter (λ w, parent_ref w = q) ws)).
    { rewrite list_filter_filter. apply list_filter_iff. intros w. split; [ | tauto ].
      intros H. split; [ done | ].
      destruct w as [[q' | q' c] row]; unfold is_material_of, parent_ref in *;
        simpl in *; [ by apply Nat.eqb_eq in H | discriminate ]. }
    rewrite Hff, Heq.
    rewrite filter_cons_True by (unfold is_material_of; simpl; apply Nat.eqb_refl).
    rewrite filter_none; [ done | ].
    intros w Hw. apply write_components_Ok in Hcomps. destruct Hcomps as [_ Hrows].
    apply list_elem_of_lookup in Hw. destruct Hw as [k Hk].
    destruct (Hrows k w Hk) as (c & pi' & ci & _ & _ & _ & ->).
    unfold is_material_of. simpl. discriminate.
  - intros w q Hw Hq.
    assert (Hp : parent_ref w = q) by (unfold parent_ref; rewrite Hq; done).
    destruct (run_covers _ _ _ _ _ Hrun) as (_ & HA & _).
    destruct (HA w Hw) as (r & Hr & Hd & He). rewrite Hp in *.
    split; [ exists r; done | ].
    destruct He as [-> | He]; [ by left | by right ].
Qed.

(** ** Level jumps *)

(** C5 fails for a record two levels below the record before it: in the
    level sequence 1, 3 the second record "B" is no root and no child, and
    no row of the output names it, neither as material nor as component. *)
Lemma jump_record_is_dropped :
  let records := levelled [1; 3]%Z [plain "A"; plain "B"] in
  roots_of records = [0] ∧
  kids (store_of records) 0 = [] ∧
  kids (store_of records) 1 = [] ∧
  Sequential.output_rows (Sequential.process_records 2 records 9) =
    Ok [Header (plain "A")] ∧
  Forall (λ row, colE row ≠ "B"%string ∧ colN row ≠ "B"%string)
    [Header (plain "A")].
Proof. repeat split; repeat constructor; discriminate. Qed.

(** C5, amended. No level sequence makes the builder or the writer raise.
    A record is attached to the record before it that is exactly one level
    above it with only deeper records in between, when there is one.
    Otherwise it is attached nowhere and, unless its level is 1, it is not
    a root either: no row is written for it, neither as a material nor as
    a component. *)
Theorem jump_records (records : list level_record) (start : Z) :
  ∃ ws,
    Sequential.process_records (length records) records start
      = Ok (ws, (start + Z.of_nat (length ws))%Z) ∧
    (∀ p c, c ∈ kids (store_of records) p ↔ open_parent (store_of records) p c) ∧
    (∀ c, (∀ p, ¬ open_parent (store_of records) p c) →
          lev (store_of records) c ≠ 1%Z →
          ∀ w, w ∈ ws → parent_ref w ≠ c ∧ ∀ p, fst w ≠ Component p c).
Proof.
  destruct (process_records_total records (length records) start) as [ws Hrun]; [ lia | ].
  exists ws. split; [ exact Hrun | ]. split; [ apply kids_open_parent | ].
  intros c Horphan Hl w Hw. split.
  - intros Hp.
    destruct (run_in_forest _ _ _ _ _ Hrun w Hw) as (r & Hr & Hd). rewrite Hp in Hd.
    apply desc_last in Hd. destruct Hd as [-> | (p & Hc)].
    + apply roots_level1 in Hr. tauto.
    + apply kids_open_parent in Hc. by apply (Horphan p).
  - intros p Hc.
    destruct (run_component _ _ _ _ _ Hrun w p c Hw Hc) as (k & pi & ci & Hk & _).
    apply (Horphan p), kids_open_parent. apply list_elem_of_lookup. eauto.
Qed.

(** ** No level-1 record *)

(** C9. When no record has level 1 (in particular when there is no record)
    the builder returns no root and the writer writes no row and returns
    the start row, whatever the recursion limit; nothing is raised. *)
Theorem no_level1_no_rows (records : list level_record) (limit : nat) (start : Z) :
  Forall (λ r, r_level r ≠ 1%Z) records →
  snd (Sequential.build records) = [] ∧
  Sequential.process_records limit records start = Ok ([], start).
Proof.
  intros Hno.
  assert (Hroots : roots_of records = []).
  { destruct (roots_of records) as [ | r rs ] eqn:Hr; [ done | exfalso ].
    assert (Hin : r ∈ roots_of records) by (rewrite Hr; left).
    apply roots_level1 in Hin. destruct Hin as [Hlt Hl].
    rewrite lev_store in Hl.
    destruct (lookup_lt_is_Some_2 records r Hlt) as [rec Hrec].
    rewrite Hrec in Hl. simpl in Hl.
    rewrite Forall_forall in Hno. apply (Hno rec); [ | done ].
    apply list_elem_of_lookup. eauto. }
  split; [ exact Hroots | ].
  rewrite process_records_unfold, Hroots.
  unfold Sequential.write_hierarchy_ordered. simpl. f_equal. f_equal. lia.
Qed.

Lemma no_level1_no_rows_witness :
  let records := levelled [2; 3]%Z [plain "A"; plain "B"] in
  Forall (λ r, r_level r ≠ 1%Z) records ∧
  snd (Sequential.build records) = [] ∧
  Sequential.process_records 0 records 9 = Ok ([], 9%Z).
Proof.
  split.
  - repeat constructor; simpl; lia.
  - apply (no_level1_no_rows (levelled [2; 3]%Z [plain "A"; plain "B"]) 0 9).
    repeat constructor; simpl; lia.
Defined.

(** ** The link pass of optimized_processor *)

Lemma foldl_ext_fun {A B} (f g : A → B → A) (l : list B) : ∀ a,
  (∀ a b, f a b = g a b) → foldl f a l = foldl g a l.
Proof.
  induction l as [ | b l IH ]; intros a Hfg; simpl; [ done | ].
  rewrite Hfg. by apply IH.
Qed.

Lemma second_pass_updated items :
  Optimized.second_pass items = updated opt_upd items.
Proof.
  unfold Optimized.second_pass.
  rewrite <- (update_loop opt_upd items).
  apply foldl_ext_fun. intros cur i.
  unfold Optimized.link_item, update_at.
  destruct (cur !! i) as [[idx it] | ]; reflexivity.
Qed.

Lemma open_parent_unique (items : list item) i i' c :
  open_parent items i c → open_parent items i' c → i = i'.
Proof.
  intros (Hic & _ & Hl & Hb) (Hic' & _ & Hl' & Hb').
  destruct (Nat.lt_trichotomy i i') as [Hlt | [Heq | Hgt]]; [ | done | ].
  - specialize (Hb i' Hlt Hic'). lia.
  - specialize (Hb' i Hgt Hic). lia.
Qed.

Lemma find_children_open_parent (items : list item) i it c :
  items !! i = Some it →
  c ∈ Sequential.find_children (level it) (S i) (drop (S i) items) ↔
  open_parent items i c.
Proof.
  intros Hi. rewrite find_children_spec. unfold open_parent, lev. rewrite Hi. simpl.
  assert (Hk : ∀ k, S i ≤ k → drop (S i) items !! (k - S i) = items !! k).
  { intros k Hk. rewrite lookup_drop. f_equal. lia. }
  split.
  - intros (Hle & (itc & Hc & Hl) & Hb).
    rewrite Hk in Hc by lia.
    split; [ lia | ]. split; [ eapply lookup_lt_Some; eauto | ].
    rewrite Hc. simpl. split; [ done | ].
    intros k Hik Hkc.
    destruct (lookup_lt_is_Some_2 items k) as [itk Hitk].
    { apply lookup_lt_Some in Hc. lia. }
    rewrite Hitk. simpl. apply (Hb (k - S i)); [ lia | ].
    rewrite Hk by lia. done.
  - intros (Hic & Hcn & Hl & Hb).
    destruct (lookup_lt_is_Some_2 items c Hcn) as [itc Hc].
    rewrite Hc in Hl. simpl in Hl.
    split; [ lia | ]. split.
    + exists itc. rewrite Hk by lia. done.
    + intros k itk Hkc Hitk.
      replace k with ((S i + k) - S i) in Hitk by lia.
      rewrite Hk in Hitk by lia.
      specialize (Hb (S i + k)). rewrite Hitk in Hb. simpl in Hb. apply Hb; lia.
Qed.

(** The keys found by the loop of [optimized_processor] are the keys at
    the positions found by the loop of [sequential_processor]. *)
Lemma opt_find_children_positions L rest : ∀ j,
  Forall2 (λ idx p, j ≤ p ∧ ∃ it, rest !! (p - j) = Some (idx, it))
    (Optimized.find_children L rest)
    (Sequential.find_children L j (snd <$> rest)).
Proof.
  induction rest as [ | [idx it] rest IH ]; intros j; simpl; [ constructor | ].
  assert (Hshift : Forall2 (λ idx0 p, j ≤ p ∧ ∃ it0,
                      ((idx, it) :: rest) !! (p - j) = Some (idx0, it0))
                    (Optimized.find_children L rest)
                    (Sequential.find_children L (S j) (snd <$> rest))).
  { eapply Forall2_impl; [ apply (IH (S j)) | ].
    intros idx0 p (Hle & it0 & Hp). split; [ lia | ].
    exists it0. replace (p - j) with (S (p - S j)) by lia. done. }
  destruct (level it =? L + 1)%Z.
  - constructor; [ | exact Hshift ].
    split; [ lia | ]. exists it. rewrite Nat.sub_diag. done.
  - destruct (level it <=? L)%Z; [ constructor | exact Hshift ].
Qed.

Lemma collect_keys rows : ∀ i items,
  Optimized.collect i rows = Ok items →
  (∀ a e, items !! a = Some e → i ≤ fst e ∧ children (snd e) = []) ∧
  (∀ a b ea eb, items !! a = Some ea → items !! b = Some eb → a < b →
      fst ea < fst eb).
Proof.
  induction rows as [ | row rows IH ]; simpl; intros i items H.
  - inversion H. split; intros; discriminate.
  - bind_inv H. bind_inv H. inversion H; subst items; clear H.
    destruct (IH _ _ Ha0) as [Hlb Hsorted].
    assert (Hlb' : ∀ a e, a0 !! a = Some e → i ≤ fst e ∧ children (snd e) = []).
    { intros a' e He. destruct (Hlb a' e He). split; [ lia | done ]. }
    destruct a as [r | ]; [ | split; [ exact Hlb' | exact Hsorted ] ].
    split.
    + intros [ | a' ] e He; simpl in He; [ inversion He; done | eauto ].
    + intros [ | a' ] [ | b' ] ea eb Hea Heb Hab; simpl in *; try lia.
      * inversion Hea; subst ea. simpl. destruct (Hlb b' eb Heb). lia.
      * eapply Hsorted; eauto. lia.
Qed.

(** After the second pass of [build_hierarchy_map] no key is in the
    children list of two entries, and the keys in the children list of an
    entry are greater than its own key. *)
Lemma optimized_single_parent (df : list raw_row) (items : list (nat * item)) :
  Optimized.first_pass df = Ok items →
  (∀ i i' e e' c,
     Optimized.second_pass items !! i = Some e →
     Optimized.second_pass items !! i' = Some e' →
     c ∈ children (snd e) → c ∈ children (snd e') → i = i' ∧ fst e = fst e') ∧
  (∀ i e c,
     Optimized.second_pass items !! i = Some e → c ∈ children (snd e) →
     fst e < c).
Proof.
  intros Hfirst. unfold Optimized.first_pass in Hfirst.
  destruct (collect_keys _ _ _ Hfirst) as [Hlb Hsorted].
  assert (Hkid : ∀ i e c,
            Optimized.second_pass items !! i = Some e → c ∈ children (snd e) →
            ∃ e0 p itc, items !! i = Some e0 ∧ fst e = fst e0 ∧
              items !! p = Some (c, itc) ∧ open_parent (snd <$> items) i p).
  { intros i e c He Hc.
    rewrite second_pass_updated, updated_lookup in He.
    destruct (items !! i) as [e0 | ] eqn:He0; [ | discriminate ].
    simpl in He. inversion He; subst e; clear He. simpl in Hc.
    destruct (Hlb i e0 He0) as [_ Hnil]. rewrite Hnil in Hc. simpl in Hc.
    pose proof (opt_find_children_positions (level (snd e0)) (drop (S i) items) (S i))
      as Hpos.
    apply list_elem_of_lookup in Hc. destruct Hc as [k Hk].
    destruct (Forall2_lookup_l _ _ _ _ _ Hpos Hk) as (p & Hp & Hle & itc & Hitc).
    rewrite lookup_drop in Hitc. replace (S i + (p - S i)) with p in Hitc by lia.
    exists e0, p, itc. split; [ done | ]. split; [ done | ]. split; [ done | ].
    apply (find_children_open_parent (snd <$> items) i (snd e0)).
    - rewrite list_lookup_fmap, He0. done.
    - rewrite <- fmap_drop. apply list_elem_of_lookup. eauto. }
  split.
  - intros i i' e e' c He He' Hc Hc'.
    destruct (Hkid i e c He Hc) as (e0 & p & itc & He0 & Hf & Hp & Hop).
    destruct (Hkid i' e' c He' Hc') as (e0' & p' & itc' & He0' & Hf' & Hp' & Hop').
    assert (p = p').
    { destruct (Nat.lt_trichotomy p p') as [Hlt | [Heq | Hgt]]; [ | done | ].
      - pose proof (Hsorted _ _ _ _ Hp Hp' Hlt). simpl in *. lia.
      - pose proof (Hsorted _ _ _ _ Hp' Hp Hgt). simpl in *. lia. }
    subst p'.
    assert (i = i') by (eapply open_parent_unique; eauto).
    subst i'. split; [ done | ]. congruence.
  - intros i e c He Hc.
    destruct (Hkid i e c He Hc) as (e0 & p & itc & He0 & Hf & Hp & Hop).
    destruct Hop as (Hip & _).
    pose proof (Hsorted _ _ _ _ He0 Hp Hip). simpl in *. lia.
Qed.

(** ** One parent per record *)

Lemma filter_iff_on {A} (P Q : A → Prop) `{∀ x, Decision (P x)} `{∀ x, Decision (Q x)}
  (l : list A) :
  (∀ x, x ∈ l → P x ↔ Q x) → filter P l = filter Q l.
Proof.
  induction l as [ | x l IH ]; intros Hiff; [ done | ].
  assert (Hx : P x ↔ Q x) by (apply Hiff; left).
  assert (Hl : filter P l = filter Q l).
  { apply IH. intros y Hy. apply Hiff. by right. }
  rewrite !filter_cons, Hl.
  destruct (decide (P x)), (decide (Q x)); tauto.
Qed.

Lemma write_components_for_child items p cs c : ∀ n comps,
  Sequential.write_components items p cs n = Ok comps →
  length (filter (λ w, is_component_for c w = true) comps) =
  length (filter (λ x, x = c) cs).
Proof.
  induction cs as [ | c0 cs IH ]; simpl; intros n comps H.
  - inversion H. done.
  - bind_inv H. bind_inv H. inversion H; subst comps.
    unfold Sequential.write_component in Ha. bind_inv Ha. bind_inv Ha.
    inversion Ha; subst a.
    specialize (IH _ _ Ha0).
    destruct (decide (c0 = c)) as [-> | Hne].
    + rewrite filter_cons_True by (unfold is_component_for; simpl; apply Nat.eqb_refl).
      rewrite filter_cons_True by done. simpl. by f_equal.
    + rewrite filter_cons_False.
      2:{ unfold is_component_for. simpl. intros Hb. by apply Nat.eqb_eq in Hb. }
      rewrite filter_cons_False by done. done.
Qed.

Lemma NoDup_filter_eq_length (cs : list nat) (c : nat) :
  NoDup cs → length (filter (λ x, x = c) cs) ≤ 1.
Proof.
  induction 1 as [ | c0 cs Hnotin Hnd IH ]; [ simpl; lia | ].
  rewrite filter_cons. destruct (decide (c0 = c)) as [-> | Hne]; [ | done ].
  rewrite filter_none; [ simpl; lia | ].
  intros x Hx ->. done.
Qed.

(** C8. In the store of [build_hierarchy_structure] no dict is the child
    of two dicts, nor twice the child of one; a child comes after its
    parent in the record order, so that following children never leads
    back (the links form a forest); in the rows written each record is
    the component of at most one row; and in the dict of
    [build_hierarchy_map] too no key is in the children list of two
    entries and a child key is greater than the key of its parent. *)
Theorem single_parent_forest (records : list level_record) (start : Z) :
  (∀ p p' c, c ∈ kids (store_of records) p → c ∈ kids (store_of records) p' → p = p') ∧
  (∀ p, NoDup (kids (store_of records) p)) ∧
  (∀ p c, c ∈ kids (store_of records) p → p < c) ∧
  (∀ p q, desc (store_of records) p q → desc (store_of records) q p → p = q) ∧
  (∃ ws,
    Sequential.process_records (length records) records start
      = Ok (ws, (start + Z.of_nat (length ws))%Z) ∧
    ∀ c, length (filter (λ w, is_component_for c w = true) ws) ≤ 1) ∧
  (∀ df items, Optimized.first_pass df = Ok items →
     (∀ i i' e e' c,
        Optimized.second_pass items !! i = Some e →
        Optimized.second_pass items !! i' = Some e' →
        c ∈ children (snd e) → c ∈ children (snd e') → i = i' ∧ fst e = fst e') ∧
     (∀ i e c,
        Optimized.second_pass items !! i = Some e → c ∈ children (snd e) →
        fst e < c)).
Proof.
  split; [ apply kid_unique_parent | ].
  split; [ apply kids_NoDup | ].
  split; [ apply kid_gt | ].
  split.
  { intros p q H1 H2. apply desc_between in H1, H2. lia. }
  split; [ | apply optimized_single_parent ].
  destruct (process_records_total records (length records) start) as [ws Hrun]; [ lia | ].
  exists ws. split; [ exact Hrun | ]. intros c.
  destruct (filter (λ w, is_component_for c w = true) ws) as [ | w0 G ] eqn:HG;
    [ simpl; lia | ].
  assert (Hw0 : w0 ∈ ws ∧ is_component_for c w0 = true).
  { assert (Hin : w0 ∈ filter (λ w, is_component_for c w = true) ws) by (rewrite HG; left).
    apply list_elem_of_filter in Hin. tauto. }
  destruct Hw0 as [Hw0 Hc0].
  assert (Hshape : ∀ w, is_component_for c w = true → ∃ p, fst w = Component p c).
  { intros [[q | q c'] row]; unfold is_component_for; simpl; [ discriminate | ].
    intros H. apply Nat.eqb_eq in H. subst c'. eauto. }
  destruct (Hshape w0 Hc0) as [p Hp0].
  assert (Hkid : ∀ w p', w ∈ ws → fst w = Component p' c → c ∈ kids (store_of records) p').
  { intros w p' Hw Hf.
    destruct (run_component _ _ _ _ _ Hrun w p' c Hw Hf) as (k & _ & _ & Hk & _).
    apply list_elem_of_lookup. eauto. }
  assert (Hff : filter (λ w, is_component_for c w = true) ws =
                filter (λ w, is_component_for c w = true)
                  (filter (λ w, parent_ref w = p) ws)).
  { rewrite list_filter_filter. apply filter_iff_on.
    intros w Hw. split; [ | tauto ].
    intros H. split; [ done | ].
    destruct (Hshape w H) as [p' Hp'].
    unfold parent_ref. rewrite Hp'.
    apply (kid_unique_parent records p' p c); eauto. }
  rewrite <- HG, Hff.
  assert (Hpar : parent_ref w0 = p) by (unfold parent_ref; rewrite Hp0; done).
  pose proof (run_block _ _ _ _ _ Hrun w0 Hw0) as Hb. rewrite Hpar in Hb.
  apply block_Ok in Hb. destruct Hb as (pi & comps & Hpi & Hcomps & Heq).
  rewrite Heq. rewrite filter_cons_False by (unfold is_component_for; simpl; done).
  rewrite (write_components_for_child _ _ _ c _ _ Hcomps).
  apply NoDup_filter_eq_length, kids_NoDup.
Qed.

(** ** Text *)

Section TextLemmas.
Local Open Scope string_scope.













Lemma all_digits_uint d : all_digits (NilEmpty.string_of_uint d) = true.
Proof. induction d; simpl; done. Qed.

(** The text of a non-negative [int] is its digits. *)
Lemma str_of_int_nonneg z :
  (0 ≤ z)%Z →
  all_digits (str_of_int z) = true ∧ str_of_int z ≠ EmptyString ∧
  digits_value (str_of_int z) = Some z.
Proof.
  intros Hz. destruct z as [ | p | p ]; [ | | lia ].
  - vm_compute. repeat split; discriminate.
  - unfold str_of_int. simpl.
    pose proof (DecimalPos.Unsigned.to_uint_nonnil p) as Hnn.
    assert (Hs : NilZero.string_of_uint (Pos.to_uint p)
                 = NilEmpty.string_of_uint (Pos.to_uint p)).
    { unfold NilZero.string_of_uint. destruct (Pos.to_uint p); done. }
    rewrite Hs. split; [ apply all_digits_uint | ]. split.
    + destruct (Pos.to_uint p); simpl; done.
    + unfold digits_value. rewrite NilEmpty.usu. simpl. f_equal.
      pose proof (DecimalZ.of_to (Z.pos p)) as Hot. simpl in Hot. exact Hot.
Qed.





End TextLemmas.

(** ** Level parsing *)

Section LevelParsing.
Local Open Scope string_scope.






End LevelParsing.


(** In [build_hierarchy_structure] the level is [int(cell)]: an integer
    cell is used as it is, whatever its sign, and a text that is not an
    integer literal raises. *)
Lemma sequential_level_is_int (b d e : cell) :
  (∀ z, ∃ r, Sequential.extract_row
               {| cellA := CInt z; cellB := NaN; cellD := d; cellE := e |}
             = Ok (Some r) ∧ r_level r = z) ∧
  Sequential.extract_row
    {| cellA := CStr "Level 2"; cellB := b; cellD := d; cellE := e |}
  = Raise ValueError.
Proof. split; [ intros z; eexists; split; reflexivity | reflexivity ]. Qed.


(** ** Identifier and unit *)


Lemma extract_row_Ok row r :
  Sequential.extract_row row = Ok (Some r) →
  isna (cellA row) = false ∧
  Py.int (cellA row) = Ok (r_level r) ∧
  (if isna (cellB row) then r_art_nr r = EmptyString
   else ∃ z, Py.int (cellB row) = Ok z ∧ r_art_nr r = str_of_int z) ∧
  r_unit r = (if isna (cellD row) then EmptyString else upper (str (cellD row))) ∧
  r_quantity r = (if isna (cellE row) then CStr EmptyString else cellE row).
Proof.
  unfold Sequential.extract_row.
  destruct (isna (cellA row)); [ discriminate | ].
  intros H. bind_inv H. bind_inv H. inversion H; subst r; clear H. simpl.
  split; [ done | ]. split; [ done | ]. split; [ | done ].
  destruct (isna (cellB row)).
  - inversion Ha0. done.
  - bind_inv Ha0. inversion Ha0. eauto.
Qed.


(** [process_aptive_to_bom] renders the identifier with [str()] alone: a
    float cell keeps the text of the float. *)
Lemma col_text_float (m e : Z) (repr : string) :
  Simple.col_text (CFloat m e repr) = repr.
Proof. reflexivity. Qed.





(** * Further properties *)

(** ** The run as a whole *)

Lemma process_records_rows limit records start ws cur :
  Sequential.process_records limit records start = Ok (ws, cur) →
  ∀ start', Sequential.process_records limit records start'
            = Ok (ws, (start' + Z.of_nat (length ws))%Z).
Proof.
  rewrite process_records_unfold. unfold Sequential.write_hierarchy_ordered.
  intros H start'. bind_inv H. inversion H; subst.
  rewrite process_records_unfold. unfold Sequential.write_hierarchy_ordered.
  rewrite Ha. reflexivity.
Qed.

(** X1. When the interpreter allows at least as many nested calls as
    there are records, the write returns, the returned row number is the
    start row plus the number of rows written, and the rows written are
    the same for every such limit and every start row. *)
Theorem write_returns_within_limit (records : list level_record)
  (limit : nat) (start : Z) :
  length records ≤ limit →
  ∃ ws,
    Sequential.process_records limit records start
      = Ok (ws, (start + Z.of_nat (length ws))%Z) ∧
    ∀ limit' start', length records ≤ limit' →
      Sequential.process_records limit' records start'
        = Ok (ws, (start' + Z.of_nat (length ws))%Z).
Proof.
  intros Hle.
  destruct (process_records_total records (length records) start) as [ws Hrun]; [ lia | ].
  exists ws. split.
  - rewrite process_records_limit by done. exact Hrun.
  - intros limit' start' Hle'. rewrite process_records_limit by done.
    eapply process_records_rows. exact Hrun.
Qed.

Lemma write_returns_within_limit_witness :
  length demo_records ≤ 8 ∧
  ∃ ws,
    Sequential.process_records 8 demo_records 9
      = Ok (ws, (9 + Z.of_nat (length ws))%Z) ∧
    ∀ limit' start', length demo_records ≤ limit' →
      Sequential.process_records limit' demo_records start'
        = Ok (ws, (start' + Z.of_nat (length ws))%Z).
Proof.
  assert (Hle : length demo_records ≤ 8) by (simpl; lia).
  split; [ exact Hle | ].
  apply (write_returns_within_limit demo_records 8 9 Hle).
Defined.

(** ** Order and content of the rows *)

Lemma filter_head_first {A} (P : A → Prop) `{∀ x, Decision (P x)} (l : list A) x rest :
  filter P l = x :: rest →
  ∃ i, l !! i = Some x ∧ ∀ j y, l !! j = Some y → P y → i ≤ j.
Proof.
  induction l as [ | a l IH ]; intros Hf; [ discriminate | ].
  rewrite filter_cons in Hf. destruct (decide (P a)) as [Ha | Ha].
  - inversion Hf; subst. exists 0. split; [ done | ]. intros; lia.
  - destruct (IH Hf) as (i & Hi & Hfirst). exists (S i). split; [ done | ].
    intros [ | j ] y Hj Hy; simpl in Hj.
    + inversion Hj; subst. done.
    + specialize (Hfirst j y Hj Hy). lia.
Qed.

(** X2. In every run that returns, a component row comes after the header
    row of its material: the material has been written as a header
    before any of its components. *)
Theorem header_before_components (records : list level_record) (limit : nat)
  (start cur : Z) (ws : list written) :
  Sequential.process_records limit records start = Ok (ws, cur) →
  ∀ j w p c, ws !! j = Some w → fst w = Component p c →
    ∃ i m, i < j ∧ ws !! i = Some m ∧ fst m = Material p.
Proof.
  intros Hrun j w p c Hj Hf.
  assert (Hw : w ∈ ws) by (apply list_elem_of_lookup; eauto).
  assert (Hp : parent_ref w = p) by (unfold parent_ref; rewrite Hf; done).
  pose proof (run_block _ _ _ _ _ Hrun w Hw) as Hb. rewrite Hp in Hb.
  apply block_Ok in Hb. destruct Hb as (pi & comps & _ & _ & Heq).
  destruct (filter_head_first _ _ _ _ Heq) as (i & Hi & Hfirst).
  exists i, (Material p, Sequential.material_row pi).
  split; [ | done ].
  specialize (Hfirst j w Hj Hp).
  destruct (decide (i = j)) as [Hij | ]; [ | lia ].
  rewrite Hij in Hi. unfold written in *.
  assert (Hsame : Some w = Some (Material p, Sequential.material_row pi))
    by (rewrite <- Hi, <- Hj; reflexivity).
  inversion Hsame; subst w. discriminate Hf.
Qed.

Lemma header_before_components_witness :
  Sequential.process_records 8 demo_records 9 = Ok (demo_rows, 20%Z) ∧
  ∃ i m, i < 9 ∧ demo_rows !! i = Some m ∧ fst m = Material 2.
Proof.
  split; [ reflexivity | ].
  eapply (header_before_components demo_records 8 9 20%Z demo_rows); reflexivity.
Defined.

(** X4. In every run that returns, a header row holds the identifier of
    its record and nothing else, and a component row links a record to an
    earlier record exactly one level above it: it holds the identifier of
    that parent and the identifier, quantity and unit of the child,
    unchanged. *)
Theorem rows_carry_records (records : list level_record) (limit : nat)
  (start cur : Z) (ws : list written) :
  Sequential.process_records limit records start = Ok (ws, cur) →
  ∀ w, w ∈ ws →
    match fst w with
    | Material q => ∃ rq, records !! q = Some rq ∧ snd w = Header rq
    | Component p c =>
        ∃ rp rc, records !! p = Some rp ∧ records !! c = Some rc ∧
          p < c ∧ r_level rc = (r_level rp + 1)%Z ∧
          snd w = Comp rp rc (colL (snd w))
    end.
Proof.
  intros Hrun w Hw. destruct (fst w) as [q | p c] eqn:Hf.
  - destruct (run_material _ _ _ _ _ Hrun w q Hw Hf) as (qi & Hqi & ->).
    rewrite store_lookup in Hqi.
    destruct (records !! q) as [rq | ]; [ | discriminate ].
    simpl in Hqi. inversion Hqi; subst qi. exists rq. done.
  - destruct (run_component _ _ _ _ _ Hrun w p c Hw Hf) as (k & pi & ci & Hk & Hpi & Hci & ->).
    assert (Hkid : c ∈ kids (store_of records) p) by (apply list_elem_of_lookup; eauto).
    pose proof (kid_gt _ _ _ Hkid) as Hlt.
    pose proof (kid_level _ _ _ Hkid) as Hlev. rewrite !lev_store in Hlev.
    rewrite store_lookup in Hpi, Hci.
    destruct (records !! p) as [rp | ]; [ | discriminate ].
    destruct (records !! c) as [rc | ]; [ | discriminate ].
    simpl in *. inversion Hpi; subst pi. inversion Hci; subst ci.
    exists rp, rc. done.
Qed.

Lemma rows_carry_records_witness :
  Sequential.process_records 8 demo_records 9 = Ok (demo_rows, 20%Z) ∧
  ∃ w, demo_rows !! 9 = Some w ∧
    ∃ rp rc, demo_records !! 2 = Some rp ∧ demo_records !! 5 = Some rc ∧
      2 < 5 ∧ r_level rc = (r_level rp + 1)%Z ∧
      snd w = Comp rp rc (colL (snd w)).
Proof.
  split; [ reflexivity | ].
  eexists. split; [ reflexivity | ].
  match goal with
  | |- ∃ rp rc, _ ∧ _ ∧ _ ∧ _ ∧ snd ?w = _ =>
      assert (Hw : w ∈ demo_rows)
        by (apply list_elem_of_lookup; exists 9; reflexivity);
      exact (rows_carry_records demo_records 8 9 20%Z demo_rows eq_refl w Hw)
  end.
Defined.

(** The item number read back as a number. *)
Lemma digits_value_zeros k s : digits_value (zeros k ++ s) = digits_value s.
Proof.
  induction k as [ | k IH ]; [ done | ].
  simpl. unfold digits_value in *. simpl.
  destruct (NilEmpty.uint_of_string (zeros k ++ s)) as [d | ] eqn:Hd;
    destruct (NilEmpty.uint_of_string s) as [d' | ] eqn:Hd'; simpl in *;
    try discriminate; try done.
Qed.

Lemma format_04d_value n : (0 ≤ n)%Z → digits_value (format_04d n) = Some n.
Proof.
  intros Hn. unfold format_04d.
  destruct (Z.ltb_spec n 0) as [ | _ ]; [ lia | ].
  rewrite digits_value_zeros, Z.abs_eq by done.
  by destruct (str_of_int_nonneg n Hn) as (_ & _ & ->).
Qed.

Lemma filter_at_most_one {A} (P : A → Prop) `{∀ x, Decision (P x)} (l : list A) :
  length (filter P l) ≤ 1 →
  ∀ i j x y, l !! i = Some x → l !! j = Some y → P x → P y → i = j.
Proof.
  induction l as [ | a l IH ]; intros Hlen i j x y Hi Hj Hx Hy; [ discriminate | ].
  rewrite filter_cons in Hlen. destruct (decide (P a)) as [Ha | Ha].
  - simpl in Hlen.
    assert (Hnone : ∀ k z, l !! k = Some z → ¬ P z).
    { intros k z Hk Hz.
      assert (Hin : z ∈ filter P l).
      { apply list_elem_of_filter. split; [ done | ]. apply list_elem_of_lookup. eauto. }
      destruct (filter P l); [ inversion Hin | simpl in Hlen; lia ]. }
    destruct i as [ | i ], j as [ | j ]; simpl in *; try done.
    + exfalso. eapply Hnone; eauto.
    + exfalso. eapply Hnone; eauto.
    + exfalso. eapply Hnone; eauto.
  - destruct i as [ | i ], j as [ | j ]; simpl in *.
    + done.
    + inversion Hi; subst. done.
    + inversion Hj; subst. done.
    + f_equal. eapply IH; eauto.
Qed.

Lemma NoDup_filter_eq_one (cs : list nat) (c : nat) :
  NoDup cs → c ∈ cs → length (filter (λ x, x = c) cs) = 1.
Proof.
  intros Hnd Hc. pose proof (NoDup_filter_eq_length cs c Hnd) as Hle.
  assert (Hin : c ∈ filter (λ x, x = c) cs) by (apply list_elem_of_filter; done).
  destruct (filter (λ x, x = c) cs); [ inversion Hin | simpl in *; lia ].
Qed.

Lemma desc_last_step records r c :
  desc (store_of records) r c →
  c = r ∨ ∃ p, desc (store_of records) r p ∧ c ∈ kids (store_of records) p.
Proof.
  induction 1 as [ p | p c' q Hc Hd IH ]; [ by left | right ].
  destruct IH as [-> | (p' & Hd' & Hq)].
  - exists p. split; [ constructor | done ].
  - exists p'. split; [ eapply desc_child; eauto | done ].
Qed.

Lemma desc_snoc records r p c :
  desc (store_of records) r p → c ∈ kids (store_of records) p →
  desc (store_of records) r c.
Proof.
  induction 1 as [ p | p c' q Hc Hd IH ]; intros Hk.
  - eapply desc_child; [ exact Hk | constructor ].
  - eapply desc_child; [ exact Hc | by apply IH ].
Qed.

Lemma in_forest_level records q :
  in_forest records q → (1 ≤ lev (store_of records) q)%Z.
Proof.
  intros (r & Hr & Hd). apply roots_level1 in Hr. destruct Hr as [_ Hl].
  apply desc_between in Hd. destruct Hd as [Hle Hb].
  destruct (decide (q = r)) as [-> | Hne]; [ lia | ].
  specialize (Hb q). lia.
Qed.

Section Counting.
Variables (records : list level_record) (limit : nat) (start cur : Z).
Variable ws : list written.
Hypothesis Hrun : Sequential.process_records limit records start = Ok (ws, cur).
Local Abbreviation items := (store_of records).

Lemma component_for_shape c w :
  is_component_for c w = true → ∃ p, fst w = Component p c.
Proof.
  destruct w as [[q | q c'] row]; unfold is_component_for; simpl; [ discriminate | ].
  intros H. apply Nat.eqb_eq in H. subst c'. eauto.
Qed.

(** The rows whose component is [c] are among the rows of the parent of
    [c]. *)
Lemma run_component_count p c :
  c ∈ kids items p →
  length (filter (λ w, is_component_for c w = true) ws) =
  length (filter (λ w, is_component_for c w = true)
            (filter (λ w, parent_ref w = p) ws)).
Proof.
  intros Hc. f_equal. rewrite list_filter_filter. apply filter_iff_on.
  intros w Hw. split; [ | tauto ]. intros H. split; [ done | ].
  destruct (component_for_shape c w H) as [p' Hp'].
  unfold parent_ref. rewrite Hp'.
  destruct (run_component _ _ _ _ _ Hrun w p' c Hw Hp') as (k & _ & _ & Hk & _).
  apply (kid_unique_parent records p' p c); [ | done ].
  apply list_elem_of_lookup. eauto.
Qed.

Lemma run_component_once p c :
  in_forest records p → c ∈ kids items p →
  length (filter (λ w, is_component_for c w = true) ws) = 1.
Proof.
  intros Hf Hc. rewrite (run_component_count p c Hc).
  assert (Hk : kids items p ≠ []) by (intros Hnil; rewrite Hnil in Hc; inversion Hc).
  pose proof (run_block_written _ _ _ _ _ Hrun p Hf (or_intror Hk)) as Hb.
  apply block_Ok in Hb. destruct Hb as (pi & comps & _ & Hcomps & ->).
  rewrite filter_cons_False by (unfold is_component_for; simpl; done).
  rewrite (write_components_for_child _ _ _ c _ _ Hcomps).
  apply NoDup_filter_eq_one; [ apply kids_NoDup | done ].
Qed.

Lemma run_component_at_most_once c :
  length (filter (λ w, is_component_for c w = true) ws) ≤ 1.
Proof.
  destruct (filter (λ w, is_component_for c w = true) ws) as [ | w0 G ] eqn:HG;
    [ simpl; lia | ].
  assert (Hin : w0 ∈ filter (λ w, is_component_for c w = true) ws) by (rewrite HG; left).
  apply list_elem_of_filter in Hin. destruct Hin as [Hc0 Hw0].
  destruct (component_for_shape c w0 Hc0) as [p Hp].
  destruct (run_component _ _ _ _ _ Hrun w0 p c Hw0 Hp) as (k & _ & _ & Hk & _).
  rewrite <- HG, (run_component_once p c); [ done | | apply list_elem_of_lookup; eauto ].
  assert (Hpar : parent_ref w0 = p) by (unfold parent_ref; rewrite Hp; done).
  rewrite <- Hpar. eapply run_in_forest; eauto.
Qed.

Lemma run_material_once q :
  in_forest records q → q ∈ roots_of records ∨ kids items q ≠ [] →
  length (filter (λ w, is_material_of q w = true) ws) = 1.
Proof.
  intros Hf Hq.
  pose proof (run_block_written _ _ _ _ _ Hrun q Hf Hq) as Hb.
  apply block_Ok in Hb. destruct Hb as (qi & comps & Hqi & Hcomps & Heq).
  assert (Hff : filter (λ w, is_material_of q w = true) ws =
                filter (λ w, is_material_of q w = true)
                  (filter (λ w, parent_ref w = q) ws)).
  { rewrite list_filter_filter. apply list_filter_iff. intros w. split; [ | tauto ].
    intros H. split; [ done | ].
    destruct w as [[q' | q' c] row]; unfold is_material_of, parent_ref in *;
      simpl in *; [ by apply Nat.eqb_eq in H | discriminate ]. }
  rewrite Hff, Heq.
  rewrite filter_cons_True by (unfold is_material_of; simpl; apply Nat.eqb_refl).
  rewrite filter_none; [ done | ].
  intros w Hw. apply write_components_Ok in Hcomps. destruct Hcomps as [_ Hrows].
  apply list_elem_of_lookup in Hw. destruct Hw as [k Hk].
  destruct (Hrows k w Hk) as (c & pi' & ci & _ & _ & _ & ->).
  unfold is_material_of. simpl. discriminate.
Qed.

(** A root is the component of no row. *)
Lemma run_root_no_component r :
  r ∈ roots_of records → filter (λ w, is_component_for r w = true) ws = [].
Proof.
  intros Hr. apply filter_none. intros w Hw Hc.
  destruct (component_for_shape r w Hc) as [p Hp].
  destruct (run_component _ _ _ _ _ Hrun w p r Hw Hp) as (k & _ & _ & Hk & _).
  assert (Hkid : r ∈ kids items p) by (apply list_elem_of_lookup; eauto).
  assert (Hpar : parent_ref w = p) by (unfold parent_ref; rewrite Hp; done).
  pose proof (run_in_forest _ _ _ _ _ Hrun w Hw) as Hf. rewrite Hpar in Hf.
  apply in_forest_level in Hf. apply kid_level in Hkid.
  apply roots_level1 in Hr. lia.
Qed.

Lemma in_forest_parent c :
  in_forest records c → c ∉ roots_of records →
  ∃ p, in_forest records p ∧ c ∈ kids items p.
Proof.
  intros (r & Hr & Hd) Hnr. apply desc_last_step in Hd.
  destruct Hd as [-> | (p & Hd & Hc)]; [ done | ].
  exists p. split; [ exists r; done | done ].
Qed.

End Counting.

(** X3. In every run that returns, two component rows of the same
    material never carry the same item number: the item number
    identifies the child among the children of its material. *)
Theorem item_numbers_distinct (records : list level_record) (limit : nat)
  (start cur : Z) (ws : list written) :
  Sequential.process_records limit records start = Ok (ws, cur) →
  ∀ i j wi wj p ci cj,
    ws !! i = Some wi → ws !! j = Some wj →
    fst wi = Component p ci → fst wj = Component p cj →
    colL (snd wi) = colL (snd wj) → i = j ∧ ci = cj.
Proof.
  intros Hrun i j wi wj p ci cj Hi Hj Hfi Hfj HL.
  assert (Hwi : wi ∈ ws) by (apply list_elem_of_lookup; eauto).
  assert (Hwj : wj ∈ ws) by (apply list_elem_of_lookup; eauto).
  destruct (run_component _ _ _ _ _ Hrun wi p ci Hwi Hfi)
    as (ki & pi & cii & Hki & _ & _ & Hei).
  destruct (run_component _ _ _ _ _ Hrun wj p cj Hwj Hfj)
    as (kj & pj & cij & Hkj & _ & _ & Hej).
  rewrite Hei, Hej in HL. simpl in HL.
  assert (Hk : ki = kj).
  { assert (Hv : digits_value (format_04d (10 + 10 * Z.of_nat ki)) =
                 digits_value (format_04d (10 + 10 * Z.of_nat kj))) by (by rewrite HL).
    rewrite !format_04d_value in Hv by lia. inversion Hv. lia. }
  subst kj. assert (ci = cj) by congruence. subst cj. split; [ | done ].
  apply (filter_at_most_one (λ w, is_component_for ci w = true) ws
           (run_component_at_most_once _ _ _ _ _ Hrun ci) i j wi wj Hi Hj).
  - unfold is_component_for. rewrite Hfi. apply Nat.eqb_refl.
  - unfold is_component_for. rewrite Hfj. apply Nat.eqb_refl.
Qed.

Lemma item_numbers_distinct_witness :
  Sequential.process_records 8 demo_records 9 = Ok (demo_rows, 20%Z) ∧
  9 = 9 ∧ 5 = 5.
Proof.
  split; [ reflexivity | ].
  eapply (item_numbers_distinct demo_records 8 9 20%Z demo_rows); reflexivity.
Defined.

(** X5. In every run that returns, every root is written as a header
    exactly once and is the component of no row, and every other dict of
    the forest is the component of exactly one row: no record of the
    forest is lost and none is written twice. *)
Theorem forest_written_once (records : list level_record) (limit : nat)
  (start cur : Z) (ws : list written) :
  Sequential.process_records limit records start = Ok (ws, cur) →
  ∀ c, in_forest records c →
    if decide (c ∈ roots_of records)
    then length (filter (λ w, is_material_of c w = true) ws) = 1 ∧
         filter (λ w, is_component_for c w = true) ws = []
    else length (filter (λ w, is_component_for c w = true) ws) = 1.
Proof.
  intros Hrun c Hf. destruct (decide (c ∈ roots_of records)) as [Hr | Hr].
  - split.
    + apply (run_material_once _ _ _ _ _ Hrun c Hf). by left.
    + by apply (run_root_no_component _ _ _ _ _ Hrun).
  - destruct (in_forest_parent records c Hf Hr) as (p & Hp & Hc).
    by apply (run_component_once _ _ _ _ _ Hrun p c).
Qed.

Lemma forest_written_once_witness :
  Sequential.process_records 8 demo_records 9 = Ok (demo_rows, 20%Z) ∧
  in_forest demo_records 5 ∧
  length (filter (λ w, is_component_for 5 w = true) demo_rows) = 1.
Proof.
  assert (Hf : in_forest demo_records 5).
  { exists 0. split; [ apply list_elem_of_In; vm_compute; tauto | ].
    apply (desc_child _ 0 1); [ apply list_elem_of_In; vm_compute; tauto | ].
    apply (desc_child _ 1 2); [ apply list_elem_of_In; vm_compute; tauto | ].
    apply (desc_child _ 2 5); [ apply list_elem_of_In; vm_compute; tauto | ].
    constructor. }
  split; [ reflexivity | ]. split; [ exact Hf | ].
  pose proof (forest_written_once demo_records 8 9 20%Z demo_rows eq_refl 5 Hf) as H.
  destruct (decide (5 ∈ roots_of demo_records)) as [Hr | _]; [ | exact H ].
  exfalso. apply roots_level1 in Hr. destruct Hr as [_ Hr]. vm_compute in Hr.
  discriminate.
Defined.

(** ** Well-formed level progressions *)

Lemma steps_ok_spec levels : ∀ prev,
  steps_ok prev levels = true →
  (∀ k l, levels !! k = Some l → (1 ≤ l)%Z) ∧
  (∀ l, levels !! 0 = Some l → (l ≤ prev + 1)%Z) ∧
  (∀ k l l', levels !! k = Some l → levels !! S k = Some l' → (l' ≤ l + 1)%Z).
Proof.
  induction levels as [ | l0 levels IH ]; intros prev H; simpl in H.
  - repeat split; intros; discriminate.
  - apply andb_true_iff in H. destruct H as [H Hrest].
    apply andb_true_iff in H. destruct H as [H1 H2].
    apply Z.leb_le in H1, H2.
    destruct (IH _ Hrest) as (Hge & Hfirst & Hstep).
    split; [ | split ].
    + intros [ | k ] l Hk; simpl in Hk; [ inversion Hk; subst; done | eauto ].
    + intros l Hl. simpl in Hl. inversion Hl; subst. done.
    + intros [ | k ] l l' Hk Hk'; simpl in Hk, Hk'.
      * inversion Hk; subst. by apply Hfirst.
      * eapply Hstep; eauto.
Qed.

Lemma well_formed_spec levels :
  well_formed levels = true →
  (∀ l, levels !! 0 = Some l → l = 1%Z) ∧
  (∀ k l, levels !! k = Some l → (1 ≤ l)%Z) ∧
  (∀ k l l', levels !! k = Some l → levels !! S k = Some l' → (l' ≤ l + 1)%Z).
Proof.
  destruct levels as [ | l0 levels ]; simpl; intros H.
  - repeat split; intros; discriminate.
  - apply andb_true_iff in H. destruct H as [H1 Hrest]. apply Z.eqb_eq in H1. subst l0.
    destruct (steps_ok_spec _ _ Hrest) as (Hge & Hfirst & Hstep).
    split; [ | split ].
    + intros l Hl. inversion Hl. done.
    + intros [ | k ] l Hk; simpl in Hk; [ inversion Hk; lia | eauto ].
    + intros [ | k ] l l' Hk Hk'; simpl in Hk, Hk'.
      * inversion Hk; subst. by apply Hfirst.
      * eapply Hstep; eauto.
Qed.

Section WellFormed.
Variable records : list level_record.
Hypothesis Hwf : well_formed (r_level <$> records) = true.
Local Abbreviation items := (store_of records).

Lemma wf_lev k :
  k < length records →
  (r_level <$> records) !! k = Some (lev items k).
Proof.
  intros Hk. rewrite lev_store, list_lookup_fmap.
  destruct (lookup_lt_is_Some_2 records k Hk) as [r ->]. done.
Qed.

Lemma wf_first : 0 < length records → lev items 0 = 1%Z.
Proof.
  intros H. destruct (well_formed_spec _ Hwf) as (Hfirst & _ & _).
  apply Hfirst. by apply wf_lev.
Qed.

Lemma wf_ge k : k < length records → (1 ≤ lev items k)%Z.
Proof.
  intros H. destruct (well_formed_spec _ Hwf) as (_ & Hge & _).
  apply (Hge k). by apply wf_lev.
Qed.

Lemma wf_step k : S k < length records → (lev items (S k) ≤ lev items k + 1)%Z.
Proof.
  intros H. destruct (well_formed_spec _ Hwf) as (_ & _ & Hstep).
  apply (Hstep k); apply wf_lev; lia.
Qed.

Lemma wf_scan c : ∀ j,
  j < c → c < length records →
  (∀ k, j < k → k ≤ c → (lev items c ≤ lev items k)%Z) →
  (2 ≤ lev items c)%Z →
  ∃ p, open_parent items p c.
Proof.
  induction j as [ | j IH ]; intros Hjc Hc Hrange HL.
  - pose proof (wf_step 0 ltac:(lia)) as Hs.
    pose proof (Hrange 1 ltac:(lia) ltac:(lia)) as Hr.
    rewrite wf_first in Hs by lia. 
    exists 0. split; [ lia | ]. split; [ by rewrite store_length | ].
    rewrite wf_first by lia. split; [ lia | ].
    intros k Hk Hkc. specialize (Hrange k ltac:(lia) ltac:(lia)). lia.
  - pose proof (wf_step (S j) ltac:(lia)) as Hs.
    pose proof (Hrange (S (S j)) ltac:(lia) ltac:(lia)) as Hr.
    destruct (Z.lt_ge_cases (lev items (S j)) (lev items c)) as [Hlt | Hge].
    + exists (S j). split; [ lia | ]. split; [ by rewrite store_length | ].
      split; [ lia | ].
      intros k Hk Hkc. specialize (Hrange k ltac:(lia) ltac:(lia)). lia.
    + apply IH; [ lia | done | | done ].
      intros k Hk Hkc. destruct (decide (k = S j)) as [-> | ]; [ lia | ].
      apply Hrange; lia.
Qed.

Lemma wf_open_parent c :
  c < length records → lev items c ≠ 1%Z → ∃ p, open_parent items p c.
Proof.
  intros Hc Hl. pose proof (wf_ge c Hc) as Hge.
  destruct c as [ | c ]; [ rewrite wf_first in Hl by lia; done | ].
  apply (wf_scan (S c) c); [ lia | done | | lia ].
  intros k Hk Hkc. assert (k = S c) as -> by lia. lia.
Qed.

(** In a well-formed progression every record is in the forest. *)
Lemma wf_in_forest c : c < length records → in_forest records c.
Proof.
  induction c as [c IH] using lt_wf_ind. intros Hc.
  destruct (decide (lev items c = 1%Z)) as [Hl | Hl].
  - exists c. split; [ by apply roots_level1 | constructor ].
  - destruct (wf_open_parent c Hc Hl) as [p Hp].
    pose proof Hp as (Hpc & _).
    destruct (IH p Hpc ltac:(lia)) as (r & Hr & Hd).
    exists r. split; [ done | ].
    eapply desc_snoc; [ exact Hd | ]. by apply kids_open_parent.
Qed.

End WellFormed.

(** X6. When the level progression is well formed (it starts at level 1,
    no level is below 1 and none is more than one above the level before
    it), no record is dropped: in every run that returns, every level-1
    record is written as a header exactly once and every other record is
    the component of exactly one row. *)
Theorem well_formed_nothing_lost (records : list level_record) (limit : nat)
  (start cur : Z) (ws : list written) :
  well_formed (r_level <$> records) = true →
  Sequential.process_records limit records start = Ok (ws, cur) →
  ∀ c, c < length records →
    in_forest records c ∧
    if decide (lev (store_of records) c = 1%Z)
    then length (filter (λ w, is_material_of c w = true) ws) = 1
    else length (filter (λ w, is_component_for c w = true) ws) = 1.
Proof.
  intros Hwf Hrun c Hc.
  pose proof (wf_in_forest records Hwf c Hc) as Hf. split; [ done | ].
  destruct (decide (lev (store_of records) c = 1%Z)) as [Hl | Hl].
  - apply (run_material_once _ _ _ _ _ Hrun c Hf). left. by apply roots_level1.
  - assert (Hr : c ∉ roots_of records).
    { intros Hr. apply roots_level1 in Hr. tauto. }
    destruct (in_forest_parent records c Hf Hr) as (p & Hp & Hkid).
    by apply (run_component_once _ _ _ _ _ Hrun p c).
Qed.

Lemma well_formed_nothing_lost_witness :
  well_formed (r_level <$> demo_records) = true ∧
  Sequential.process_records 8 demo_records 9 = Ok (demo_rows, 20%Z) ∧
  5 < length demo_records ∧
  in_forest demo_records 5 ∧
  length (filter (λ w, is_component_for 5 w = true) demo_rows) = 1.
Proof.
  split; [ reflexivity | ]. split; [ reflexivity | ].
  assert (Hlt : 5 < length demo_records) by (simpl; lia).
  split; [ exact Hlt | ].
  exact (well_formed_nothing_lost demo_records 8 9 20%Z demo_rows
           eq_refl eq_refl 5 Hlt).
Defined.

(** ** Groups *)

Lemma level1_refs_increasing items : ∀ j i1 i2 r1 r2,
  Sequential.level1_refs j items !! i1 = Some r1 →
  Sequential.level1_refs j items !! i2 = Some r2 →
  i1 < i2 → r1 < r2.
Proof.
  induction items as [ | it items IH ]; intros j i1 i2 r1 r2 H1 H2 Hlt; simpl in *;
    [ discriminate | ].
  destruct (level it =? 1)%Z; [ | eapply IH; eauto ].
  destruct i1 as [ | i1 ], i2 as [ | i2 ]; simpl in *; try lia.
  - inversion H1; subst r1.
    assert (Hin : r2 ∈ Sequential.level1_refs (S j) items)
      by (apply list_elem_of_lookup; eauto).
    apply level1_refs_spec in Hin. lia.
  - eapply IH; eauto. lia.
Qed.

(** X7. In every run that returns, the rows are the groups of the roots
    one after the other, in the order of the level-1 records in the
    input: each group starts with the header row of its root and
    contains only rows whose material is that root or below it. *)
Theorem groups_in_root_order (records : list level_record) (limit : nat)
  (start cur : Z) (ws : list written) :
  Sequential.process_records limit records start = Ok (ws, cur) →
  ∃ groups,
    ws = concat groups ∧
    Forall2 (λ r g, ∃ rq rest,
               records !! r = Some rq ∧ g = (Material r, Header rq) :: rest ∧
               ∀ w, w ∈ g → desc (store_of records) r (parent_ref w))
            (roots_of records) groups ∧
    ∀ i j r r', roots_of records !! i = Some r → roots_of records !! j = Some r' →
      i < j → r < r'.
Proof.
  intros Hrun. rewrite process_records_unfold in Hrun.
  unfold Sequential.write_hierarchy_ordered in Hrun. bind_inv Hrun.
  inversion Hrun; subst a cur. clear Hrun.
  apply for_each_Ok in Ha. destruct Ha as (groups & HF & ->).
  exists groups. split; [ done | ]. split.
  - eapply Forall2_impl; [ exact HF | ]. intros r g Hg. simpl in Hg.
    pose proof (write_level1_covers records limit r g Hg) as [Hcov _].
    destruct (write_level1_siblings_first _ _ _ _ Hg)
      as (m & comps & deeper & -> & Hm & _ & _).
    apply write_material_Ok in Hm. destruct Hm as (ri & Hri & ->).
    rewrite store_lookup in Hri.
    destruct (records !! r) as [rq | ]; [ | discriminate ].
    simpl in Hri. inversion Hri; subst ri.
    exists rq, (comps ++ deeper). split; [ done | ]. split; [ done | ].
    intros w Hw. by apply Hcov.
  - intros i j r r'. apply level1_refs_increasing.
Qed.

Lemma groups_in_root_order_witness :
  Sequential.process_records 8 demo_records 9 = Ok (demo_rows, 20%Z) ∧
  ∃ groups,
    demo_rows = concat groups ∧
    Forall2 (λ r g, ∃ rq rest,
               demo_records !! r = Some rq ∧ g = (Material r, Header rq) :: rest ∧
               ∀ w, w ∈ g → desc (store_of demo_records) r (parent_ref w))
            (roots_of demo_records) groups ∧
    ∀ i j r r', roots_of demo_records !! i = Some r →
      roots_of demo_records !! j = Some r' → i < j → r < r'.
Proof.
  split; [ reflexivity | ].
  apply (groups_in_root_order demo_records 8 9 20%Z demo_rows).
  reflexivity.
Defined.

(** ** Where siblings come before grandchildren *)

Section ChildFirst.
Variable records : list level_record.
Local Abbreviation items := (store_of records).

Lemma child_first_app p l1 l2 :
  child_first items p (l1 ++ l2) ↔
  child_first items p l1 ∧ child_first items p l2 ∧
  (∀ w w', w ∈ l1 → parent_ref w ∈ kids items p → w' ∈ l2 →
           is_component_of p w' = false).
Proof.
  induction l1 as [ | a l1 IH ]; simpl.
  - split; [ intros H | tauto ].
    split; [ done | ]. split; [ done | ]. intros w w' Hw. inversion Hw.
  - rewrite IH. split.
    + intros (Ha & H1 & H2 & Hx). split; [ split; [ | done ] | split; [ done | ] ].
      * intros Hk w' Hw'. apply Ha; [ done | ]. apply elem_of_app. by left.
      * intros w w' Hw Hk Hw'. apply elem_of_cons in Hw. destruct Hw as [-> | Hw].
        -- apply Ha; [ done | ]. apply elem_of_app. by right.
        -- eapply Hx; eauto.
    + intros ((Ha & H1) & H2 & Hx). split; [ | split; [ done | split; [ done | ] ] ].
      * intros Hk w' Hw'. apply elem_of_app in Hw'. destruct Hw' as [Hw' | Hw'].
        -- by apply Ha.
        -- apply (Hx a w'); [ by left | done | done ].
      * intros w w' Hw Hk Hw'. apply (Hx w w'); [ by right | done | done ].
Qed.

Lemma child_first_no_component p l :
  (∀ w, w ∈ l → is_component_of p w = false) → child_first items p l.
Proof.
  induction l as [ | a l IH ]; intros H; simpl; [ done | ].
  split.
  - intros _ w' Hw'. apply H. by right.
  - apply IH. intros w Hw. apply H. by right.
Qed.

Lemma child_first_no_child p l :
  (∀ w, w ∈ l → parent_ref w ∉ kids items p) → child_first items p l.
Proof.
  induction l as [ | a l IH ]; intros H; simpl; [ done | ].
  split.
  - intros Hk. exfalso. apply (H a); [ by left | done ].
  - apply IH. intros w Hw. apply H. by right.
Qed.

Lemma component_of_parent p w : is_component_of p w = true → parent_ref w = p.
Proof.
  destruct w as [[q | q c] row]; unfold is_component_of, parent_ref; simpl;
    [ discriminate | ]. intros H. by apply Nat.eqb_eq in H.
Qed.

Lemma not_component_of p w : parent_ref w ≠ p → is_component_of p w = false.
Proof.
  intros H. destruct (is_component_of p w) eqn:Hc; [ | done ].
  apply component_of_parent in Hc. done.
Qed.

(** The index form of [child_first]. *)
Lemma child_first_lookup p ws :
  child_first items p ws →
  ∀ i j wi wj c, ws !! i = Some wi → ws !! j = Some wj →
    fst wi = Component p c → parent_ref wj ∈ kids items p → i < j.
Proof.
  induction ws as [ | a ws IH ]; intros Hsf i j wi wj c Hi Hj Hf Hk;
    [ discriminate | ].
  destruct Hsf as [Ha Hrest].
  destruct i as [ | i ], j as [ | j ]; simpl in *.
  - inversion Hi; subst. inversion Hj; subst.
    apply kid_gt in Hk. unfold parent_ref in Hk. rewrite Hf in Hk. lia.
  - lia.
  - exfalso. inversion Hj; subst a.
    assert (Hc : is_component_of p wi = false).
    { apply Ha; [ done | ]. apply list_elem_of_lookup. eauto. }
    unfold is_component_of in Hc. rewrite Hf, Nat.eqb_refl in Hc. discriminate.
  - apply -> Nat.succ_lt_mono. eapply IH; eauto.
Qed.

(** Rows below different dicts of the same level do not concern the same
    material. *)
Lemma child_first_concat p (R : nat → list written → Prop) cs blocks :
  Forall2 R cs blocks → NoDup cs →
  (∀ c b, c ∈ cs → R c b → child_first items p b) →
  (∀ c c' b b' w w', c ∈ cs → c' ∈ cs → R c b → R c' b' →
     w ∈ b → parent_ref w ∈ kids items p → w' ∈ b' →
     is_component_of p w' = true → c = c') →
  child_first items p (concat blocks).
Proof.
  induction 1 as [ | c b cs blocks HR HF IH ]; intros Hnd Hsf Hcross; [ done | ].
  apply NoDup_cons in Hnd. destruct Hnd as [Hnotin Hnd].
  simpl. apply child_first_app. split; [ | split ].
  - apply (Hsf c b); [ by left | done ].
  - apply IH; [ done | | ].
    + intros c' b' Hc'. apply Hsf. by right.
    + intros c1 c2 b1 b2 w w' H1 H2. apply Hcross; by right.
  - intros w w' Hw Hk Hw'.
    destruct (is_component_of p w') eqn:Hc; [ exfalso | done ].
    destruct (elem_of_concat_Forall2 _ _ _ _ HF Hw') as (c' & b' & Hc' & HR' & Hwb').
    assert (c = c').
    { apply (Hcross c c' b b' w w'); try done; [ by left | by right ]. }
    subst c'. done.
Qed.

(** A row below [c] whose material is a child of [p] puts [p] below [c],
    unless [c] itself is that child. *)
Lemma child_row_below c x p :
  desc items c x → x ∈ kids items p → x = c ∨ desc items c p.
Proof.
  intros Hd Hk. apply desc_last_step in Hd. destruct Hd as [-> | (p' & Hd & Hx)].
  - by left.
  - right. assert (p' = p) by (eapply kid_unique_parent; eauto). by subst.
Qed.

(** The rows of one dict, its components and the rows of its children,
    however the latter are arranged among each other, provided the rows
    of each child are in order. *)
Lemma child_first_cross_blocks q p c c' (b b' : list written) w w' :
  p ≠ q → c ∈ kids items q → c' ∈ kids items q →
  (∀ w, w ∈ b → desc items c (parent_ref w)) →
  (∀ w, w ∈ b' → desc items c' (parent_ref w)) →
  w ∈ b → parent_ref w ∈ kids items p → w' ∈ b' →
  is_component_of p w' = true → c = c'.
Proof.
  intros Hpq Hc Hc' Hb Hb' Hw Hk Hw' Hcomp.
  apply component_of_parent in Hcomp.
  pose proof (Hb' w' Hw') as Hd'. rewrite Hcomp in Hd'.
  destruct (child_row_below c _ p (Hb w Hw) Hk) as [Hx | Hd].
  - exfalso. rewrite Hx in Hk. apply Hpq. eapply kid_unique_parent; eauto.
  - eapply desc_same_level; eauto. eapply kids_same_level; eauto.
Qed.

Lemma child_first_node q p m comps blocks :
  parent_ref m = q → (∀ w, w ∈ comps → parent_ref w = q) →
  Forall2 (λ c b, (∀ w, w ∈ b → desc items c (parent_ref w)) ∧
                  (p ≠ q → child_first items p b))
          (kids items q) blocks →
  child_first items p (m :: comps ++ concat blocks).
Proof.
  intros Hm Hcomps HF.
  assert (Hblocks : ∀ w, w ∈ concat blocks →
            ∃ c, c ∈ kids items q ∧ desc items c (parent_ref w)).
  { intros w Hw. destruct (elem_of_concat_Forall2 _ _ _ _ HF Hw)
      as (c & b & Hc & [Hd _] & Hwb). eauto. }
  assert (Hhead : ∀ w, w ∈ m :: comps → parent_ref w = q).
  { intros w Hw. apply elem_of_cons in Hw. destruct Hw as [-> | Hw]; eauto. }
  change (m :: comps ++ concat blocks) with ((m :: comps) ++ concat blocks).
  apply child_first_app.
  destruct (decide (p = q)) as [-> | Hpq].
  - split; [ | split ].
    + apply child_first_no_child. intros w Hw Hk. rewrite (Hhead w Hw) in Hk.
      apply kid_gt in Hk. lia.
    + apply child_first_no_component. intros w Hw. apply not_component_of.
      destruct (Hblocks w Hw) as (c & Hc & Hd). eapply desc_kid_ne; eauto.
    + intros w w' Hw Hk. rewrite (Hhead w Hw) in Hk. apply kid_gt in Hk. lia.
  - split; [ | split ].
    + apply child_first_no_component. intros w Hw. apply not_component_of.
      rewrite (Hhead w Hw). done.
    + eapply child_first_concat; [ exact HF | apply kids_NoDup | | ].
      * intros c b Hc [_ Hsf]. by apply Hsf.
      * intros c c' b b' w w' Hc Hc' [Hb _] [Hb' _] Hw Hk Hw' Hcomp.
        eapply (child_first_cross_blocks q p); eauto.
    + intros w w' Hw Hk Hw'. apply not_component_of. intros Hp.
      rewrite (Hhead w Hw) in Hk. apply kid_gt in Hk.
      destruct (Hblocks w' Hw') as (c & Hc & Hd). rewrite Hp in Hd.
      apply kid_gt in Hc. apply desc_between in Hd. lia.
Qed.

Lemma Forall2_impl_elem {A B} (P Q : A → B → Prop) l k :
  Forall2 P l k → (∀ x y, x ∈ l → P x y → Q x y) → Forall2 Q l k.
Proof.
  induction 1 as [ | x y l k HP HF IH ]; intros HPQ; constructor.
  - apply HPQ; [ by left | done ].
  - apply IH. intros x' y' Hx'. apply HPQ. by right.
Qed.

Lemma covers_desc always q ws w :
  covers items always q ws → w ∈ ws → desc items q (parent_ref w).
Proof. intros [Ha _] Hw. by destruct (Ha w Hw). Qed.

(** [write_deeper_levels] keeps the order for every material. *)
Lemma write_deeper_levels_child_first limit : ∀ q p ws,
  Sequential.write_deeper_levels items limit q = Ok ws →
  child_first items p ws.
Proof.
  induction limit as [ | limit IH ]; intros q p ws H; [ discriminate | ].
  destruct (kids items q) as [ | c cs ] eqn:Hk.
  - simpl in H. bind_inv H. apply children_of_Ok in Ha. destruct Ha as [_ ->].
    rewrite Hk in H. inversion H. done.
  - destruct (write_deeper_levels_siblings_first _ _ _ _ H)
      as (m & comps & deeper & -> & Hm & Hcomps & Hdeeper); [ by rewrite Hk | ].
    apply for_each_Ok in Hdeeper. destruct Hdeeper as (blocks & HF & ->).
    apply (child_first_node q p).
    + apply write_material_Ok in Hm. destruct Hm as (qi & _ & ->). done.
    + eapply write_components_parent; eauto.
    + eapply Forall2_impl; [ exact HF | ]. intros c' b Hb. simpl in Hb. split.
      * intros w Hw. eapply covers_desc; [ | exact Hw ].
        eapply write_deeper_levels_covers; eauto.
      * intros _. eapply IH; eauto.
Qed.

(** The rows of the loop over the level-4 items are component rows of
    the level-3 item or rows below one of the level-4 items. *)
Lemma write_level4_below limit q cs n ws w :
  Sequential.write_level4 items limit q cs n = Ok ws → w ∈ ws →
  parent_ref w = q ∨ ∃ c, c ∈ cs ∧ desc items c (parent_ref w).
Proof.
  intros H Hw.
  destruct (write_level4_rows records _ _ _ _ _ H)
    as (comps & blocks & Hcomps & HF & Hin & _).
  apply Hin in Hw. apply elem_of_app in Hw. destruct Hw as [Hw | Hw].
  - left. eapply write_components_parent; eauto.
  - right. destruct (elem_of_concat_Forall2 _ _ _ _ HF Hw) as (c & b & Hc & Hb & Hwb).
    exists c. split; [ done | ].
    eapply covers_desc; [ | exact Hwb ].
    eapply write_deeper_levels_covers; eauto.
Qed.

(** The loop over the level-4 items keeps the order for every material
    other than the level-3 item itself. *)
Lemma write_level4_child_first limit q p cs :
  p ≠ q → NoDup cs → (∀ c, c ∈ cs → c ∈ kids items q) →
  ∀ n ws, Sequential.write_level4 items limit q cs n = Ok ws →
          child_first items p ws.
Proof.
  intros Hpq. induction cs as [ | c cs IH ]; intros Hnd Hsub n ws H; simpl in H.
  - inversion H. done.
  - bind_inv H. bind_inv H. bind_inv H. inversion H; subst ws. clear H.
    apply NoDup_cons in Hnd. destruct Hnd as [Hnotin Hnd].
    assert (Hc : c ∈ kids items q) by (apply Hsub; by left).
    assert (Hsub' : ∀ c', c' ∈ cs → c' ∈ kids items q).
    { intros c' Hc'. apply Hsub. by right. }
    assert (Hpa : parent_ref a = q).
    { unfold Sequential.write_component in Ha. bind_inv Ha. bind_inv Ha.
      inversion Ha. done. }
    assert (Hdeep : ∀ w, w ∈ a0 → desc items c (parent_ref w)).
    { intros w Hw. eapply covers_desc; [ | exact Hw ].
      eapply write_deeper_levels_covers; eauto. }
    assert (Hrest : ∀ w, w ∈ a1 → is_component_of p w = true → ∃ c', c' ∈ cs ∧
              desc items c' p).
    { intros w Hw Hcomp. apply component_of_parent in Hcomp.
      destruct (write_level4_below _ _ _ _ _ _ Ha1 Hw) as [Hq | (c' & Hc' & Hd)].
      - congruence.
      - exists c'. rewrite <- Hcomp. done. }
    change (a :: a0 ++ a1) with ([a] ++ a0 ++ a1).
    apply child_first_app. split; [ | split ].
    + apply child_first_no_component. intros w Hw. apply not_component_of.
      apply list_elem_of_singleton in Hw. subst w. congruence.
    + apply child_first_app. split; [ | split ].
      * eapply write_deeper_levels_child_first; eauto.
      * eapply IH; eauto.
      * intros w w' Hw Hk Hw'.
        destruct (is_component_of p w') eqn:Hcomp; [ exfalso | done ].
        destruct (Hrest w' Hw' Hcomp) as (c' & Hc' & Hd').
        destruct (child_row_below c _ p (Hdeep w Hw) Hk) as [Hx | Hd].
        -- rewrite Hx in Hk. apply Hpq. eapply kid_unique_parent; eauto.
        -- apply Hnotin. replace c with c'; [ done | ].
           eapply desc_same_level; eauto. eapply kids_same_level; eauto.
    + intros w w' Hw Hk Hw'. apply list_elem_of_singleton in Hw. subst w.
      rewrite Hpa in Hk. apply not_component_of. intros Hp.
      apply kid_gt in Hk. apply elem_of_app in Hw'. destruct Hw' as [Hw' | Hw'].
      * pose proof (Hdeep w' Hw') as Hd. rewrite Hp in Hd.
        apply kid_gt in Hc. apply desc_between in Hd. lia.
      * destruct (write_level4_below _ _ _ _ _ _ Ha1 Hw') as [Hq | (c' & Hc' & Hd)];
          [ lia | ].
        rewrite Hp in Hd. apply Hsub', kid_gt in Hc'. apply desc_between in Hd. lia.
Qed.

Lemma write_level3_child_first limit q p ws :
  p ≠ q → Sequential.write_level3 items limit q = Ok ws → child_first items p ws.
Proof.
  unfold Sequential.write_level3. intros Hpq H.
  bind_inv H. apply children_of_Ok in Ha. destruct Ha as [Hp ->].
  destruct (kids items q) as [ | c cs ] eqn:Hk.
  - inversion H. done.
  - bind_inv H. bind_inv H. inversion H; subst ws. clear H.
    rewrite <- Hk in *.
    assert (Hpa : parent_ref a = q).
    { apply write_material_Ok in Ha. destruct Ha as (qi & _ & ->). done. }
    change (a :: a0) with ([a] ++ a0).
    apply child_first_app. split; [ | split ].
    + apply child_first_no_component. intros w Hw. apply not_component_of.
      apply list_elem_of_singleton in Hw. subst w. congruence.
    + eapply write_level4_child_first; eauto. apply kids_NoDup.
    + intros w w' Hw Hkp Hw'. apply list_elem_of_singleton in Hw. subst w.
      rewrite Hpa in Hkp. apply not_component_of. intros Hpw.
      apply kid_gt in Hkp.
      destruct (write_level4_below _ _ _ _ _ _ Ha0 Hw') as [Hq | (c' & Hc' & Hd)];
        [ lia | ].
      rewrite Hpw in Hd. apply kid_gt in Hc'. apply desc_between in Hd. lia.
Qed.

Lemma write_level2_child_first limit q p ws :
  lev items q = 2%Z → lev items p ≠ 3%Z →
  Sequential.write_level2 items limit q = Ok ws → child_first items p ws.
Proof.
  intros Hq Hp H.
  destruct (kids items q) as [ | c cs ] eqn:Hk.
  - unfold Sequential.write_level2 in H. bind_inv H.
    apply children_of_Ok in Ha. destruct Ha as [_ ->].
    rewrite Hk in H. inversion H. done.
  - destruct (write_level2_siblings_first _ _ _ _ H)
      as (m & comps & deeper & -> & Hm & Hcomps & Hdeeper); [ by rewrite Hk | ].
    apply for_each_Ok in Hdeeper. destruct Hdeeper as (blocks & HF & ->).
    apply (child_first_node q p).
    + apply write_material_Ok in Hm. destruct Hm as (qi & _ & ->). done.
    + eapply write_components_parent; eauto.
    + eapply Forall2_impl_elem; [ exact HF | ].
      intros c' b Hc' Hb. simpl in Hb. split.
      * intros w Hw. eapply covers_desc; [ | exact Hw ].
        eapply write_level3_covers; eauto.
      * intros _. eapply write_level3_child_first; [ | exact Hb ].
        intros ->. apply kid_level in Hc'. lia.
Qed.

Lemma write_level1_child_first limit q p ws :
  lev items q = 1%Z → lev items p ≠ 3%Z →
  Sequential.write_level1 items limit q = Ok ws → child_first items p ws.
Proof.
  intros Hq Hp H.
  destruct (write_level1_siblings_first _ _ _ _ H)
    as (m & comps & deeper & -> & Hm & Hcomps & Hdeeper).
  apply for_each_Ok in Hdeeper. destruct Hdeeper as (blocks & HF & ->).
  apply (child_first_node q p).
  - apply write_material_Ok in Hm. destruct Hm as (qi & _ & ->). done.
  - eapply write_components_parent; eauto.
  - eapply Forall2_impl_elem; [ exact HF | ].
    intros c' b Hc' Hb. simpl in Hb. split.
    + intros w Hw. eapply covers_desc; [ | exact Hw ].
      eapply write_level2_covers; eauto.
    + intros _. eapply write_level2_child_first; [ | done | exact Hb ].
      apply kid_level in Hc'. lia.
Qed.

(** The whole run keeps the order for every material that is not on
    level 3. *)
Lemma run_child_first limit start cur ws p :
  Sequential.process_records limit records start = Ok (ws, cur) →
  lev items p ≠ 3%Z → child_first items p ws.
Proof.
  intros Hrun Hp. rewrite process_records_unfold in Hrun.
  unfold Sequential.write_hierarchy_ordered in Hrun. bind_inv Hrun.
  inversion Hrun; subst a cur. clear Hrun.
  apply for_each_Ok in Ha. destruct Ha as (groups & HF & ->).
  assert (Hbelow : ∀ r g w, Sequential.write_level1 items limit r = Ok g → w ∈ g →
            desc items r (parent_ref w)).
  { intros r g w Hg Hw. eapply covers_desc; [ | exact Hw ].
    eapply write_level1_covers; eauto. }
  eapply child_first_concat; [ exact HF | apply roots_NoDup | | ].
  - intros r g Hr Hg. simpl in Hg.
    eapply write_level1_child_first; [ | done | exact Hg ].
    apply roots_level1 in Hr. tauto.
  - intros r r' g g' w w' Hr Hr' Hg Hg' Hw Hk Hw' Hcomp. simpl in Hg, Hg'.
    apply component_of_parent in Hcomp.
    pose proof (Hbelow r' g' w' Hg' Hw') as Hd'. rewrite Hcomp in Hd'.
    pose proof (Hbelow r g w Hg Hw) as Hd.
    apply (desc_same_level records r r' (parent_ref w)); [ done | | ].
    + eapply desc_snoc; eauto.
    + apply roots_level1 in Hr, Hr'. destruct Hr as [_ ->], Hr' as [_ ->]. done.
Qed.

End ChildFirst.

(** X8. Outside level 3 the order of the docstring holds in every run:
    when the material [p] of a component row is not a level-3 record,
    that row is written before every row whose material is a child of
    [p], so all component rows of [p] come before the rows of its
    children. The loops for level 1 and level 2 and
    [write_deeper_levels] (level 4 and deeper) write the components
    first and descend in a second loop. *)
Theorem siblings_first_outside_level3 (records : list level_record)
  (limit : nat) (start cur : Z) (ws : list written)
  (i j : nat) (wi wj : written) (p c : nat) :
  Sequential.process_records limit records start = Ok (ws, cur) →
  ws !! i = Some wi → ws !! j = Some wj →
  fst wi = Component p c →
  parent_ref wj ∈ kids (store_of records) p →
  lev (store_of records) p ≠ 3%Z →
  i < j.
Proof.
  intros Hrun Hi Hj Hf Hk Hp.
  eapply (child_first_lookup records p ws); eauto.
  eapply run_child_first; eauto.
Qed.

Lemma siblings_first_outside_level3_witness :
  Sequential.process_records 8 demo_records 9 = Ok (demo_rows, 20%Z) ∧
  6 ∈ kids (store_of demo_records) 0 ∧ 1 ∈ kids (store_of demo_records) 0 ∧
  lev (store_of demo_records) 0 ≠ 3%Z ∧ 2 < 3.
Proof.
  assert (Hk : ∀ c, c = 1 ∨ c = 6 → c ∈ kids (store_of demo_records) 0).
  { intros c [-> | ->]; apply list_elem_of_In; vm_compute; tauto. }
  assert (Hl : lev (store_of demo_records) 0 ≠ 3%Z) by (vm_compute; discriminate).
  split; [ reflexivity | ]. split; [ apply Hk; tauto | ].
  split; [ apply Hk; tauto | ]. split; [ exact Hl | ].
  eapply (siblings_first_outside_level3 demo_records 8 9 20%Z demo_rows 2 3 _ _ 0 6).
  - reflexivity.
  - reflexivity.
  - reflexivity.
  - reflexivity.
  - apply Hk. left. reflexivity.
  - exact Hl.
Defined.

(** X9. When no record is on level 5, the order of the docstring holds
    for the whole output: every component row is written before every
    row whose material is a child of the row's material. A level-3
    record can only have its rows interleaved when one of its children
    has children of its own, that is, when there is a level-5 record. *)
Theorem siblings_first_without_level5 (records : list level_record)
  (limit : nat) (start cur : Z) (ws : list written) :
  Sequential.process_records limit records start = Ok (ws, cur) →
  Forall (λ r, r_level r ≠ 5%Z) records →
  siblings_first (store_of records) ws.
Proof.
  intros Hrun Hno i j wi wj p c Hi Hj Hf Hk.
  destruct (decide (lev (store_of records) p = 3%Z)) as [Hp | Hp].
  - exfalso.
    assert (Hwj : wj ∈ ws) by (apply list_elem_of_lookup; eauto).
    destruct (run_covers records limit start cur ws Hrun) as (_ & HA & _).
    destruct (HA wj Hwj) as (r & Hr & Hd & Hq).
    pose proof (kid_level records _ _ Hk) as Hl.
    destruct Hq as [Hq | Hq].
    + apply roots_level1 in Hr. destruct Hr as [_ Hr]. rewrite <- Hq in Hr. lia.
    + destruct (kids (store_of records) (parent_ref wj)) as [ | k ks ] eqn:Hks;
        [ done | ].
      assert (Hkk : k ∈ kids (store_of records) (parent_ref wj)).
      { rewrite Hks. by left. }
      pose proof (kid_level records _ _ Hkk) as Hlk.
      pose proof (kid_lt_length records _ _ Hkk) as Hlen.
      rewrite store_length in Hlen.
      destruct (lookup_lt_is_Some_2 records k Hlen) as [rk Hrk].
      rewrite lev_store, Hrk in Hlk. simpl in Hlk.
      rewrite Forall_forall in Hno. apply (Hno rk).
      * apply list_elem_of_lookup. eauto.
      * lia.
  - eapply (child_first_lookup records p ws); eauto.
    eapply run_child_first; eauto.
Qed.

Lemma siblings_first_without_level5_witness :
  Sequential.process_records 7 shallow_records 9 = Ok (shallow_rows, 18%Z) ∧
  Forall (λ r, r_level r ≠ 5%Z) shallow_records ∧
  siblings_first (store_of shallow_records) shallow_rows.
Proof.
  assert (Hno : Forall (λ r, r_level r ≠ 5%Z) shallow_records).
  { repeat (constructor; [ discriminate | ]). constructor. }
  split; [ reflexivity | ]. split; [ exact Hno | ].
  apply (siblings_first_without_level5 shallow_records 7 9 18%Z shallow_rows);
    [ reflexivity | exact Hno ].
Defined.

(** ** The two builders *)

(** The first pass of [build_hierarchy_map] reads the rows as the first
    loop of [build_hierarchy_structure] does, and keeps the data-frame
    index of each. *)
Lemma collect_extract rows : ∀ i,
  match Sequential.extract_rows rows with
  | Raise e => Optimized.collect i rows = Raise e
  | Ok records =>
      ∃ ents, Optimized.collect i rows = Ok ents ∧
        snd <$> ents = new_item <$> records ∧
        Forall2 (λ e r, i ≤ fst e ∧ ∃ row, rows !! (fst e - i) = Some row ∧
                   Sequential.extract_row row = Ok (Some r)) ents records ∧
        StronglySorted lt (fst <$> ents)
  end.
Proof.
  induction rows as [ | row rows IH ]; intros i; simpl.
  - exists []. repeat split; constructor.
  - destruct (Sequential.extract_row row) as [r | e] eqn:Hrow; simpl; [ | done ].
    specialize (IH (S i)).
    destruct (Sequential.extract_rows rows) as [records | e]; simpl;
      [ | rewrite IH; done ].
    destruct IH as (ents & -> & Hsnd & HF & Hsorted). simpl.
    assert (HF' : Forall2 (λ e r0, i ≤ fst e ∧ ∃ row0,
                     (row :: rows) !! (fst e - i) = Some row0 ∧
                     Sequential.extract_row row0 = Ok (Some r0)) ents records).
    { eapply Forall2_impl; [ exact HF | ].
      intros e r0 (Hle & row0 & Hrow0 & Hex). split; [ lia | ].
      exists row0. replace (fst e - i) with (S (fst e - S i)) by lia. done. }
    destruct r as [r | ].
    + exists ((i, new_item r) :: ents). split; [ done | ]. split; [ | split ].
      * rewrite !fmap_cons, Hsnd. done.
      * constructor; [ | exact HF' ]. simpl. split; [ lia | ].
        exists row. rewrite Nat.sub_diag. done.
      * rewrite fmap_cons. constructor; [ done | ].
        apply Forall_fmap. apply Forall_forall. intros e He.
        apply list_elem_of_lookup in He. destruct He as [k Hk].
        destruct (Forall2_lookup_l _ _ _ _ _ HF Hk) as (r0 & _ & Hle & _).
        simpl. lia.
    + exists ents. done.
Qed.

(** The keys appended by the link loop of [build_hierarchy_map] are the
    keys of the positions appended by the link loop of
    [build_hierarchy_structure]. *)
Lemma opt_find_children_keys (ents : list (nat * item)) L j :
  Optimized.find_children L (drop j ents) =
  key_of ents <$> Sequential.find_children L j (drop j (snd <$> ents)).
Proof.
  pose proof (opt_find_children_positions L (drop j ents) j) as HF.
  rewrite fmap_drop in HF.
  apply list_eq_Forall2. apply Forall2_fmap_r.
  eapply Forall2_impl; [ exact HF | ].
  intros idx p (Hle & it & Hp). simpl.
  rewrite lookup_drop in Hp. replace (j + (p - j)) with p in Hp by lia.
  unfold key_of. rewrite Hp. done.
Qed.

(** The two first passes and the two link loops, side by side. *)
Lemma builders_agree_facts (df : list raw_row) :
  match Sequential.extract df with
  | Raise e => Optimized.first_pass df = Raise e
  | Ok records =>
      ∃ ents, Optimized.first_pass df = Ok ents ∧
        Forall2 (λ e r, ∃ row, df !! fst e = Some row ∧
                   Sequential.extract_row row = Ok (Some r)) ents records ∧
        StronglySorted lt (fst <$> ents) ∧
        fst <$> Optimized.second_pass ents = fst <$> ents ∧
        snd <$> Optimized.second_pass ents = rekey ents <$> store_of records
  end.
Proof.
  unfold Sequential.extract, Optimized.first_pass.
  pose proof (collect_extract (tail df) 1) as H.
  destruct (Sequential.extract_rows (tail df)) as [records | e]; [ | done ].
  destruct H as (ents & Hents & Hsnd & HF & Hsorted).
  exists ents. split; [ done | ]. split; [ | split; [ done | ] ].
  - eapply Forall2_impl; [ exact HF | ].
    intros e r (Hle & row & Hrow & Hex). exists row. split; [ | done ].
    destruct df as [ | h rows ]; [ done | ]. simpl in Hrow.
    replace (fst e) with (S (fst e - 1)) by lia. done.
  - rewrite second_pass_updated, store_of_linked, <- Hsnd.
    split; apply list_eq; intros k; rewrite !list_lookup_fmap, updated_lookup.
    + destruct (ents !! k) as [[idx it] | ]; done.
    + unfold linked. rewrite updated_lookup, list_lookup_fmap.
      destruct (ents !! k) as [[idx it] | ] eqn:Hk; [ | done ].
      simpl. f_equal. unfold opt_upd, seq_upd, rekey. simpl.
      assert (Hnil : children it = []).
      { assert (Hit : (snd <$> ents) !! k = Some it)
          by (rewrite list_lookup_fmap, Hk; done).
        rewrite Hsnd, list_lookup_fmap in Hit.
        destruct (records !! k) as [r | ]; [ | discriminate ].
        simpl in Hit. inversion Hit. done. }
      unfold append_children. simpl. rewrite Hnil. simpl.
      rewrite (opt_find_children_keys ents (level it) (S k)). done.
Qed.


(** ** When the run fails *)






(** ** The level-wise writer of simple_excel_processor *)

Section SimpleWriter.
Import SimpleBom.

Local Abbreviation on_level l := (λ it : level_item, s_level it = l).






















End SimpleWriter.




(** ** The hierarchies and the writer of optimized_processor *)

Lemma for_all_fmap {A B C} (f : B → res C) (g : A → B) (h : A → C) (l : list A) :
  Forall (λ x, f (g x) = Ok (h x)) l →
  Optimized.for_all f (g <$> l) = Ok (h <$> l).
Proof.
  induction 1 as [ | x l Hx HF IH ]; [ done | ].
  rewrite !fmap_cons. simpl. rewrite Hx, ret_bind, IH. done.
Qed.

Lemma get_lookup (items : list (nat * item)) : ∀ p k it,
  NoDup (fst <$> items) → items !! p = Some (k, it) →
  Optimized.get items k = Ok it.
Proof.
  induction items as [ | [k0 it0] items IH ]; intros p k it Hnd Hp; [ done | ].
  rewrite fmap_cons in Hnd. apply NoDup_cons in Hnd. destruct Hnd as [Hk0 Hnd].
  simpl. destruct (Nat.eqb_spec k0 k) as [-> | Hne].
  - destruct p as [ | p ]; simpl in Hp; [ by inversion Hp | ].
    exfalso. apply Hk0. simpl. apply list_elem_of_fmap.
    exists (k, it). split; [ done | ]. apply list_elem_of_lookup. eauto.
  - destruct p as [ | p ]; simpl in Hp; [ inversion Hp; congruence | ].
    eapply IH; eauto.
Qed.

Lemma StronglySorted_lt_lookup (l : list nat) : ∀ i j x y,
  StronglySorted lt l → l !! i = Some x → l !! j = Some y → i < j → x < y.
Proof.
  induction l as [ | a l IH ]; intros i j x y Hs Hi Hj Hij; [ done | ].
  apply StronglySorted_cons in Hs. destruct Hs as [Hall Hs].
  destruct j as [ | j ]; [ lia | ]. simpl in Hj.
  destruct i as [ | i ]; simpl in Hi.
  - inversion Hi; subst a. rewrite Forall_forall in Hall. apply Hall.
    apply list_elem_of_lookup. eauto.
  - apply (IH i j); [ done | done | done | lia ].
Qed.

Lemma map_fmap {A B} (f : A → B) (l : list A) : map f l = f <$> l.
Proof. reflexivity. Qed.

Lemma flat_map_concat {A B} (f : A → list B) (l : list A) :
  flat_map f l = concat (f <$> l).
Proof.
  induction l as [ | x l IH ]; [ done | ].
  rewrite fmap_cons. simpl. f_equal. exact IH.
Qed.

Lemma StronglySorted_lt_NoDup (l : list nat) : StronglySorted lt l → NoDup l.
Proof.
  induction 1 as [ | a l Hs IH Hall ]; constructor; [ | exact IH ].
  intros Hin. rewrite Forall_forall in Hall. specialize (Hall a Hin). lia.
Qed.

Section OptimizedTree.
Variable records : list level_record.
Variable ents : list (nat * item).
Hypothesis Hkeys : StronglySorted lt (fst <$> ents).
Hypothesis Hfst : fst <$> Optimized.second_pass ents = fst <$> ents.
Hypothesis Hsnd : snd <$> Optimized.second_pass ents = rekey ents <$> store_of records.
Local Abbreviation items := (store_of records).
Local Abbreviation opt_items := (Optimized.second_pass ents).

Lemma ents_length : length ents = length records.
Proof.
  rewrite <- (length_fmap fst ents), <- Hfst, length_fmap.
  rewrite <- (length_fmap snd), Hsnd, length_fmap. apply store_length.
Qed.

Lemma key_of_lookup p : p < length records → (fst <$> ents) !! p = Some (key_of ents p).
Proof.
  intros Hp. unfold key_of. rewrite list_lookup_fmap.
  destruct (lookup_lt_is_Some_2 ents p) as [e ->]; [ rewrite ents_length; done | done ].
Qed.

Lemma key_of_lt p q :
  p < length records → q < length records → p < q → key_of ents p < key_of ents q.
Proof.
  intros Hp Hq Hpq.
  apply (StronglySorted_lt_lookup (fst <$> ents) p q); auto using key_of_lookup.
Qed.

Lemma key_of_inj p q :
  p < length records → q < length records → key_of ents p = key_of ents q → p = q.
Proof.
  intros Hp Hq Heq.
  destruct (Nat.lt_trichotomy p q) as [Hlt | [-> | Hgt]]; [ | done | ].
  - pose proof (key_of_lt p q Hp Hq Hlt). lia.
  - pose proof (key_of_lt q p Hq Hp Hgt). lia.
Qed.

Lemma opt_items_lookup p it :
  items !! p = Some it →
  opt_items !! p = Some (key_of ents p, rekey ents it).
Proof.
  intros Hit.
  assert (Hp : p < length records).
  { rewrite <- store_length. eapply lookup_lt_Some; eauto. }
  assert (H1 : (fst <$> opt_items) !! p = Some (key_of ents p)).
  { rewrite Hfst. by apply key_of_lookup. }
  assert (H2 : (snd <$> opt_items) !! p = Some (rekey ents it)).
  { rewrite Hsnd, list_lookup_fmap, Hit. done. }
  rewrite list_lookup_fmap in H1. rewrite list_lookup_fmap in H2.
  destruct (opt_items !! p) as [[k i] | ]; [ | discriminate ].
  simpl in H1, H2. congruence.
Qed.

Lemma get_key p it :
  items !! p = Some it →
  Optimized.get opt_items (key_of ents p) = Ok (rekey ents it).
Proof.
  intros Hit. apply (get_lookup opt_items p).
  - rewrite Hfst. by apply StronglySorted_lt_NoDup.
  - by apply opt_items_lookup.
Qed.

(** [build_complete_hierarchy] returns the hierarchy of the store. *)
Lemma build_tree_at limit : ∀ p,
  p < length records → length records ≤ limit + p →
  Optimized.build_complete_hierarchy limit opt_items (key_of ents p)
    = Ok (tree_at items ents limit p).
Proof.
  induction limit as [ | limit IH ]; intros p Hp Hl; [ lia | ].
  destruct (lookup_lt_is_Some_2 items p) as [it Hit]; [ by rewrite store_length | ].
  simpl. rewrite (get_key p it Hit), ret_bind, Hit. simpl.
  assert (Hk : kids items p = children it) by (unfold kids; rewrite Hit; done).
  rewrite <- Hk.
  rewrite (for_all_fmap _ (key_of ents) (tree_at items ents limit)); [ done | ].
  apply Forall_forall. intros c Hc. apply IH.
  - rewrite <- store_length. eapply kid_lt_length; eauto.
  - apply kid_gt in Hc. lia.
Qed.

Lemma tree_at_index fuel p : Optimized.index (tree_at items ents fuel p) = key_of ents p.
Proof. destruct fuel; done. Qed.

Lemma tree_at_node fuel p it :
  items !! p = Some it → Optimized.node (tree_at items ents fuel p) = rekey ents it.
Proof. intros Hit. destruct fuel; simpl; rewrite Hit; done. Qed.

Lemma childless_rows limit c b :
  Sequential.write_deeper_levels items limit c = Ok b → kids items c = [] → b = [].
Proof.
  destruct limit as [ | limit ]; [ discriminate | ]. simpl. intros H Hk.
  bind_inv H. apply children_of_Ok in Ha. destruct Ha as [_ ->].
  rewrite Hk in H. by inversion H.
Qed.

(** What the writer does with one child in its second loop. *)
Lemma write_child limit c b :
  Sequential.write_deeper_levels items limit c = Ok b →
  (kids items c ≠ [] →
   Optimized.write_hierarchy_to_bom (tree_at items ents limit c) = retag ents <$> b) →
  match tree_at items ents limit c with
  | Optimized.Node _ _ [] => []
  | Optimized.Node _ _ (_ :: _) =>
      Optimized.write_hierarchy_to_bom (tree_at items ents limit c)
  end = retag ents <$> b.
Proof.
  intros Hb Hw. destruct (kids items c) as [ | c1 cs ] eqn:Hk.
  - rewrite (childless_rows limit c b Hb Hk).
    destruct limit; simpl; [ done | ]. rewrite Hk. done.
  - destruct limit as [ | limit ]; [ discriminate | ].
    specialize (Hw ltac:(done)). rewrite <- Hw.
    simpl. rewrite Hk, fmap_cons. done.
Qed.

Lemma write_tree_node limit p m comps deeper :
  Sequential.write_material items p = Ok m →
  Sequential.write_components items p (kids items p) 10 = Ok comps →
  Sequential.for_each (Sequential.write_deeper_levels items limit) (kids items p)
    = Ok deeper →
  (∀ c b, c ∈ kids items p →
     Sequential.write_deeper_levels items limit c = Ok b → kids items c ≠ [] →
     Optimized.write_hierarchy_to_bom (tree_at items ents limit c) = retag ents <$> b) →
  Optimized.write_hierarchy_to_bom (tree_at items ents (S limit) p)
    = retag ents <$> (m :: comps ++ deeper).
Proof.
  intros Hm Hcomps Hdeeper IH.
  apply write_material_Ok in Hm. destruct Hm as (pi & Hpi & ->).
  apply for_each_Ok in Hdeeper. destruct Hdeeper as (blocks & HF & ->).
  apply write_components_Ok in Hcomps. destruct Hcomps as [Hlen Hrows].
  rewrite fmap_cons, fmap_app.
  set (R1 := retag ents <$> comps). set (R2 := retag ents <$> concat blocks).
  simpl. rewrite Hpi. simpl. subst R1 R2. f_equal.
  rewrite map_fmap, flat_map_concat. f_equal.
  - apply list_eq. intros k.
    rewrite !list_lookup_fmap.
    destruct (comps !! k) as [w | ] eqn:Hw.
    + destruct (Hrows k w Hw) as (c & pi' & ci & Hc & Hpi' & Hci & ->).
      rewrite Hpi in Hpi'. inversion Hpi'; subst pi'.
      rewrite Hc. simpl. rewrite tree_at_index, (tree_at_node limit c ci Hci). done.
    + apply lookup_ge_None in Hw. rewrite Hlen in Hw.
      apply lookup_ge_None in Hw. rewrite Hw. done.
  - assert (HIH : ∀ c b, c ∈ kids items p →
              Sequential.write_deeper_levels items limit c = Ok b →
              match tree_at items ents limit c with
              | Optimized.Node _ _ [] => []
              | Optimized.Node _ _ (_ :: _) =>
                  Optimized.write_hierarchy_to_bom (tree_at items ents limit c)
              end = retag ents <$> b).
    { intros c b Hc Hb. apply write_child; [ done | ]. by apply IH. }
    clear IH Hrows Hlen. revert HIH.
    induction HF as [ | c b cs blocks Hb HF IHF ]; intros HIH; [ done | ].
    rewrite !fmap_cons. simpl. rewrite fmap_app. f_equal.
    + apply HIH; [ by left | done ].
    + apply IHF. intros c' b' Hc'. apply HIH. by right.
Qed.

(** [write_hierarchy_to_bom] on the hierarchy of a dict with children
    writes the rows of [write_deeper_levels], without item numbers. *)
Lemma write_tree limit : ∀ p ws,
  Sequential.write_deeper_levels items limit p = Ok ws → kids items p ≠ [] →
  Optimized.write_hierarchy_to_bom (tree_at items ents limit p) = retag ents <$> ws.
Proof.
  induction limit as [ | limit IH ]; intros p ws H Hk; [ discriminate | ].
  destruct (write_deeper_levels_siblings_first _ _ _ _ H Hk)
    as (m & comps & deeper & -> & Hm & Hcomps & Hdeeper).
  apply write_tree_node; try done.
  intros c b _. apply IH.
Qed.

(** The rows of the hierarchy of a level-1 dict. *)
Lemma write_root limit r g :
  ordered_group items limit r g →
  Optimized.write_hierarchy_to_bom (tree_at items ents (S limit) r) = retag ents <$> g.
Proof.
  intros (m & comps & deeper & -> & Hm & Hcomps & Hdeeper).
  apply write_tree_node; try done.
  intros c b _. apply write_tree.
Qed.

End OptimizedTree.

(** The level-1 entries of the dict are the entries at the positions of
    the roots. *)
Lemma level1_entries (es : list (nat * item)) (its : list item) : ∀ j,
  Forall2 (λ e it, level (snd e) = level it) es its →
  Forall2 (λ e r, j ≤ r ∧ es !! (r - j) = Some e)
    (filter (λ e, level (snd e) = 1%Z) es) (Sequential.level1_refs j its).
Proof.
  intros j HF. revert j.
  induction HF as [ | e it es its He HF IH ]; intros j; [ constructor | ].
  assert (Hshift : Forall2 (λ e0 r, j ≤ r ∧ (e :: es) !! (r - j) = Some e0)
                     (filter (λ e, level (snd e) = 1%Z) es)
                     (Sequential.level1_refs (S j) its)).
  { eapply Forall2_impl; [ apply (IH (S j)) | ].
    intros e0 r [Hle Hr]. split; [ lia | ].
    replace (r - j) with (S (r - S j)) by lia. done. }
  rewrite filter_cons. simpl. rewrite <- He.
  destruct (decide (level (snd e) = 1%Z)) as [H1 | H1].
  - rewrite H1. simpl. constructor; [ | exact Hshift ].
    split; [ lia | ]. by rewrite Nat.sub_diag.
  - destruct (Z.eqb_spec (level (snd e)) 1); [ done | exact Hshift ].
Qed.

Lemma for_all_Forall2 {A B C} (f : A → res C) (h : B → C) (l : list A) (k : list B) :
  Forall2 (λ x y, f x = Ok (h y)) l k → Optimized.for_all f l = Ok (h <$> k).
Proof.
  induction 1 as [ | x y l k Hx HF IH ]; [ done | ].
  rewrite fmap_cons. simpl. rewrite Hx, ret_bind, IH. done.
Qed.

Lemma levels_found_Ok rows : ∀ records,
  Sequential.extract_rows rows = Ok records →
  ∃ ls, Optimized.levels_found rows = Ok ls.
Proof.
  induction rows as [ | row rows IH ]; simpl; intros records H; [ eauto | ].
  bind_inv H. bind_inv H. destruct (IH _ Ha0) as [ls Hls]. rewrite Hls.
  unfold Sequential.extract_row in Ha.
  destruct (isna (cellA row)); [ eauto | ].
  bind_inv Ha. rewrite Ha1. simpl. eauto.
Qed.

(** What [process_aptive_to_bom_optimized] writes, in terms of the store
    of [build_hierarchy_structure]: for each root its header, its
    component rows and then the rows of [write_deeper_levels] for its
    children, without item numbers. *)
Lemma optimized_rows (df : list raw_row) (records : list level_record)
  (limit : nat) (start : Z) :
  Sequential.extract df = Ok records → length records ≤ limit →
  ∃ ents groups,
    Optimized.first_pass df = Ok ents ∧
    StronglySorted lt (fst <$> ents) ∧
    fst <$> Optimized.second_pass ents = fst <$> ents ∧
    snd <$> Optimized.second_pass ents = rekey ents <$> store_of records ∧
    Forall2 (ordered_group (store_of records) (pred limit)) (roots_of records) groups ∧
    Optimized.process_aptive_to_bom_optimized limit df start
      = Ok (retag ents <$> concat groups,
            (start + Z.of_nat (length (concat groups)))%Z).
Proof.
  intros Hex Hlimit.
  pose proof (builders_agree_facts df) as Hagree. rewrite Hex in Hagree.
  destruct Hagree as (ents & Hents & _ & Hkeys & Hfst & Hsnd).
  assert (Hgroups : ∃ groups,
            Forall2 (ordered_group (store_of records) (pred limit))
              (roots_of records) groups).
  { assert (Hall : Forall (λ r, ∃ g, ordered_group (store_of records) (pred limit) r g)
                     (roots_of records)).
    { apply Forall_forall. intros r Hr. apply roots_level1 in Hr.
      destruct Hr as [Hr _].
      destruct (lookup_lt_is_Some_2 (store_of records) r) as [it Hit];
        [ by rewrite store_length | ].
      destruct (write_components_total (store_of records) r it
                  (kids (store_of records) r) 10 Hit) as [comps Hcomps].
      { apply Forall_forall. intros c Hc. eapply kid_lt_length; eauto. }
      destruct (for_each_total
                  (Sequential.write_deeper_levels (store_of records) (pred limit))
                  (kids (store_of records) r)) as [deeper Hdeeper].
      { apply Forall_forall. intros c Hc.
        apply (write_deeper_levels_total records).
        - eapply kid_lt_length; eauto.
        - apply kid_gt in Hc. rewrite store_length. lia. }
      exists ((Material r, Sequential.material_row it) :: comps ++ deeper).
      exists (Material r, Sequential.material_row it), comps, deeper.
      split; [ done | ]. split; [ | done ].
      unfold Sequential.write_material, deref. rewrite Hit. done. }
    clear -Hall. induction Hall as [ | r rs [g Hg] _ [gs IH] ].
    - exists []. constructor.
    - exists (g :: gs). by constructor. }
  destruct Hgroups as [groups Hgroups].
  exists ents, groups. repeat (split; [ done | ]).
  unfold Optimized.process_aptive_to_bom_optimized, Optimized.build_hierarchy_map.
  destruct (levels_found_Ok (tail df) records Hex) as [ls ->].
  rewrite ret_bind, Hents, ret_bind.
  assert (Hthird : Optimized.third_pass limit (Optimized.second_pass ents) =
            Ok ((λ r, (key_of ents r, tree_at (store_of records) ents limit r))
                  <$> roots_of records)).
  { unfold Optimized.third_pass. apply for_all_Forall2.
    assert (Hlev : Forall2 (λ e it, level (snd e) = level it)
                     (Optimized.second_pass ents) (store_of records)).
    { apply Forall2_same_length_lookup. split.
      - rewrite <- (length_fmap snd), Hsnd, length_fmap. done.
      - intros i e it He Hit.
        rewrite (opt_items_lookup records ents Hfst Hsnd i it Hit) in He.
        inversion He. done. }
    eapply Forall2_impl; [ apply (level1_entries _ _ 0 Hlev) | ].
    intros e r [_ He]. rewrite Nat.sub_0_r in He. simpl.
    assert (Hr : r < length records).
    { apply lookup_lt_Some in He.
      rewrite <- (length_fmap snd), Hsnd, length_fmap, store_length in He. done. }
    destruct (lookup_lt_is_Some_2 (store_of records) r) as [it Hit];
      [ by rewrite store_length | ].
    rewrite (opt_items_lookup records ents Hfst Hsnd r it Hit) in He.
    inversion He; subst e. simpl.
    rewrite (build_tree_at records ents Hkeys Hfst Hsnd limit r Hr); [ done | lia ]. }
  rewrite Hthird, ret_bind.
  assert (Hrows : flat_map (λ e, Optimized.write_hierarchy_to_bom (snd e))
                    ((λ r, (key_of ents r, tree_at (store_of records) ents limit r))
                       <$> roots_of records)
                  = retag ents <$> concat groups).
  { rewrite flat_map_concat, <- list_fmap_compose.
    clear Hthird. induction Hgroups as [ | r g rs gs Hg HF IH ]; [ done | ].
    rewrite fmap_cons. simpl. rewrite fmap_app, IH. f_equal.
    destruct limit as [ | limit ].
    - exfalso. destruct records; [ | simpl in Hlimit; lia ].
      destruct Hg as (m & _ & _ & _ & Hm & _).
      apply write_material_Ok in Hm. destruct Hm as (pi & Hpi & _).
      rewrite store_lookup in Hpi. destruct r; discriminate.
    - apply (write_root records ents). exact Hg. }
  rewrite Hrows, length_fmap. done.
Qed.

(** ** The order of the rows of optimized_processor *)

Lemma ordered_group_blocks (records : list level_record) limit r g :
  ordered_group (store_of records) limit r g →
  ∃ m comps blocks,
    g = m :: comps ++ concat blocks ∧
    Sequential.write_material (store_of records) r = Ok m ∧
    Sequential.write_components (store_of records) r (kids (store_of records) r) 10
      = Ok comps ∧
    Forall2 (λ c b, Sequential.write_deeper_levels (store_of records) limit c = Ok b)
      (kids (store_of records) r) blocks.
Proof.
  intros (m & comps & deeper & -> & Hm & Hcomps & Hdeeper).
  apply for_each_Ok in Hdeeper. destruct Hdeeper as (blocks & HF & ->).
  exists m, comps, blocks. done.
Qed.

Lemma ordered_group_covers (records : list level_record) limit r g :
  ordered_group (store_of records) limit r g → covers (store_of records) true r g.
Proof.
  intros Hg. destruct (ordered_group_blocks _ _ _ _ Hg)
    as (m & comps & blocks & -> & Hm & Hcomps & HF).
  apply covers_node; try done; [ by left | ].
  eapply Forall2_impl; [ exact HF | ].
  intros c b Hb. apply (write_deeper_levels_covers records limit). exact Hb.
Qed.

Lemma ordered_group_child_first (records : list level_record) limit r g p :
  ordered_group (store_of records) limit r g → child_first (store_of records) p g.
Proof.
  intros Hg. destruct (ordered_group_blocks _ _ _ _ Hg)
    as (m & comps & blocks & -> & Hm & Hcomps & HF).
  apply (child_first_node records r p).
  - apply write_material_Ok in Hm. destruct Hm as (ri & _ & ->). done.
  - eapply write_components_parent; eauto.
  - eapply Forall2_impl; [ exact HF | ]. intros c b Hb. simpl in Hb. split.
    + intros w Hw. eapply covers_desc; [ | exact Hw ].
      eapply write_deeper_levels_covers; eauto.
    + intros _. eapply write_deeper_levels_child_first; eauto.
Qed.

(** The groups of the roots, one after the other, keep the order for
    every material. *)
Lemma ordered_rows_child_first (records : list level_record) limit groups p :
  Forall2 (ordered_group (store_of records) limit) (roots_of records) groups →
  child_first (store_of records) p (concat groups).
Proof.
  intros HF.
  eapply child_first_concat; [ exact HF | apply roots_NoDup | | ].
  - intros r g _ Hg. eapply ordered_group_child_first; eauto.
  - intros r r' g g' w w' Hr Hr' Hg Hg' Hw Hk Hw' Hcomp.
    apply component_of_parent in Hcomp.
    pose proof (covers_desc records _ _ _ _ (ordered_group_covers _ _ _ _ Hg') Hw')
      as Hd'.
    rewrite Hcomp in Hd'.
    pose proof (covers_desc records _ _ _ _ (ordered_group_covers _ _ _ _ Hg) Hw)
      as Hd.
    apply (desc_same_level records r r' (parent_ref w)); [ done | | ].
    + eapply desc_snoc; eauto.
    + apply roots_level1 in Hr, Hr'. destruct Hr as [_ ->], Hr' as [_ ->]. done.
Qed.

Lemma desc_in_range (records : list level_record) r q :
  r < length records → desc (store_of records) r q → q < length records.
Proof.
  intros Hr Hd. apply desc_last_step in Hd. destruct Hd as [-> | (p & _ & Hq)]; [ done | ].
  rewrite <- store_length. eapply kid_lt_length; eauto.
Qed.

Lemma first_pass_extract (df : list raw_row) (ents : list (nat * item)) :
  Optimized.first_pass df = Ok ents →
  ∃ records, Sequential.extract df = Ok records ∧ length records = length ents.
Proof.
  intros Hents. pose proof (builders_agree_facts df) as H.
  destruct (Sequential.extract df) as [records | e]; [ | congruence ].
  destruct H as (ents' & Hents' & _ & _ & Hfst & Hsnd).
  assert (ents' = ents) by congruence. subst ents'.
  exists records. split; [ done | ].
  rewrite <- (length_fmap fst ents), <- Hfst, length_fmap.
  rewrite <- (length_fmap snd), Hsnd, length_fmap. symmetry. apply store_length.
Qed.

(** X14. [process_aptive_to_bom_optimized] keeps the order of the
    docstring of sequential_processor on every input: when the data
    frame is readable and the recursion limit is at least the number of
    items, it returns, and each component row is written before every
    row whose material is a child of the row's material, at every
    level. *)
Theorem optimized_siblings_first (df : list raw_row) (ents : list (nat * item))
  (limit : nat) (start : Z) :
  Optimized.first_pass df = Ok ents → length ents ≤ limit →
  ∃ ws,
    Optimized.process_aptive_to_bom_optimized limit df start
      = Ok (ws, (start + Z.of_nat (length ws))%Z) ∧
    ∀ i j wi wj p c e,
      ws !! i = Some wi → ws !! j = Some wj →
      fst wi = Component p c →
      e ∈ Optimized.second_pass ents → fst e = p →
      material_key wj ∈ children (snd e) →
      i < j.
Proof.
  intros Hents Hlimit.
  destruct (first_pass_extract df ents Hents) as (records & Hex & Hlen).
  destruct (optimized_rows df records limit start Hex ltac:(lia))
    as (ents' & groups & Hents' & Hkeys & Hfst & Hsnd & HF & Hrun).
  assert (ents' = ents) by congruence. subst ents'.
  exists (retag ents <$> concat groups). split.
  { rewrite Hrun, length_fmap. done. }
  intros i j wi wj p c e Hi Hj Hwi He Hp Hk.
  rewrite list_lookup_fmap in Hi. rewrite list_lookup_fmap in Hj.
  destruct (concat groups !! i) as [vi | ] eqn:Hvi; [ | discriminate ].
  destruct (concat groups !! j) as [vj | ] eqn:Hvj; [ | discriminate ].
  simpl in Hi, Hj. inversion Hi; subst wi. inversion Hj; subst wj. clear Hi Hj.
  assert (Hrange : ∀ v, v ∈ concat groups → parent_ref v < length records).
  { intros v Hv.
    destruct (elem_of_concat_Forall2 _ _ _ _ HF Hv) as (r & g & Hr & Hg & Hvg).
    apply (desc_in_range records r).
    - apply roots_level1 in Hr. tauto.
    - eapply covers_desc; [ | exact Hvg ]. eapply ordered_group_covers; eauto. }
  destruct vi as [[q | q d] rowi]; simpl in Hwi; [ discriminate | ].
  injection Hwi as Hpq Hcd. rewrite <- Hpq in Hp. clear Hpq Hcd.
  assert (Hq : q < length records).
  { apply (Hrange (Component q d, rowi)). apply list_elem_of_lookup. eauto. }
  assert (Hj : parent_ref vj < length records).
  { apply Hrange. apply list_elem_of_lookup. eauto. }
  destruct (lookup_lt_is_Some_2 (store_of records) q) as [it Hit];
    [ by rewrite store_length | ].
  apply list_elem_of_lookup in He. destruct He as [q' He].
  assert (Hq' : q' < length records).
  { apply lookup_lt_Some in He.
    rewrite <- (length_fmap snd), Hsnd, length_fmap, store_length in He. done. }
  destruct (lookup_lt_is_Some_2 (store_of records) q') as [it' Hit'];
    [ by rewrite store_length | ].
  rewrite (opt_items_lookup records ents Hfst Hsnd q' it' Hit') in He.
  inversion He; subst e. simpl in Hp, Hk.
  assert (q' = q) by (apply (key_of_inj records ents Hkeys Hfst Hsnd); done).
  subst q'. assert (it' = it) by congruence. subst it'.
  assert (Hkids : kids (store_of records) q = children it).
  { unfold kids. rewrite Hit. done. }
  rewrite <- Hkids in Hk.
  assert (Hmk : material_key (retag ents vj) = key_of ents (parent_ref vj)).
  { destruct vj as [[a | a b] rowj]; done. }
  rewrite Hmk in Hk. apply list_elem_of_fmap in Hk. destruct Hk as (c' & Hkey & Hc').
  assert (c' = parent_ref vj).
  { apply (key_of_inj records ents Hkeys Hfst Hsnd); [ | done | done ].
    rewrite <- store_length. eapply kid_lt_length; eauto. }
  subst c'.
  apply (child_first_lookup records q (concat groups)
           (ordered_rows_child_first records _ groups q HF)
           i j (Component q d, rowi) vj d); done.
Qed.

Lemma optimized_siblings_first_witness :
  Optimized.first_pass demo_df = Ok demo_ents ∧ length demo_ents ≤ 8 ∧
  ∃ ws,
    Optimized.process_aptive_to_bom_optimized 8 demo_df 9
      = Ok (ws, (9 + Z.of_nat (length ws))%Z) ∧
    ∀ i j wi wj p c e,
      ws !! i = Some wi → ws !! j = Some wj →
      fst wi = Component p c →
      e ∈ Optimized.second_pass demo_ents → fst e = p →
      material_key wj ∈ children (snd e) →
      i < j.
Proof.
  assert (Hents : Optimized.first_pass demo_df = Ok demo_ents) by reflexivity.
  assert (Hlen : length demo_ents ≤ 8) by (simpl; lia).
  split; [ exact Hents | ]. split; [ exact Hlen | ].
  exact (optimized_siblings_first demo_df demo_ents 8 9 Hents Hlen).
Defined.

(** ** Where the two writers agree *)

Section Shallow.
Variable records : list level_record.
Hypothesis Hno5 : Forall (λ r, r_level r ≠ 5%Z) records.
Local Abbreviation items := (store_of records).









(** The rows of [write_deeper_levels] do not depend on the limit. *)
Lemma deeper_rows_unique limit limit' q ws ws' :
  Sequential.write_deeper_levels items limit q = Ok ws →
  Sequential.write_deeper_levels items limit' q = Ok ws' → ws = ws'.
Proof.
  intros H H'.
  apply (write_deeper_levels_mono items limit (Nat.max limit limit')) in H; [ | lia ].
  apply (write_deeper_levels_mono items limit' (Nat.max limit limit')) in H'; [ | lia ].
  congruence.
Qed.


End Shallow.




(** ** The two writers on every input *)







(** ** The assignment of children to parents in final_processor *)

Section Assign.
Import Final.

Lemma mapping_get_append m pm c key :
  mapping_get (append_to m pm c) key =
  if String.eqb pm key then mapping_get m key ++ [c] else mapping_get m key.
Proof.
  induction m as [ | [k v] m IH ]; simpl.
  - destruct (String.eqb pm key); done.
  - destruct (String.eqb_spec k pm) as [-> | Hne]; simpl.
    + destruct (String.eqb pm key); done.
    + rewrite IH. destruct (String.eqb_spec k key) as [-> | Hk]; [ | done ].
      destruct (String.eqb_spec pm key); [ congruence | done ].
Qed.

Lemma append_to_keys m pm c k :
  k ∈ fst <$> append_to m pm c ↔ k ∈ fst <$> m ∨ k = pm.
Proof.
  induction m as [ | [k0 v] m IH ]; cbn [append_to].
  - rewrite fmap_cons, !fmap_nil, elem_of_cons, !elem_of_nil. simpl. tauto.
  - destruct (String.eqb_spec k0 pm) as [-> | Hne];
      rewrite !fmap_cons, !elem_of_cons; simpl.
    + tauto.
    + rewrite IH. tauto.
Qed.

Lemma append_to_NoDup m pm c :
  NoDup (fst <$> m) → NoDup (fst <$> append_to m pm c).
Proof.
  induction m as [ | [k0 v] m IH ]; cbn [append_to]; intros Hnd.
  - rewrite fmap_cons, fmap_nil. apply NoDup_singleton.
  - rewrite fmap_cons in Hnd. apply NoDup_cons in Hnd. destruct Hnd as [Hk Hnd].
    simpl in Hk.
    destruct (String.eqb_spec k0 pm) as [-> | Hne]; rewrite fmap_cons; simpl.
    + apply NoDup_cons. done.
    + apply NoDup_cons. split; [ | by apply IH ].
      rewrite append_to_keys. intros [H | H]; [ done | congruence ].
Qed.

Lemma append_to_nonempty m pm c :
  Forall (λ e, snd e ≠ []) m → Forall (λ e, snd e ≠ []) (append_to m pm c).
Proof.
  induction 1 as [ | [k0 v] m Hv HF IH ]; cbn [append_to].
  - constructor; [ done | constructor ].
  - destruct (String.eqb k0 pm); constructor; try done.
    simpl. intros Happ. by apply app_eq_nil in Happ as [_ ?].
Qed.

Lemma div_step ipp i :
  1 ≤ ipp → 0 < i →
  i / ipp = if i mod ipp =? 0 then S ((i - 1) / ipp) else (i - 1) / ipp.
Proof.
  intros Hipp Hi.
  pose proof (Nat.div_mod_eq i ipp) as H1.
  pose proof (Nat.mod_upper_bound i ipp ltac:(lia)) as H2.
  destruct (Nat.eqb_spec (i mod ipp) 0) as [H0 | H0].
  - symmetry. apply (Nat.div_unique i ipp _ 0); [ lia | ].
    pose proof (Nat.div_mod_eq (i - 1) ipp) as H3.
    pose proof (Nat.mod_upper_bound (i - 1) ipp ltac:(lia)) as H4.
    assert (i / ipp = S ((i - 1) / ipp)) by nia. nia.
  - apply (Nat.div_unique (i - 1) ipp _ (i mod ipp - 1)); lia.
Qed.

(** The running parent index is the position of the parent in closed
    form. *)
Lemma position_step n ipp i idx :
  1 ≤ ipp → (i = 0 → idx = 0) → (0 < i → idx = parent_position n ipp (i - 1)) →
  (if ((0 <? i) && (i mod ipp =? 0) && (Z.of_nat idx <? Z.of_nat n - 1)%Z)%bool
   then S idx else idx) = parent_position n ipp i.
Proof.
  intros Hipp H0 Hpos. unfold parent_position in *.
  destruct (Nat.ltb_spec 0 i) as [Hi | Hi]; cbn [andb].
  - specialize (Hpos Hi). rewrite (div_step ipp i Hipp Hi).
    destruct (i mod ipp =? 0); cbn [andb]; [ | lia ].
    destruct (Z.ltb_spec (Z.of_nat idx) (Z.of_nat n - 1)); lia.
  - assert (i = 0) by lia. subst i. rewrite (H0 eq_refl).
    rewrite Nat.Div0.div_0_l. lia.
Qed.

Lemma assign_loop_get parents ipp key :
  1 ≤ ipp →
  ∀ xs i idx m,
    (i = 0 → idx = 0) →
    (0 < i → idx = parent_position (length parents) ipp (i - 1)) →
    mapping_get (assign_loop parents ipp i xs idx m) key =
    mapping_get m key ++ assigned_to parents ipp key i xs.
Proof.
  intros Hipp. induction xs as [ | c cs IH ]; intros i idx m H0 Hpos.
  - simpl. unfold assigned_to. simpl. by rewrite app_nil_r.
  - cbn [assign_loop]. rewrite (position_step _ _ _ _ Hipp H0 Hpos).
    rewrite IH; [ | lia | intros _; f_equal; lia ].
    unfold assigned_to. rewrite imap_cons, filter_cons. cbn [fst].
    rewrite Nat.add_0_r.
    assert (Hext : imap ((λ j c0, (i + j, c0)) ∘ S) cs = imap (λ j c0, (S i + j, c0)) cs).
    { apply imap_ext. intros j x _. simpl. f_equal. lia. }
    rewrite Hext.
    destruct (parents !! parent_position (length parents) ipp i) as [pm | ] eqn:Hpm.
    + rewrite mapping_get_append.
      assert (Hpi : parent_is parents (parent_position (length parents) ipp i) key
                    = String.eqb pm key) by (unfold parent_is; rewrite Hpm; done).
      destruct (String.eqb pm key) eqn:Hk.
      * rewrite decide_True by done. rewrite fmap_cons. simpl.
        by rewrite <- app_assoc.
      * rewrite decide_False by (rewrite Hpi; done). done.
    + assert (Hpi : parent_is parents (parent_position (length parents) ipp i) key
                    = false) by (unfold parent_is; rewrite Hpm; done).
      rewrite decide_False by (rewrite Hpi; done). done.
Qed.

Lemma assign_loop_invariants parents ipp : ∀ xs i idx m,
  NoDup (fst <$> m) → Forall (λ e, snd e ≠ []) m →
  NoDup (fst <$> assign_loop parents ipp i xs idx m) ∧
  Forall (λ e, snd e ≠ []) (assign_loop parents ipp i xs idx m).
Proof.
  induction xs as [ | c cs IH ]; intros i idx m Hnd Hne; [ done | ].
  cbn [assign_loop]. apply IH.
  - destruct (parents !! _); [ by apply append_to_NoDup | done ].
  - destruct (parents !! _); [ by apply append_to_nonempty | done ].
Qed.

(** The second loop of [assign_items_to_parents] never runs over a
    child: the mapping is empty only when there is no child or no
    parent. *)
Lemma assign_fallback_dead all cs parents :
  assign_items_to_parents all cs parents =
  assign_loop parents (Nat.max 1 (length cs / Nat.max 1 (length parents)))
    0 cs 0 [].
Proof.
  unfold assign_items_to_parents.
  set (ipp := Nat.max 1 (length cs / Nat.max 1 (length parents))).
  destruct (assign_loop parents ipp 0 cs 0 []) as [ | e m ] eqn:Hloop; [ | done ].
  destruct parents as [ | first parents ]; [ done | ].
  destruct cs as [ | c cs ]; [ done | exfalso ].
  pose proof (assign_loop_get (first :: parents) ipp first ltac:(lia)
                (c :: cs) 0 0 [] ltac:(done) ltac:(lia)) as Hget.
  rewrite Hloop in Hget. simpl in Hget.
  unfold assigned_to in Hget. rewrite imap_cons, filter_cons in Hget.
  cbn [fst] in Hget.
  assert (Hp : parent_is (first :: parents)
                 (parent_position (length (first :: parents)) ipp (0 + 0)) first
               = true).
  { unfold parent_position. change (0 + 0) with 0.
    rewrite Nat.Div0.div_0_l, Nat.min_0_l. unfold parent_is. simpl.
    apply String.eqb_refl. }
  rewrite decide_True in Hget by exact Hp.
  discriminate.
Qed.

End Assign.

(** X17. [assign_items_to_parents] of final_processor assigns the
    children to the parent materials by position alone: with
    [per_parent = max(1, len(child_items) // max(1, len(parent_materials)))],
    the child at position [i] goes to the parent at position
    [min(i // per_parent, len(parent_materials) - 1)], so the parents
    get runs of [per_parent] children in order and the last parent all
    that remain; under each material the mapping holds exactly the
    children whose parent by position is that material, in order (two
    parents with the same identifier share one entry), no material
    appears twice and none has an empty list. Without a parent material
    no child is assigned, and the second loop of the function never adds
    anything. The levels and positions of the items in the data frame
    play no part. *)
Theorem assigned_by_position (all_items child_items : list Final.group_item)
  (parent_materials : list string) :
  let per_parent :=
    Nat.max 1 (length child_items / Nat.max 1 (length parent_materials)) in
  let parent_mapping :=
    Final.assign_items_to_parents all_items child_items parent_materials in
  (∀ key, mapping_get parent_mapping key =
          assigned_to parent_materials per_parent key 0 child_items) ∧
  NoDup (fst <$> parent_mapping) ∧
  Forall (λ e, snd e ≠ []) parent_mapping.
Proof.
  intros per_parent parent_mapping. subst parent_mapping.
  rewrite assign_fallback_dead. fold per_parent. split.
  - intros key.
    rewrite (assign_loop_get parent_materials per_parent key ltac:(subst per_parent; lia)
               child_items 0 0 []); [ done | done | lia ].
  - apply assign_loop_invariants; constructor.
Qed.

(** ** universal_processor on data frames without blank level cells *)

Lemma full_rows_records rows : ∀ records,
  Forall (λ row, isna (cellA row) = false) rows →
  Sequential.extract_rows rows = Ok records →
  Forall2 (λ row r, Sequential.extract_row row = Ok (Some r)) rows records.
Proof.
  induction rows as [ | row rows IH ]; simpl; intros records Hfull H.
  - inversion H. constructor.
  - apply Forall_cons in Hfull. destruct Hfull as [Hrow Hfull].
    bind_inv H. bind_inv H. inversion H; subst records; clear H.
    destruct a as [r | ].
    + constructor; [ done | by apply IH ].
    + exfalso. unfold Sequential.extract_row in Ha. rewrite Hrow in Ha.
      bind_inv Ha. bind_inv Ha. discriminate.
Qed.

Lemma row_fields row r :
  Sequential.extract_row row = Ok (Some r) →
  isna (cellA row) = false ∧
  Py.int (cellA row) = Ok (r_level r) ∧
  Universal.art_nr_of row = Ok (r_art_nr r) ∧
  Universal.unit_of row = r_unit r ∧
  Universal.quantity_of row = r_quantity r.
Proof.
  intros H. apply extract_row_Ok in H. destruct H as (HA & Hl & HB & HD & HE).
  split; [ done | ]. split; [ done | ].
  unfold Universal.art_nr_of, Universal.unit_of, Universal.quantity_of.
  split; [ | done ].
  destruct (isna (cellB row)); [ by rewrite HB | ].
  destruct HB as (z & -> & ->). done.
Qed.

Lemma universal_find_children L : ∀ rest recs j,
  Forall2 (λ row r, Sequential.extract_row row = Ok (Some r)) rest recs →
  Universal.find_children L (S j) rest =
  Ok (S <$> Sequential.find_children L j (new_item <$> recs)).
Proof.
  intros rest recs j HF. revert j.
  induction HF as [ | row r rest recs Hrow HF IH ]; intros j; [ done | ].
  destruct (row_fields row r Hrow) as (HA & Hl & _).
  rewrite fmap_cons. simpl. rewrite HA, Hl. simpl.
  destruct (r_level r =? L + 1)%Z.
  - rewrite IH. done.
  - destruct (r_level r <=? L)%Z; [ done | apply IH ].
Qed.

Lemma universal_has_grandchildren L : ∀ rest recs j,
  Forall2 (λ row r, Sequential.extract_row row = Ok (Some r)) rest recs →
  Universal.has_grandchildren L rest =
  Ok (match Sequential.find_children L j (new_item <$> recs) with
      | [] => false
      | _ :: _ => true
      end).
Proof.
  intros rest recs j HF. revert j.
  induction HF as [ | row r rest recs Hrow HF IH ]; intros j; [ done | ].
  destruct (row_fields row r Hrow) as (HA & Hl & _).
  rewrite fmap_cons. simpl. rewrite HA, Hl. simpl.
  destruct (r_level r =? L + 1)%Z; [ done | ].
  destruct (r_level r <=? L)%Z; [ done | apply IH ].
Qed.

(** The rows passed over after a group are below the level of its
    parent. *)
Lemma universal_next_index L : ∀ rest recs i,
  Forall2 (λ row r, Sequential.extract_row row = Ok (Some r)) rest recs →
  ∃ n, Universal.find_next_index L i rest = Ok n ∧ i ≤ n ∧
       ∀ k r, i ≤ k → k < n → recs !! (k - i) = Some r → (L < r_level r)%Z.
Proof.
  intros rest recs i HF. revert i.
  induction HF as [ | row r rest recs Hrow HF IH ]; intros i.
  - exists i. split; [ done | ]. split; [ done | ]. intros k r _ _ Hk. discriminate.
  - destruct (row_fields row r Hrow) as (HA & Hl & _).
    simpl. rewrite HA, Hl. simpl.
    destruct (Z.leb_spec (r_level r) L) as [Hle | Hgt].
    + exists i. split; [ done | ]. split; [ done | ]. intros; lia.
    + destruct (IH (S i)) as (n & Hn & Hin & Hbetween).
      exists n. split; [ done | ]. split; [ lia | ].
      intros k r' Hik Hkn Hk.
      destruct (decide (k = i)) as [-> | Hne].
      * rewrite Nat.sub_diag in Hk. inversion Hk; subst r'. done.
      * apply (Hbetween k r'); [ lia | done | ].
        replace (k - i) with (S (k - S i)) in Hk by lia. done.
Qed.

Lemma collect_full rows : ∀ i ents,
  Forall (λ row, isna (cellA row) = false) rows →
  Optimized.collect i rows = Ok ents →
  fst <$> ents = seq i (length rows).
Proof.
  induction rows as [ | row rows IH ]; simpl; intros i ents Hfull H.
  - by inversion H.
  - apply Forall_cons in Hfull. destruct Hfull as [Hrow Hfull].
    bind_inv H. bind_inv H. inversion H; subst ents; clear H.
    destruct a as [r | ].
    + rewrite fmap_cons. simpl. f_equal. by apply IH.
    + exfalso. unfold Sequential.extract_row in Ha. rewrite Hrow in Ha.
      bind_inv Ha. bind_inv Ha. discriminate.
Qed.

Section UniversalRun.
Variables (h : raw_row) (rows : list raw_row) (records : list level_record).
Variable ents : list (nat * item).
Hypothesis Hrows : Forall2 (λ row r, Sequential.extract_row row = Ok (Some r)) rows records.
Hypothesis Hkeys : fst <$> ents = seq 1 (length rows).
Local Abbreviation df := (h :: rows).
Local Abbreviation items := (store_of records).

Lemma rows_length : length rows = length records.
Proof. eapply Forall2_length; eauto. Qed.

Lemma key_succ p : p < length records → key_of ents p = S p.
Proof.
  intros Hp. unfold key_of. rewrite <- list_lookup_fmap, Hkeys.
  rewrite lookup_seq_lt by (rewrite rows_length; done). done.
Qed.

Lemma row_at p r :
  records !! p = Some r →
  ∃ row, deref df (S p) = Ok row ∧ Sequential.extract_row row = Ok (Some r).
Proof.
  intros Hr. destruct (Forall2_lookup_r _ _ _ _ _ Hrows Hr) as (row & Hrow & Hex).
  exists row. split; [ | done ]. unfold deref. simpl. rewrite Hrow. done.
Qed.

Lemma rows_from p :
  Forall2 (λ row r, Sequential.extract_row row = Ok (Some r))
    (drop (S p) df) (drop p records).
Proof. simpl. by apply Forall2_drop. Qed.

Lemma kids_find p r :
  records !! p = Some r →
  kids items p =
  Sequential.find_children (r_level r) (S p) (new_item <$> drop (S p) records).
Proof.
  intros Hr. unfold kids. rewrite store_lookup, Hr. simpl.
  by rewrite fmap_drop.
Qed.

Lemma universal_children p r :
  records !! p = Some r →
  Universal.find_children (r_level r) (S (S p)) (drop (S (S p)) df)
    = Ok (S <$> kids items p).
Proof.
  intros Hr. rewrite (kids_find p r Hr).
  apply universal_find_children. apply (rows_from (S p)).
Qed.

Lemma universal_grandchildren c rc :
  records !! c = Some rc →
  Universal.has_grandchildren (r_level rc) (drop (S (S c)) df)
    = Ok (match kids items c with [] => false | _ :: _ => true end).
Proof.
  intros Hr. rewrite (kids_find c rc Hr).
  apply universal_has_grandchildren. apply (rows_from (S c)).
Qed.

Lemma store_item p it :
  items !! p = Some it →
  ∃ r, records !! p = Some r ∧ level it = r_level r ∧ art_nr it = r_art_nr r ∧
       unit it = r_unit r ∧ quantity it = r_quantity r.
Proof.
  rewrite store_lookup. destruct (records !! p) as [r | ]; [ | discriminate ].
  simpl. intros H. inversion H. exists r. done.
Qed.

Lemma universal_write_child p art c rc :
  records !! c = Some rc →
  Universal.write_child df p art (S c) =
  Ok (Component p (S c),
      {| Optimized.bE := art; Optimized.bN := r_art_nr rc;
         Optimized.bO := r_quantity rc; Optimized.bP := r_unit rc |}).
Proof.
  intros Hrc. destruct (row_at c rc Hrc) as (row & Hrow & Hex).
  destruct (row_fields row rc Hex) as (_ & _ & HB & HD & HE).
  unfold Universal.write_child. rewrite Hrow, ret_bind, HB, ret_bind, HD, HE. done.
Qed.

(** The component rows. *)
Lemma universal_components p r cs : ∀ n comps,
  records !! p = Some r →
  Sequential.write_components items p cs n = Ok comps →
  Optimized.for_all (Universal.write_child df (S p) (r_art_nr r)) (S <$> cs)
    = Ok (retag ents <$> comps).
Proof.
  induction cs as [ | c cs IH ]; intros n comps Hr H; simpl in H.
  - by inversion H.
  - bind_inv H. bind_inv H. inversion H; subst comps; clear H.
    unfold Sequential.write_component in Ha. bind_inv Ha. bind_inv Ha.
    apply deref_Ok in Ha1, Ha2. inversion Ha; subst a; clear Ha.
    destruct (store_item p a1 Ha1) as (r' & Hr' & _ & Hart & _).
    assert (r' = r) by congruence. subst r'.
    destruct (store_item c a2 Ha2) as (rc & Hrc & _ & Hartc & Hunitc & Hqc).
    rewrite fmap_cons. cbn [Optimized.for_all].
    rewrite (universal_write_child (S p) (r_art_nr r) c rc Hrc), ret_bind.
    rewrite (IH _ _ Hr Ha0), ret_bind, fmap_cons. f_equal. f_equal.
    unfold retag, cells_ENOP, Sequential.component_row. simpl.
    rewrite (key_succ p), (key_succ c).
    + rewrite Hart, Hartc, Hunitc, Hqc. done.
    + apply lookup_lt_Some in Hrc. done.
    + apply lookup_lt_Some in Hr. done.
Qed.

End UniversalRun.
